(** * X watcher: polling, change detection and the account registry

    A shallow embedding of [server.mjs] (the long-running watcher) and of the
    functions it shares with [api/state.mjs] (the stateless variant), with the
    properties of the polling-and-change-detection core proved about it.

    Conventions of the embedding.
    - JavaScript strings are [string]s of ASCII characters: [trim] removes the
      ASCII white space characters and [toLowerCase] folds [A-Z].
    - A property that may be absent from a JSON payload and is only ever read
      through [x || ""] is a [string] that is empty when the property is
      absent; a property whose type is tested ([typeof], [Array.isArray]) keeps
      a tag ([jsval], [option]).
    - [new Date().toISOString()] is a clock reading passed in by the caller.
    - [fetch] is an oracle from the requested endpoint to what the provider
      does with the request during the refresh at hand. *)

From Stdlib Require Import ZArith Ascii String List Bool Sorted Permutation.
From stdpp Require Import gmap strings list pretty.

Local Open Scope string_scope.
Local Open Scope list_scope.
#[local] Set Warnings "-clear-no-such-hyp".

(** ** JavaScript strings *)

Module Js.

(** White space removed by [String.prototype.trim], on ASCII: TAB, LF, VT,
    FF, CR and SPACE. *)
Definition is_white (c : ascii) : bool :=
  let n := nat_of_ascii c in
  ((9 <=? n)%nat && (n <=? 13)%nat) || (n =? 32)%nat.

Fixpoint trimStart (s : string) : string :=
  match s with
  | EmptyString => EmptyString
  | String c r => if is_white c then trimStart r else s
  end.

Definition trimEnd (s : string) : string :=
  String.rev (trimStart (String.rev s)).

Definition trim (s : string) : string := trimEnd (trimStart s).

Definition lower (c : ascii) : ascii :=
  let n := nat_of_ascii c in
  if ((65 <=? n)%nat && (n <=? 90)%nat)%bool then ascii_of_nat (n + 32) else c.

Fixpoint toLowerCase (s : string) : string :=
  match s with
  | EmptyString => EmptyString
  | String c r => String (lower c) (toLowerCase r)
  end.

(** [s.replace(/^@/, "")]: one leading at-sign is removed. *)
Definition strip_at (s : string) : string :=
  match s with
  | String "@"%char r => r
  | _ => s
  end.

(** Truthiness of a string, and [a || b] on strings. *)
Definition truthy (s : string) : bool :=
  match s with EmptyString => false | _ => true end.

Definition or_else (a b : string) : string := if truthy a then a else b.

(** A value read from a JSON document whose type the code tests: a string, or
    something else.  A value that is not a string carries what the code can
    observe of it: whether it is truthy and what [String(v)] gives. *)
Inductive jsval : Type :=
  | JUndefined
  | JNull
  | JString (s : string)
  | JOther (is_truthy : bool) (as_string : string).

Definition typeof_string (v : jsval) : bool :=
  match v with JString _ => true | _ => false end.

(** [String(v || "")] *)
Definition String_or_empty (v : jsval) : string :=
  match v with
  | JUndefined | JNull => ""
  | JString s => s
  | JOther t s => if t then s else ""
  end.

End Js.

Import Js.
Infix "||s" := Js.or_else (at level 50, left associativity).

(** ** Data model *)

(** A serialized attachment, as [serializeTweetMedia] and [serializeTweet]
    build it. *)
Record Media := mkMedia {
  type : string;
  displayUrl : string;
  openUrl : string
}.

(** A serialized post. *)
Record Tweet := mkTweet {
  id : string;
  text : string;
  createdAt : string;
  url : string;
  media : list Media
}.

(** An entry of the registry [accounts]. *)
Record Account := mkAccount {
  name : string;
  username : string;
  usernameKey : string;
  userId : string;
  recentTweets : list Tweet;
  latestTweetId : string;
  latestTweetText : string;
  latestTweetCreatedAt : string;
  latestTweetUrl : string;
  error : string;
  initialized : bool;
  lastCheckedAt : string
}.

(** What [serializeAccount] exposes: [usernameKey], [userId] and
    [initialized] are left out. *)
Record AccountView := mkAccountView {
  v_name : string;
  v_username : string;
  v_recentTweets : list Tweet;
  v_latestTweetId : string;
  v_latestTweetText : string;
  v_latestTweetCreatedAt : string;
  v_latestTweetUrl : string;
  v_error : string;
  v_lastCheckedAt : string
}.

Definition serializeAccount (account : Account) : AccountView :=
  {| v_name := name account;
     v_username := username account;
     v_recentTweets := recentTweets account;
     v_latestTweetId := latestTweetId account;
     v_latestTweetText := latestTweetText account;
     v_latestTweetCreatedAt := latestTweetCreatedAt account;
     v_latestTweetUrl := latestTweetUrl account;
     v_error := error account;
     v_lastCheckedAt := lastCheckedAt account |}.

(** ** Registry load *)

(** An element of the parsed [config/accounts.json].  [None] is a falsy
    element ([null]); an element that is not an object has both properties
    [JUndefined]. *)
Record RawEntry := mkRaw {
  raw_name : jsval;
  raw_username : jsval
}.

(** The record pushed by [loadAccounts] and by [handleAddAccount]. *)
Definition newAccount (name username key : string) : Account :=
  {| name := name;
     username := username;
     usernameKey := key;
     userId := "";
     recentTweets := [];
     latestTweetId := "";
     latestTweetText := "";
     latestTweetCreatedAt := "";
     latestTweetUrl := "";
     error := "";
     initialized := false;
     lastCheckedAt := "" |}.

(** One turn of the loop of [loadAccounts] over the state [(seen, accounts)]. *)
Definition loadAccounts_step (st : gset string * list Account)
    (item : option RawEntry) : gset string * list Account :=
  let '(seen, accounts) := st in
  match item with
  | None => st
  | Some item =>
      match raw_name item, raw_username item with
      | JString item_name, JString item_username =>
          let username := strip_at (trim item_username) in
          if negb (truthy username) then st
          else
            let key := toLowerCase username in
            if decide (key ∈ seen) then st
            else ({[ key ]} ∪ seen,
                  accounts ++ [newAccount (trim item_name ||s username) username key])
      | _, _ => st
      end
  end.

(** [loadAccounts], from the parsed array on. *)
Definition loadAccounts (parsed : list (option RawEntry)) : list Account :=
  snd (fold_left loadAccounts_step parsed (∅, [])).


(** ** Content normalizer *)

(** An element of [media.variants]. [bitrate] is absent on some variants. *)
Record Variant := mkVariant {
  content_type : string;
  bitrate : option Z;
  v_url : string
}.

(** An element of [includes.media]. *)
Record RawMedia := mkRawMedia {
  media_key : string;
  m_type : string;
  m_url : string;
  preview_image_url : string;
  variants : option (list (option Variant))
}.

(** An element of [entities.urls]. *)
Record UrlEntity := mkUrlEntity {
  expanded_url : string;
  u_url : string
}.

(** An element of the [data] array of the timeline response. *)
Record RawTweet := mkRawTweet {
  t_id : string;
  t_text : string;
  created_at : string;
  media_keys : option (list string);
  urls : option (list (option UrlEntity))
}.

(** [Array.prototype.sort(cmp)]: the sort is stable, so for a comparator that
    orders its arguments consistently the result is the one of stable
    insertion: an element goes in front of the first later element that the
    comparator does not put before it. *)
Section ArraySort.
Context {A : Type} (cmp : A → A → Z).

Fixpoint sort_insert (x : A) (l : list A) : list A :=
  match l with
  | [] => [x]
  | y :: r => if (cmp x y <=? 0)%Z then x :: l else y :: sort_insert x r
  end.

Definition Array_sort (l : list A) : list A := fold_right sort_insert [] l.
End ArraySort.

(** [b.bitrate || 0] *)
Definition bitrate_or_0 (v : Variant) : Z := default 0%Z (bitrate v).

(** The comparator [(a, b) => (b.bitrate || 0) - (a.bitrate || 0)]. *)
Definition by_bitrate_desc (a b : Variant) : Z :=
  (bitrate_or_0 b - bitrate_or_0 a)%Z.

(** [item && item.content_type === "video/mp4" && item.url] *)
Definition is_mp4 (item : option Variant) : option Variant :=
  match item with
  | Some v =>
      if String.eqb (content_type v) "video/mp4" && truthy (v_url v)
      then Some v else None
  | None => None
  end.

Definition pickBestVideoVariant (variants : option (list (option Variant))) : string :=
  match variants with
  | None => ""
  | Some variants =>
      if (length variants =? 0)%nat then ""
      else
        let mp4Only := omap is_mp4 variants in
        if (length mp4Only =? 0)%nat then ""
        else
          match Array_sort by_bitrate_desc mp4Only with
          | best :: _ => v_url best ||s ""
          | [] => ""   (* not reached: the sort keeps the length *)
          end
  end.

Definition serializeTweetMedia (media : option RawMedia) : option Media :=
  match media with
  | None => None
  | Some media =>
      let type := m_type media in
      let directUrl := m_url media in
      let previewImageUrl := preview_image_url media in
      let videoUrl := pickBestVideoVariant (variants media) in
      let displayUrl :=
        if String.eqb type "photo" then directUrl
        else previewImageUrl ||s directUrl in
      if negb (truthy displayUrl) then None
      else Some {| type := type;
                   displayUrl := displayUrl;
                   openUrl := directUrl ||s videoUrl ||s displayUrl |}
  end.

(** The regular expression [/\.(png|jpe?g|gif|webp)(\?|$)/i]. *)
Definition image_extensions : list string := ["png"; "jpg"; "jpeg"; "gif"; "webp"].

(** [drop_prefix_ci p s]: what follows [p] in [s] when [s] starts with [p] up
    to the case of letters. *)
Fixpoint drop_prefix_ci (p s : string) : option string :=
  match p, s with
  | EmptyString, _ => Some s
  | String a p', String b s' =>
      if Ascii.eqb (lower a) (lower b) then drop_prefix_ci p' s' else None
  | String _ _, EmptyString => None
  end.

(** [(\?|$)]: a question mark or the end of the input. *)
Definition query_or_end (s : string) : bool :=
  match s with
  | EmptyString => true
  | String "?"%char _ => true
  | _ => false
  end.

(** The expression matched at the start of [s]. *)
Definition imageRegex_here (s : string) : bool :=
  match s with
  | String "."%char r =>
      existsb (fun ext => match drop_prefix_ci ext r with
                          | Some rest => query_or_end rest
                          | None => false
                          end) image_extensions
  | _ => false
  end.

(** [imageRegex.test(s)]: the expression matched at some position of [s]. *)
Fixpoint imageRegex_test (s : string) : bool :=
  imageRegex_here s ||
  match s with
  | EmptyString => false
  | String _ r => imageRegex_test r
  end.

Definition extractImageLinksFromEntities (tweet : RawTweet) : list string :=
  match urls tweet with
  | None => []
  | Some urls =>
      omap (fun urlItem : option UrlEntity =>
              let expanded :=
                match urlItem with
                | Some u => expanded_url u ||s u_url u ||s ""
                | None => ""
                end in
              if truthy expanded && imageRegex_test expanded
              then Some expanded else None) urls
  end.

Definition toTweetUrl (account : Account) (tweetId : string) : string :=
  "https://x.com/" ++ username account ++ "/status/" ++ tweetId.

Definition external_image (link : string) : Media :=
  {| type := "external_image"; displayUrl := link; openUrl := link |}.

(** The [media] array of [serializeTweet]: the structured attachments, and
    the image links of the entities when there is none. *)
Definition serializeTweet_media (tweet : RawTweet)
    (mediaByKey : gmap string RawMedia) : list Media :=
  let media :=
    match media_keys tweet with
    | Some mediaKeys => omap (fun key => serializeTweetMedia (mediaByKey !! key)) mediaKeys
    | None => []
    end in
  if (length media =? 0)%nat
  then media ++ map external_image (extractImageLinksFromEntities tweet)
  else media.

Definition serializeTweet (account : Account) (tweet : RawTweet)
    (mediaByKey : gmap string RawMedia) : Tweet :=
  {| id := t_id tweet;
     text := t_text tweet ||s "";
     createdAt := created_at tweet ||s "";
     url := toTweetUrl account (t_id tweet);
     media := serializeTweet_media tweet mediaByKey |}.

(** The [Map] filled by the loop over [includes.media]. *)
Definition build_mediaByKey (includeMedia : list (option RawMedia)) : gmap string RawMedia :=
  fold_left (fun mediaByKey media =>
               match media with
               | Some m => if truthy (media_key m) then <[media_key m := m]> mediaByKey
                           else mediaByKey
               | None => mediaByKey
               end) includeMedia ∅.

(** ** The provider, the runtime and the configuration *)

(** The [data] property of a response body: absent (or anything that is
    neither of the two), the user object of the lookup endpoint, or the array
    of the timeline endpoint. *)
Inductive DataField : Type :=
  | DataAbsent
  | DataUser (user_id : string)
  | DataList (list_ : list (option RawTweet)).

(** A parsed response body. *)
Record Payload := mkPayload {
  body_detail : string;
  body_title : string;
  body_data : DataField;
  includes_media : option (list (option RawMedia))
}.

(** What [fetch] resolved with; [json] is [None] when the body does not
    parse. *)
Record Response := mkResponse {
  ok : bool;
  status : nat;
  statusText : string;
  json : option Payload
}.

Inductive FetchResult : Type :=
  | Rejected (message : string)
  | Responded (response : Response).

(** Everything outside the program during one refresh or one cycle: the
    provider behind [fetch], the message of the [TypeError] the runtime raises
    when a property of [null] is read, and whether [fs.writeFile] fails. *)
Record World := mkWorld {
  fetch : string → FetchResult;
  typeError_message : string;
  writeFile_error : option string
}.

Record Config := mkConfig {
  X_BEARER_TOKEN : string;
  X_API_BASE_URL : string;
  POLL_INTERVAL_MS : Z
}.

(** ** Exceptions and mutable state *)

(** The result of running a block: it returned, or it threw an [Error] with
    the given [message]. *)
Inductive Outcome (A : Type) : Type :=
  | Returned (a : A)
  | Thrown (message : string).
Arguments Returned {A} a.
Arguments Thrown {A} message.

(** A block that runs on a mutable state [S]; what it wrote before throwing
    stays written. *)
Definition Block (S A : Type) : Type := S → S * Outcome A.

Module Block.
Definition ret {S A} (a : A) : Block S A := fun s => (s, Returned a).
Definition throw {S A} (message : string) : Block S A := fun s => (s, Thrown message).
Definition bind {S A B} (m : Block S A) (k : A → Block S B) : Block S B :=
  fun s => match m s with
           | (s', Returned a) => k a s'
           | (s', Thrown message) => (s', Thrown message)
           end.
Definition get {S} : Block S S := fun s => (s, Returned s).
Definition modify {S} (f : S → S) : Block S unit := fun s => (f s, Returned tt).
Definition lift {S A} (o : Outcome A) : Block S A := fun s => (s, o).
(** [try { m } catch (error) { handler(error.message) }] *)
Definition try_catch {S} (m : Block S unit) (handler : string → S → S) : S → S :=
  fun s => match m s with
           | (s', Returned _) => s'
           | (s', Thrown message) => handler message s'
           end.
End Block.

#[global] Instance Block_ret {S} : MRet (Block S) := fun A a => Block.ret a.
#[global] Instance Block_bind {S} : MBind (Block S) := fun A B k m => Block.bind m k.

(** ** Events *)

Inductive Event : Type :=
  | Ev_new_post (account : AccountView) (detectedAt : string)
  | Ev_state (serverTime : string) (pollIntervalMs : Z)
             (lastPollCompletedAt : string) (accounts : list AccountView)
  | Ev_error (message : string) (occurredAt : string).

(** ** Requests to the provider *)

Definition xApiRequest (cfg : Config) (w : World) (endpoint : string)
    : Outcome (option Payload) :=
  match fetch w (X_API_BASE_URL cfg ++ endpoint) with
  | Rejected message => Thrown message
  | Responded response =>
      let data := json response in
      if negb (ok response) then
        let detail :=
          from_option body_detail "" data ||s from_option body_title "" data ||s statusText response in
        Thrown ("X API error (" ++ pretty (status response) ++ "): " ++ detail)
      else Returned data
  end.

(** [data?.data?.id] *)
Definition data_id (data : option Payload) : string :=
  match data with
  | Some p => match body_data p with DataUser id => id | _ => "" end
  | None => ""
  end.

(** [data?.data] when it is an array. *)
Definition data_list (data : option Payload) : option (list (option RawTweet)) :=
  match data with
  | Some p => match body_data p with DataList l => Some l | _ => None end
  | None => None
  end.

Definition timeline_endpoint (userId : string) : string :=
  "/users/" ++ userId ++
  "/tweets?max_results=5&exclude=retweets,replies&tweet.fields=created_at,attachments,entities&expansions=attachments.media_keys&media.fields=media_key,type,url,preview_image_url,variants".

(** [list.map((tweet) => serializeTweet(account, tweet, mediaByKey))]: reading
    [tweet.id] of a [null] element raises a [TypeError]. *)
Fixpoint map_serializeTweet (w : World) (account : Account)
    (mediaByKey : gmap string RawMedia) (list_ : list (option RawTweet))
    : Outcome (list Tweet) :=
  match list_ with
  | [] => Returned []
  | None :: _ => Thrown (typeError_message w)
  | Some tweet :: rest =>
      match map_serializeTweet w account mediaByKey rest with
      | Returned tweets => Returned (serializeTweet account tweet mediaByKey :: tweets)
      | Thrown message => Thrown message
      end
  end.

Definition fetchRecentTweets (cfg : Config) (w : World) (account : Account)
    : Outcome (list Tweet) :=
  match xApiRequest cfg w (timeline_endpoint (userId account)) with
  | Thrown message => Thrown message
  | Returned data =>
      match data_list data with
      | None | Some [] => Returned []
      | Some list_ =>
          let includeMedia := default [] (data ≫= includes_media) in
          let mediaByKey := build_mediaByKey includeMedia in
          map_serializeTweet w account mediaByKey list_
      end
  end.

(** ** Per-account refresh *)

(** Assignments to the fields of an account. *)
Definition set_error (v : string) (a : Account) : Account :=
  mkAccount (name a) (username a) (usernameKey a) (userId a) (recentTweets a)
    (latestTweetId a) (latestTweetText a) (latestTweetCreatedAt a)
    (latestTweetUrl a) v (initialized a) (lastCheckedAt a).

Definition set_lastCheckedAt (v : string) (a : Account) : Account :=
  mkAccount (name a) (username a) (usernameKey a) (userId a) (recentTweets a)
    (latestTweetId a) (latestTweetText a) (latestTweetCreatedAt a)
    (latestTweetUrl a) (error a) (initialized a) v.

Definition set_userId (v : string) (a : Account) : Account :=
  mkAccount (name a) (username a) (usernameKey a) v (recentTweets a)
    (latestTweetId a) (latestTweetText a) (latestTweetCreatedAt a)
    (latestTweetUrl a) (error a) (initialized a) (lastCheckedAt a).

(** The five assignments of the content fields followed by
    [account.initialized = true]. *)
Definition set_content (recentTweets : list Tweet) (a : Account) : Account :=
  let newest := head recentTweets in
  mkAccount (name a) (username a) (usernameKey a) (userId a) recentTweets
    (from_option id "" newest ||s "")
    (from_option text "" newest ||s "")
    (from_option createdAt "" newest ||s "")
    (from_option url "" newest ||s "")
    (error a) true (lastCheckedAt a).

(** The state a refresh runs on: the account object and what
    [broadcastEvent] was called with. *)
Definition Refresh : Type := Account * list Event.

Definition broadcastEvent (e : Event) : Block Refresh unit :=
  Block.modify (fun '(account, sent) => (account, sent ++ [e])).

Definition on_account (f : Account → Account) : Refresh → Refresh :=
  fun '(account, sent) => (f account, sent).

Definition resolveUserId (cfg : Config) (w : World) : Block Refresh unit :=
  '(account, _) ← Block.get;
  data ← Block.lift (xApiRequest cfg w ("/users/by/username/" ++ username account));
  let id := data_id data in
  if negb (truthy id) then Block.throw "User ID not found."
  else Block.modify (on_account (set_userId id)).

(** [if (!account.userId) { await resolveUserId(account); }] *)
Definition refresh_resolve (cfg : Config) (w : World) : Block Refresh unit :=
  '(account, _) ← Block.get;
  if negb (truthy (userId account)) then resolveUserId cfg w else mret tt.

(** [wasInitialized && previousLatestTweetId && newest &&
     previousLatestTweetId !== newest.id] *)
Definition should_notify (wasInitialized : bool) (previousLatestTweetId : string)
    (newest : option Tweet) : bool :=
  wasInitialized && truthy previousLatestTweetId &&
  match newest with
  | Some newest => negb (String.eqb previousLatestTweetId (id newest))
  | None => false
  end.

(** The rest of the [try] block, from [fetchRecentTweets] on. *)
Definition refresh_fetch (cfg : Config) (w : World) (detectedAt : string)
    : Block Refresh unit :=
  '(account, _) ← Block.get;
  recentTweets ← Block.lift (fetchRecentTweets cfg w account);
  let newest := head recentTweets in
  let wasInitialized := initialized account in
  let previousLatestTweetId := latestTweetId account in
  Block.modify (on_account (set_content recentTweets));;
  if should_notify wasInitialized previousLatestTweetId newest then
    '(account, _) ← Block.get;
    broadcastEvent (Ev_new_post (serializeAccount account) detectedAt)
  else mret tt.

Definition token_missing_message : string :=
  "X_BEARER_TOKEN 환경 변수가 설정되지 않았습니다.".

(** [refreshOneAccount(account)], with the clock read at [now] on entry and at
    [detectedAt] where the notification is built.  The result is the account
    after the call and the events broadcast by it. *)
Definition refreshOneAccount (cfg : Config) (w : World) (now detectedAt : string)
    (account : Account) : Account * list Event :=
  let account := set_error "" account in
  let account := set_lastCheckedAt now account in
  if negb (truthy (X_BEARER_TOKEN cfg)) then
    (set_error token_missing_message account, [])
  else
    Block.try_catch
      (refresh_resolve cfg w;; refresh_fetch cfg w detectedAt)
      (fun message => on_account (set_error message))
      (account, []).

(** ** A refresh as a task of the event loop

    [refreshOneAccount] is an [async] function: it runs up to its first
    [await] when it is called, and is resumed when the awaited request has
    settled.  Between the two requests, and before the first one, other tasks
    run. *)

Inductive Phase : Type :=
  | Resolving   (* waiting for the lookup request *)
  | Fetching    (* waiting for the timeline request *)
  | Settled.    (* the promise of the call has settled *)

Definition Task : Type := Account * Phase.

(** The call itself: what runs before the first [await]. *)
Definition spawn (cfg : Config) (now : string) (account : Account) : Task :=
  let account := set_error "" account in
  let account := set_lastCheckedAt now account in
  if negb (truthy (X_BEARER_TOKEN cfg)) then
    (set_error token_missing_message account, Settled)
  else if negb (truthy (userId account)) then (account, Resolving)
  else (account, Fetching).

(** One resumption, at clock reading [t]: the awaited request has settled and
    the function runs to its next [await] or to its end.  The [catch] clause
    ends the task. *)
Definition resume (cfg : Config) (w : World) (t : string) (task : Task)
    : Task * list Event :=
  let '(account, phase) := task in
  match phase with
  | Resolving =>
      match refresh_resolve cfg w (account, []) with
      | ((account, sent), Returned _) => ((account, Fetching), sent)
      | ((account, sent), Thrown message) => ((set_error message account, Settled), sent)
      end
  | Fetching =>
      match refresh_fetch cfg w t (account, []) with
      | ((account, sent), Returned _) => ((account, Settled), sent)
      | ((account, sent), Thrown message) => ((set_error message account, Settled), sent)
      end
  | Settled => (task, [])
  end.

Definition is_settled (task : Task) : bool :=
  match snd task with Settled => true | _ => false end.

(** ** Poll cycle *)

(** The process-wide state: the registry, the time of the last completed
    cycle, the calls of [broadcastEvent] so far (each one is written to every
    connected client) and the content of [config/accounts.json]. *)
Record Server := mkServer {
  accounts : list Account;
  lastPollCompletedAt : string;
  log : list Event;
  ACCOUNTS_FILE : list (string * string)
}.

(** The event loop resumes task [i] at clock reading [t]. *)
Definition run_turn (cfg : Config) (w : World)
    (st : list Task * list Event) (turn : nat * string) : list Task * list Event :=
  let '(tasks, sent) := st in
  let '(i, t) := turn in
  match tasks !! i with
  | Some task =>
      let '(task', events) := resume cfg w t task in
      (<[i := task']> tasks, sent ++ events)
  | None => st
  end.

(** [pollAccounts()] run under a schedule of the event loop.
    [accounts.map(...)] calls [refreshOneAccount] on every account, the
    schedule resumes the tasks in the order in which their requests settle,
    and the function goes on after [Promise.allSettled] once every task has
    settled.  [None]: the tasks have not all settled when the schedule ends,
    and the function is still waiting. *)
Definition pollAccounts (cfg : Config) (w : World) (startedAt : string)
    (schedule : list (nat * string)) (completedAt : string) (srv : Server)
    : option Server :=
  let tasks := map (spawn cfg startedAt) (accounts srv) in
  let '(tasks, sent) := fold_left (run_turn cfg w) schedule (tasks, log srv) in
  if forallb is_settled tasks then
    let accounts := map fst tasks in
    Some {| accounts := accounts;
            lastPollCompletedAt := completedAt;
            log := sent ++ [Ev_state completedAt (POLL_INTERVAL_MS cfg) completedAt
                                     (map serializeAccount accounts)];
            ACCOUNTS_FILE := ACCOUNTS_FILE srv |}
  else None.

(** ** Adding an account *)

(** The body of the request as [readBody] returns it: [JSON.parse] threw, or
    a value whose [name] and [username] properties are the given ones
    ([JUndefined] when the value has no such property).  An error raised
    while the body is read or its two properties are converted to strings is
    raised before the first check of the handler, and is an [InvalidJson]
    with its message. *)
Inductive RequestBody : Type :=
  | InvalidJson (message : string)
  | Body (body_name body_username : jsval).

Inductive ReplyBody : Type :=
  | ErrorReply (error_ : string)
  | AccountReply (account : AccountView).

(** The status code and the payload given to [jsonResponse]. *)
Definition Reply : Type := nat * ReplyBody.

(** The class [[A-Za-z0-9_]]. *)
Definition is_handle_char (c : ascii) : bool :=
  let n := nat_of_ascii c in
  ((65 <=? n)%nat && (n <=? 90)%nat) || ((97 <=? n)%nat && (n <=? 122)%nat) ||
  ((48 <=? n)%nat && (n <=? 57)%nat) || (n =? 95)%nat.

(** [/^[A-Za-z0-9_]{1,15}$/.test(s)] *)
Definition usernameRegex_test (s : string) : bool :=
  let cs := list_ascii_of_string s in
  (1 <=? length cs)%nat && (length cs <=? 15)%nat && forallb is_handle_char cs.

(** [accounts.some((account) => account.usernameKey === key)] *)
Definition already_registered (key : string) (accounts : list Account) : bool :=
  existsb (fun account => String.eqb (usernameKey account) key) accounts.

(** What [saveAccounts] writes. *)
Definition serializable (accounts : list Account) : list (string * string) :=
  map (fun account => (name account, username account)) accounts.

Definition name_required_message : string := "name, username 값이 필요합니다.".
Definition bad_username_message : string := "username 형식이 올바르지 않습니다.".
Definition duplicate_message : string := "이미 등록된 계정입니다.".

(** [handleAddAccount(req, res)], with the clock read at [now] and
    [detectedAt] by the refresh of the new account and at [serverTime] for the
    snapshot.  The result is the state after the call and the reply. *)
Definition handleAddAccount (cfg : Config) (w : World)
    (now detectedAt serverTime : string) (req : RequestBody) (srv : Server)
    : Server * Reply :=
  match req with
  | InvalidJson message => (srv, (500, ErrorReply message))
  | Body body_name body_username =>
      let name := trim (String_or_empty body_name) in
      let usernameRaw := trim (String_or_empty body_username) in
      let username := strip_at usernameRaw in
      let usernameKey := toLowerCase username in
      if negb (truthy name) || negb (truthy username) then
        (srv, (400, ErrorReply name_required_message))
      else if negb (usernameRegex_test username) then
        (srv, (400, ErrorReply bad_username_message))
      else if already_registered usernameKey (accounts srv) then
        (srv, (409, ErrorReply duplicate_message))
      else
        let newAccount := newAccount name username usernameKey in
        let pushed := accounts srv ++ [newAccount] in
        match writeFile_error w with
        | Some message =>
            (mkServer pushed (lastPollCompletedAt srv) (log srv) (ACCOUNTS_FILE srv),
             (500, ErrorReply message))
        | None =>
            let '(refreshed, events) := refreshOneAccount cfg w now detectedAt newAccount in
            let accounts := accounts srv ++ [refreshed] in
            (mkServer accounts (lastPollCompletedAt srv)
               (log srv ++ events ++
                [Ev_state serverTime (POLL_INTERVAL_MS cfg) (lastPollCompletedAt srv)
                          (map serializeAccount accounts)])
               (serializable pushed),
             (201, AccountReply (serializeAccount refreshed)))
        end
  end.

(** ** The stateless variant, [api/state.mjs]

    The functions of [api/state.mjs] that differ in their text from those of
    [server.mjs]. *)

Module StateApi.

(** A turn of the loop of [loadAccounts], which collects [{name, username}]
    records. *)
Definition loadAccounts_step (st : gset string * list (string * string))
    (item : option RawEntry) : gset string * list (string * string) :=
  let '(seen, accounts) := st in
  match item with
  | None => st
  | Some item =>
      match raw_name item, raw_username item with
      | JString item_name, JString item_username =>
          let username := strip_at (trim item_username) in
          if negb (truthy username) then st
          else
            let usernameKey := toLowerCase username in
            if decide (usernameKey ∈ seen) then st
            else ({[ usernameKey ]} ∪ seen,
                  accounts ++ [(trim item_name ||s username, username)])
      | _, _ => st
      end
  end.

Definition loadAccounts (parsed : list (option RawEntry)) : list (string * string) :=
  snd (fold_left loadAccounts_step parsed (∅, [])).

(** No test of [variants.length] here. *)
Definition pickBestVideoVariant (variants : option (list (option Variant))) : string :=
  match variants with
  | None => ""
  | Some variants =>
      let mp4Only := omap is_mp4 variants in
      if (length mp4Only =? 0)%nat then ""
      else
        match Array_sort by_bitrate_desc mp4Only with
        | best :: _ => v_url best ||s ""
        | [] => ""
        end
  end.

Definition serializeTweetMedia (media : option RawMedia) : option Media :=
  match media with
  | None => None
  | Some media =>
      let type := m_type media in
      let directUrl := m_url media in
      let previewImageUrl := preview_image_url media in
      let videoUrl := pickBestVideoVariant (variants media) in
      let displayUrl :=
        if String.eqb type "photo" then directUrl
        else previewImageUrl ||s directUrl in
      if negb (truthy displayUrl) then None
      else Some {| type := type;
                   displayUrl := displayUrl;
                   openUrl := directUrl ||s videoUrl ||s displayUrl |}
  end.

Definition toTweetUrl (username tweetId : string) : string :=
  "https://x.com/" ++ username ++ "/status/" ++ tweetId.

Definition serializeTweet (username : string) (tweet : RawTweet)
    (mediaByKey : gmap string RawMedia) : Tweet :=
  let media :=
    match media_keys tweet with
    | Some mediaKeys => omap (fun key => serializeTweetMedia (mediaByKey !! key)) mediaKeys
    | None => []
    end in
  {| id := t_id tweet;
     text := t_text tweet ||s "";
     createdAt := created_at tweet ||s "";
     url := toTweetUrl username (t_id tweet);
     media := if (length media =? 0)%nat
              then media ++ map external_image (extractImageLinksFromEntities tweet)
              else media |}.

End StateApi.

(** * Vocabulary of the properties, and examples *)

(** ** Outcome of a refresh *)

(** The account on which the [try] block starts. *)
Definition prepared (now : string) (account : Account) : Account :=
  set_lastCheckedAt now (set_error "" account).

(** The steps of a refresh that can fail, in the order in which the code
    takes them: the credential check, the identity resolution when no
    identifier is known yet, the timeline request and the normalization of
    its posts.  The result is the account with the identifier resolved so
    far, and the new list of posts or the message of the failure. *)
Definition attempt (cfg : Config) (w : World) (account : Account)
    : Account * Outcome (list Tweet) :=
  if negb (truthy (X_BEARER_TOKEN cfg)) then (account, Thrown token_missing_message)
  else if negb (truthy (userId account)) then
    match xApiRequest cfg w ("/users/by/username/" ++ username account) with
    | Thrown message => (account, Thrown message)
    | Returned data =>
        if negb (truthy (data_id data)) then (account, Thrown "User ID not found.")
        else let account := set_userId (data_id data) account in
             (account, fetchRecentTweets cfg w account)
    end
  else (account, fetchRecentTweets cfg w account).

(** The refresh succeeded: [recentTweets] was replaced. *)
Definition succeeded (cfg : Config) (w : World) (account : Account) : bool :=
  match snd (attempt cfg w account) with Returned _ => true | Thrown _ => false end.

(** The account a refresh at [now] ends with; the clock reading at the
    notification has no bearing on it. *)
Definition refreshed (cfg : Config) (w : World) (now : string) (a : Account) : Account :=
  fst (refreshOneAccount cfg w now now a).

(** The account carried by a [new_post] event. *)
Definition post_view (e : Event) : option AccountView :=
  match e with Ev_new_post v _ => Some v | _ => None end.

Definition is_post (e : Event) : Prop := ∃ v t, e = Ev_new_post v t.

(** The accounts announced by a refresh at [now]: the refreshed account or
    nothing. *)
Definition notified (cfg : Config) (w : World) (now : string) (a : Account)
    : list AccountView :=
  omap post_view (snd (refreshOneAccount cfg w now now a)).

(** ** What a failed refresh leaves *)

(** The content fields of an account. *)
Definition same_content (a a' : Account) : Prop :=
  recentTweets a' = recentTweets a ∧
  latestTweetId a' = latestTweetId a ∧
  latestTweetText a' = latestTweetText a ∧
  latestTweetCreatedAt a' = latestTweetCreatedAt a ∧
  latestTweetUrl a' = latestTweetUrl a.

(** Every field but [error] and [lastCheckedAt] is the same. *)
Definition only_error_and_lastCheckedAt_differ (a a' : Account) : Prop :=
  name a' = name a ∧ username a' = username a ∧ usernameKey a' = usernameKey a ∧
  userId a' = userId a ∧ same_content a a' ∧ initialized a' = initialized a.

(** The errors raised by the runtime rather than by the program, a rejected
    [fetch] and the [TypeError], have a message. *)
Definition runtime_messages_nonempty (w : World) : Prop :=
  typeError_message w ≠ "" ∧ ∀ endpoint m, fetch w endpoint = Rejected m → m ≠ "".

(** ** The list of recent posts *)

(** Timestamps in descending order; ISO timestamps compare as strings. *)
Definition newest_first (stamps : list string) : Prop :=
  StronglySorted (fun x y => String.le y x) stamps.

(** The [created_at] of the posts of a timeline response. *)
Definition timestamps (l : list (option RawTweet)) : list string :=
  omap (fmap created_at) l.

(** At most five posts, newest first. *)
Definition recent_ok (a : Account) : Prop :=
  (length (recentTweets a) ≤ 5)%nat ∧ newest_first (map createdAt (recentTweets a)).

(** ** Tasks and schedules *)

(** The number of resumptions a task still needs, at most. *)
Definition rank (task : Task) : nat :=
  match snd task with Resolving => 2 | Fetching => 1 | Settled => 0 end.

(** The task run to its end: the account and the announcements still to come. *)
Definition finish (cfg : Config) (w : World) (task : Task) : Account * list AccountView :=
  let '(task1, ev1) := resume cfg w "" task in
  let '(task2, ev2) := resume cfg w "" task1 in
  (fst task2, omap post_view (ev1 ++ ev2)).

(** How often the schedule resumes task [i]. *)
Definition resumptions (i : nat) (schedule : list (nat * string)) : nat :=
  length (filter (fun turn => fst turn = i) schedule).

(** The rank of task [i], 0 when there is no such task. *)
Definition rank_at (tasks : list Task) (i : nat) : nat :=
  from_option rank 0%nat (tasks !! i).

(** The accounts the tasks end with. *)
Definition ends_of (cfg : Config) (w : World) (tasks : list Task) : list Account :=
  map (fun task => fst (finish cfg w task)) tasks.

(** The announcements the tasks have still to make. *)
Definition to_come_of (cfg : Config) (w : World) (tasks : list Task) : list AccountView :=
  flat_map (fun task => snd (finish cfg w task)) tasks.

(** ** The registry *)

(** The registry load in the words of the specification: the entries whose
    [name] and [username] are strings and whose username, trimmed and with one
    leading at-sign removed, is not empty ... *)
Definition well_formed (item : option RawEntry) : option (string * string) :=
  match item with
  | Some {| raw_name := JString n; raw_username := JString u |} =>
      if decide (strip_at (trim u) = "") then None else Some (n, strip_at (trim u))
  | _ => None
  end.

(** The lowercase username of an entry. *)
Definition entry_key (e : string * string) : string := toLowerCase (snd e).

(** ... of which an entry is kept when its lowercase username is not the one
    of an entry kept earlier. *)
Fixpoint keep_first (kept_keys : list string) (entries : list (string * string))
    : list (string * string) :=
  match entries with
  | [] => []
  | e :: rest =>
      if decide (entry_key e ∈ kept_keys) then keep_first kept_keys rest
      else e :: keep_first (entry_key e :: kept_keys) rest
  end.

(** The names and usernames the load keeps. *)
Definition load_spec (parsed : list (option RawEntry)) : list (string * string) :=
  keep_first [] (omap well_formed parsed).

(** The account made of a kept entry. *)
Definition entry_account (e : string * string) : Account :=
  newAccount (trim (fst e) ||s snd e) (snd e) (entry_key e).

(** Every account of the registry has the lowercase form of its username as
    its key. *)
Definition registry_ok (accounts : list Account) : Prop :=
  Forall (fun a => usernameKey a = toLowerCase (username a)) accounts.

(** ** Sorting and links *)

(** A comparator that orders by descending [key]. *)
Definition by_key_desc {A : Type} (key : A → Z) (a b : A) : Z := (key b - key a)%Z.

(** In descending order of [key]. *)
Definition descending {A : Type} (key : A → Z) (l : list A) : Prop :=
  StronglySorted (fun a b => (key b ≤ key a)%Z) l.

(** The link of an entity: [urlItem?.expanded_url || urlItem?.url || ""]. *)
Definition entity_link (urlItem : option UrlEntity) : string :=
  match urlItem with
  | Some u => expanded_url u ||s u_url u
  | None => ""
  end.

(** ** Examples *)

(** No credential, and a credential. *)
Definition cfg_no_token : Config := mkConfig "" "https://api.x.com/2" 30000.
Definition cfg_token : Config := mkConfig "token" "https://api.x.com/2" 30000.

(** No request is answered. *)
Definition w_offline : World :=
  mkWorld (fun _ => Rejected "fetch failed")
          "Cannot read properties of null (reading 'id')" None.

(** The lookup of [foo] answers with the identifier [42]; any other request is
    refused with status 429. *)
Definition w_lookup_only : World :=
  mkWorld (fun endpoint =>
             if String.eqb endpoint "https://api.x.com/2/users/by/username/foo"
             then Responded (mkResponse true 200 "OK"
                               (Some (mkPayload "" "" (DataUser "42") None)))
             else Responded (mkResponse false 429 "Too Many Requests" None))
          "Cannot read properties of null (reading 'id')" None.

(** The lookup of [foo] fails with status 404. *)
Definition w_not_found : World :=
  mkWorld (fun _ => Responded (mkResponse false 404 "Not Found"
                                 (Some (mkPayload "Could not find user" "" DataAbsent None))))
          "Cannot read properties of null (reading 'id')" None.

(** Two posts of a timeline, the newer one first. *)
Definition tweet_101 : RawTweet := mkRawTweet "101" "second" "2024-05-02T10:00:00.000Z" None None.
Definition tweet_100 : RawTweet := mkRawTweet "100" "first" "2024-05-01T10:00:00.000Z" None None.

(** The lookup of [foo] answers [42] and the timeline of [42] has two posts. *)
Definition w_two_posts : World :=
  mkWorld (fun endpoint =>
             if String.eqb endpoint "https://api.x.com/2/users/by/username/foo"
             then Responded (mkResponse true 200 "OK"
                               (Some (mkPayload "" "" (DataUser "42") None)))
             else if String.eqb endpoint ("https://api.x.com/2" ++ timeline_endpoint "42")
             then Responded (mkResponse true 200 "OK"
                               (Some (mkPayload "" "" (DataList [Some tweet_101; Some tweet_100])
                                        None)))
             else Responded (mkResponse false 404 "Not Found" None))
          "Cannot read properties of null (reading 'id')" None.

(** The request for the timeline of [42], as the provider receives it. *)
Definition timeline_of_42 : string :=
  "https://api.x.com/2/users/42/tweets?max_results=5&exclude=retweets,replies&tweet.fields=created_at,attachments,entities&expansions=attachments.media_keys&media.fields=media_key,type,url,preview_image_url,variants".

(** The provider answers the request for the timeline of [42] with six
    posts, newest first. *)
Definition w_six_posts : World :=
  mkWorld (fun endpoint =>
             if String.eqb endpoint timeline_of_42
             then Responded (mkResponse true 200 "OK"
                    (Some (mkPayload "" ""
                       (DataList [Some (mkRawTweet "106" "f" "2024-05-06T10:00:00.000Z" None None);
                                  Some (mkRawTweet "105" "e" "2024-05-05T10:00:00.000Z" None None);
                                  Some (mkRawTweet "104" "d" "2024-05-04T10:00:00.000Z" None None);
                                  Some (mkRawTweet "103" "c" "2024-05-03T10:00:00.000Z" None None);
                                  Some (mkRawTweet "102" "b" "2024-05-02T10:00:00.000Z" None None);
                                  Some (mkRawTweet "101" "a" "2024-05-01T10:00:00.000Z" None None)])
                       None)))
             else Responded (mkResponse false 404 "Not Found" None))
          "Cannot read properties of null (reading 'id')" None.

(** The provider answers the request for the timeline of [42] with two
    posts, the older one first. *)
Definition w_oldest_first : World :=
  mkWorld (fun endpoint =>
             if String.eqb endpoint timeline_of_42
             then Responded (mkResponse true 200 "OK"
                    (Some (mkPayload "" "" (DataList [Some tweet_100; Some tweet_101]) None)))
             else Responded (mkResponse false 404 "Not Found" None))
          "Cannot read properties of null (reading 'id')" None.

(** An account as the registry load creates it. *)
Definition account_foo : Account := newAccount "A" "foo" "foo".

(** The account [foo] after an earlier refresh that found the post [100]. *)
Definition account_foo_known : Account :=
  mkAccount "A" "foo" "foo" "42" [] "100" "first" "2024-05-01T10:00:00.000Z"
    "https://x.com/foo/status/100" "" true "t".

(** An account whose lookup fails in [w_two_posts]. *)
Definition account_bar : Account := newAccount "B" "bar" "bar".

(** A registry of two accounts. *)
Definition srv_two : Server := mkServer [account_bar; account_foo_known] "" [] [].


Definition srv_empty : Server := mkServer [] "" [] [].


(** The state after the handle [u] has been added to an empty registry. *)
Definition after_adding (u : string) : Server :=
  fst (handleAddAccount cfg_no_token w_offline "t0" "t1" "t2"
         (Body (JString "A") (JString u)) srv_empty).

(** The same handle twice, in two cases. *)
Definition raw_A_foo_B_FOO : list (option RawEntry) :=
  [Some (mkRaw (JString "A") (JString "foo")); Some (mkRaw (JString "B") (JString "FOO"))].

(** Two MPEG-4 variants and an HLS playlist. *)
Definition variants_500_2000_hls : list (option Variant) :=
  [Some (mkVariant "video/mp4" (Some 500%Z) "a");
   Some (mkVariant "video/mp4" (Some 2000%Z) "b");
   Some (mkVariant "application/x-mpegURL" (Some 9999%Z) "c")].

(** A post with two attachments, one of them known, and a post with two
    links, one of them an image. *)
Definition tweet_photo : RawTweet := mkRawTweet "1" "photo" "" (Some ["k1"; "k0"]) None.
Definition tweet_link : RawTweet :=
  mkRawTweet "2" "link" "" None
    (Some [Some (mkUrlEntity "https://img.example/pic.jpg?x=1" "https://t.co/a");
           Some (mkUrlEntity "https://example.com/page" "https://t.co/b")]).
Definition media_k1 : gmap string RawMedia :=
  build_mediaByKey [Some (mkRawMedia "k1" "photo" "https://img.example/1.jpg" "" None)].

(** * Further vocabulary *)

(** ** Accounts and registries *)

(** The four [latest...] fields are those of the first recent post, and empty
    when there is none. *)
Definition latest_consistent (a : Account) : Prop :=
  latestTweetId a = from_option id "" (head (recentTweets a)) ∧
  latestTweetText a = from_option text "" (head (recentTweets a)) ∧
  latestTweetCreatedAt a = from_option createdAt "" (head (recentTweets a)) ∧
  latestTweetUrl a = from_option url "" (head (recentTweets a)).

(** The fields that identify an account. *)
Definition identity (a : Account) : string * string * string :=
  (name a, username a, usernameKey a).

(** The keys are the lowercase usernames and no two accounts share one. *)
Definition registry_wf (accounts : list Account) : Prop :=
  registry_ok accounts ∧ NoDup (map usernameKey accounts).

(** What a refresh leaves as it is when nothing changed at the provider. *)
Definition same_state (a a' : Account) : Prop :=
  same_content a a' ∧ error a' = error a ∧ userId a' = userId a ∧
  initialized a' = initialized a ∧ identity a' = identity a.

(** ** Media *)

(** The elements of [includes.media] that carry the key [key], in order. *)
Definition media_with_key (key : string) (includeMedia : list (option RawMedia))
    : list RawMedia :=
  filter (fun m => media_key m = key) (omap Datatypes.id includeMedia).

(** ** The accounts file *)

(** [JSON.parse] of what [saveAccounts] wrote with [JSON.stringify]: an array
    of objects with the two strings. *)
Definition file_entries (file : list (string * string)) : list (option RawEntry) :=
  map (fun e => Some (mkRaw (JString (fst e)) (JString (snd e)))) file.

(** An account as the add-account operation makes them: a handle that passes
    the syntax rule and a trimmed name that is not empty. *)
Definition storable (a : Account) : Prop :=
  usernameRegex_test (username a) = true ∧ trim (name a) = name a ∧ name a ≠ "".

(** The account in its initial state. *)
Definition reset (a : Account) : Account :=
  newAccount (name a) (username a) (usernameKey a).

(** A string that does not start with white space. *)
Definition starts_clean (s : string) : Prop :=
  match s with
  | EmptyString => True
  | String c _ => is_white c = false
  end.

(** All the characters are letters, digits or underscores. *)
Definition all_handle (s : string) : bool :=
  forallb is_handle_char (list_ascii_of_string s).

(** * The live-update stream

    The set [clients] of [server.mjs], the handler of [GET /events] that
    fills it, and [broadcastEvent] with what it writes to whom. *)

Module Sse.

(** What is written to a response of [GET /events]. *)
Inductive Frame : Type :=
  | Preamble                            (* the line written by [sendSseHeaders] *)
  | Connected (connectedAt : string)    (* the [connected] event *)
  | Message (e : Event)                 (* an event given to [broadcastEvent] *)
  | End.                                (* [res.end()] *)

(** The [Set] of the connected responses, in the order of their insertion,
    and every write so far with the response it went to. *)
Record Hub := mkHub {
  clients : list nat;
  written : list (nat * Frame)
}.

(** [clients.add(res)] *)
Definition add (res : nat) (clients : list nat) : list nat :=
  if decide (res ∈ clients) then clients else clients ++ [res].

(** [clients.delete(res)] *)
Definition delete (res : nat) (clients : list nat) : list nat :=
  filter (fun c => c ≠ res) clients.

Definition write (res : nat) (f : Frame) (hub : Hub) : Hub :=
  mkHub (clients hub) (written hub ++ [(res, f)]).

(** [for (const client of clients) client.write(data)] *)
Definition broadcastEvent (e : Event) (hub : Hub) : Hub :=
  mkHub (clients hub) (written hub ++ map (fun client => (client, Message e)) (clients hub)).

(** The handler of [GET /events], up to the registration of the [close]
    listener. *)
Definition connect (res : nat) (connectedAt : string) (hub : Hub) : Hub :=
  let hub := write res Preamble hub in
  let hub := mkHub (add res (clients hub)) (written hub) in
  write res (Connected connectedAt) hub.

(** The [close] listener. *)
Definition close (res : nat) (hub : Hub) : Hub :=
  let hub := mkHub (delete res (clients hub)) (written hub) in
  write res End hub.

(** What happens to the hub, one thing after the other. *)
Inductive Op : Type :=
  | Connect (res : nat) (connectedAt : string)
  | Close (res : nat)
  | Broadcast (e : Event).

Definition step (hub : Hub) (op : Op) : Hub :=
  match op with
  | Connect res t => connect res t hub
  | Close res => close res hub
  | Broadcast e => broadcastEvent e hub
  end.

Definition run (ops : list Op) (hub : Hub) : Hub := fold_left step ops hub.

(** What was written to the response [res]. *)
Definition received (res : nat) (hub : Hub) : list Frame :=
  map snd (filter (fun wr => fst wr = res) (written hub)).

(** What a response is to receive from a sequence of operations, given
    whether it is connected at its start: its own connection and
    disconnection, and the broadcasts made while it is connected. *)
Fixpoint stream (res : nat) (connected : bool) (ops : list Op) : list Frame :=
  match ops with
  | [] => []
  | Connect res' t :: ops =>
      if decide (res' = res) then Preamble :: Connected t :: stream res true ops
      else stream res connected ops
  | Close res' :: ops =>
      if decide (res' = res) then End :: stream res false ops
      else stream res connected ops
  | Broadcast e :: ops =>
      (if connected then [Message e] else []) ++ stream res connected ops
  end.

End Sse.

(** * The stateless endpoint, [api/state.mjs]

    [xApiRequest], [extractImageLinksFromEntities] and the constants are
    those of [server.mjs], word for word; the functions that differ are in
    [StateApi] above and here. *)

Module State.

(** [resolveUserId(username)] on the cache [userIdCache], a [Map] from
    lowercase usernames to identifiers that lives as long as the process. *)
Definition resolveUserId (cfg : Config) (w : World) (username : string)
    (userIdCache : gmap string string) : gmap string string * Outcome string :=
  let cacheKey := toLowerCase username in
  match userIdCache !! cacheKey with
  | Some userId => (userIdCache, Returned userId)
  | None =>
      match xApiRequest cfg w ("/users/by/username/" ++ username) with
      | Thrown message => (userIdCache, Thrown message)
      | Returned data =>
          let userId := data_id data in
          if negb (truthy userId) then (userIdCache, Thrown "User ID not found.")
          else (<[cacheKey := userId]> userIdCache, Returned userId)
      end
  end.

(** [tweets.map((tweet) => serializeTweet(username, tweet, mediaByKey))] *)
Fixpoint map_serializeTweet (w : World) (username : string)
    (mediaByKey : gmap string RawMedia) (tweets : list (option RawTweet))
    : Outcome (list Tweet) :=
  match tweets with
  | [] => Returned []
  | None :: _ => Thrown (typeError_message w)
  | Some tweet :: rest =>
      match map_serializeTweet w username mediaByKey rest with
      | Returned out => Returned (StateApi.serializeTweet username tweet mediaByKey :: out)
      | Thrown message => Thrown message
      end
  end.

Definition fetchRecentTweets (cfg : Config) (w : World) (username userId : string)
    : Outcome (list Tweet) :=
  match xApiRequest cfg w (timeline_endpoint userId) with
  | Thrown message => Thrown message
  | Returned data =>
      let tweets := default [] (data_list data) in
      let mediaList := default [] (data ≫= includes_media) in
      let mediaByKey := build_mediaByKey mediaList in
      map_serializeTweet w username mediaByKey tweets
  end.

(** The [output] object at its creation. *)
Definition output0 (account : string * string) (nowIso : string) : AccountView :=
  mkAccountView (fst account) (snd account) [] "" "" "" "" "" nowIso.

Definition with_error (message : string) (output : AccountView) : AccountView :=
  mkAccountView (v_name output) (v_username output) (v_recentTweets output)
    (v_latestTweetId output) (v_latestTweetText output) (v_latestTweetCreatedAt output)
    (v_latestTweetUrl output) message (v_lastCheckedAt output).

Definition with_tweets (recentTweets : list Tweet) (output : AccountView) : AccountView :=
  let newest := head recentTweets in
  mkAccountView (v_name output) (v_username output) recentTweets
    (from_option id "" newest ||s "") (from_option text "" newest ||s "")
    (from_option createdAt "" newest ||s "") (from_option url "" newest ||s "")
    (v_error output) (v_lastCheckedAt output).

(** The function mapped over the accounts by [buildState]. *)
Definition accountState (cfg : Config) (w : World) (nowIso : string)
    (account : string * string) (userIdCache : gmap string string)
    : gmap string string * AccountView :=
  let output := output0 account nowIso in
  if negb (truthy (X_BEARER_TOKEN cfg)) then
    (userIdCache, with_error token_missing_message output)
  else
    match resolveUserId cfg w (snd account) userIdCache with
    | (userIdCache, Thrown message) => (userIdCache, with_error message output)
    | (userIdCache, Returned userId) =>
        match fetchRecentTweets cfg w (snd account) userId with
        | Thrown message => (userIdCache, with_error message output)
        | Returned recentTweets => (userIdCache, with_tweets recentTweets output)
        end
    end.

(** The accounts file as [loadAccounts] finds it: [readFile] fails,
    [JSON.parse] fails, the value is no array, or it is the given array. *)
Inductive AccountsFile : Type :=
  | Unreadable (message : string)
  | NotJson (message : string)
  | NotArray
  | Entries (parsed : list (option RawEntry)).

Definition loadAccounts (file : AccountsFile) : Outcome (list (string * string)) :=
  match file with
  | Unreadable message => Thrown message
  | NotJson message => Thrown message
  | NotArray => Thrown "config/accounts.json must be an array."
  | Entries parsed => Returned (StateApi.loadAccounts parsed)
  end.

Record Payload := mkPayload {
  tokenConfigured : bool;
  canPersistAccounts : bool;
  supportsRealtimeSse : bool;
  pollIntervalMs : Z;
  serverTime : string;
  accounts : list AccountView
}.

(** The functions mapped by [Promise.all] run one after the other here, on
    the cache left by the one before; the accounts of a loaded list have
    distinct cache keys, and [accountStates_independent] below shows that
    each then gets what it would get alone. *)
Definition accountStates (cfg : Config) (w : World) (nowIso : string)
    (accounts : list (string * string)) (userIdCache : gmap string string)
    : gmap string string * list AccountView :=
  fold_left (fun st account =>
               let '(userIdCache, out) := st in
               let '(userIdCache, output) :=
                 accountState cfg w nowIso account userIdCache in
               (userIdCache, out ++ [output]))
            accounts (userIdCache, []).

Definition buildState (cfg : Config) (w : World) (nowIso : string)
    (file : AccountsFile) (userIdCache : gmap string string)
    : gmap string string * Outcome Payload :=
  match loadAccounts file with
  | Thrown message => (userIdCache, Thrown message)
  | Returned accounts =>
      let '(userIdCache, accountStates) :=
        accountStates cfg w nowIso accounts userIdCache in
      (userIdCache,
       Returned {| tokenConfigured := truthy (X_BEARER_TOKEN cfg);
                   canPersistAccounts := false;
                   supportsRealtimeSse := false;
                   pollIntervalMs := POLL_INTERVAL_MS cfg;
                   serverTime := nowIso;
                   accounts := accountStates |})
  end.

Inductive Body : Type :=
  | ErrorBody (error_ : string)
  | StateBody (payload : Payload).

(** The status, the headers set and the body of the reply. *)
Record Reply := mkReply {
  status_ : nat;
  headers : list (string * string);
  body : Body
}.

Definition handler (cfg : Config) (w : World) (nowIso : string)
    (file : AccountsFile) (method : string) (userIdCache : gmap string string)
    : gmap string string * Reply :=
  if negb (String.eqb method "GET") then
    (userIdCache, mkReply 405 [("Allow", "GET")] (ErrorBody "Method not allowed"))
  else
    match buildState cfg w nowIso file userIdCache with
    | (userIdCache, Returned payload) =>
        (userIdCache,
         mkReply 200 [("Cache-Control", "no-store, max-age=0")] (StateBody payload))
    | (userIdCache, Thrown message) =>
        (userIdCache,
         mkReply 500 [("Cache-Control", "no-store, max-age=0")] (ErrorBody message))
    end.

(** Every identifier of the cache is a resolved one. *)
Definition cache_ok (userIdCache : gmap string string) : Prop :=
  ∀ key userId, userIdCache !! key = Some userId → userId ≠ "".

End State.

(** * The environment files

    [loadEnvFileSyncCompatible] and [loadEnvFiles] of [server.mjs], on
    [process.env] as a map from names to values. *)

Module Env.

(** [content.split("\n")] *)
Fixpoint split_lines (content : string) : list string :=
  match content with
  | EmptyString => [""]
  | String c r =>
      if Ascii.eqb c "010"%char then "" :: split_lines r
      else match split_lines r with
           | line :: lines => String c line :: lines
           | [] => [String c ""]
           end
  end.

(** [s.startsWith(c)] and [s.endsWith(c)] for a character [c]. *)
Definition startsWith (c : ascii) (s : string) : bool :=
  match s with
  | String c' _ => Ascii.eqb c' c
  | EmptyString => false
  end.

Definition endsWith (c : ascii) (s : string) : bool := startsWith c (String.rev s).

(** The text before the first equals sign and the text after it:
    [indexOf("=")] with [slice(0, delimiterIndex)] and
    [slice(delimiterIndex + 1)]; [None] when there is no equals sign. *)
Fixpoint cut_at_equals (s : string) : option (string * string) :=
  match s with
  | EmptyString => None
  | String c r =>
      if Ascii.eqb c "="%char then Some ("", r)
      else match cut_at_equals r with
           | Some (before, after) => Some (String c before, after)
           | None => None
           end
  end.

(** [/\s/.test(s)] *)
Definition has_white (s : string) : bool := existsb is_white (list_ascii_of_string s).

Definition tail (s : string) : string :=
  match s with
  | String _ r => r
  | EmptyString => ""
  end.

(** [value.slice(1, -1)] *)
Definition slice_1_m1 (value : string) : string :=
  String.rev (tail (String.rev (tail value))).

(** The double quote and the single quote. *)
Definition dquote : ascii := "034"%char.
Definition squote : ascii := "039"%char.

(** The names every object answers for without holding them, those of
    [Object.prototype]: read on [process.env] they give a function or an
    object, not [undefined]. *)
Definition Object_prototype (key : string) : bool :=
  bool_decide (key ∈ ["constructor"; "__defineGetter__"; "__defineSetter__";
                      "hasOwnProperty"; "__lookupGetter__"; "__lookupSetter__";
                      "isPrototypeOf"; "propertyIsEnumerable"; "toString"; "valueOf";
                      "__proto__"; "toLocaleString"]).

(** One turn of the loop over the lines.  [process.env[key] !== undefined]
    holds of a variable that is set and of a name that [process.env]
    inherits; [inherited] tells the latter. *)
Definition load_line (inherited : string → bool) (env : gmap string string)
    (line : string) : gmap string string :=
  let trimmed := trim line in
  if negb (truthy trimmed) || startsWith "#"%char trimmed then env
  else
    match cut_at_equals trimmed with
    | None => env                          (* [delimiterIndex] is -1 *)
    | Some (before, after) =>
        if negb (truthy before) then env   (* [delimiterIndex] is 0 *)
        else
          let key := trim before in
          if negb (truthy key) || (bool_decide (is_Some (env !! key)) || inherited key) ||
             has_white key
          then env
          else
            let value :=
              if (startsWith dquote after && endsWith dquote after) ||
                 (startsWith squote after && endsWith squote after)
              then slice_1_m1 after else after in
            <[key := value]> env
    end.

Definition loadEnvFileSyncCompatible (inherited : string → bool) (content : string)
    (env : gmap string string) : gmap string string :=
  fold_left (load_line inherited) (split_lines content) env.

(** [loadEnvFiles] on the contents of [.env] and [.env.example], [None] for
    a file that cannot be read: it is passed over. *)
Definition loadEnvFiles (inherited : string → bool) (files : list (option string))
    (env : gmap string string) : gmap string string :=
  fold_left (fun env file =>
               match file with
               | Some content => loadEnvFileSyncCompatible inherited content env
               | None => env
               end) files env.

(** No character of the string is white space, an equals sign, a hash or a
    quote. *)
Definition plain_char (c : ascii) : bool :=
  negb (is_white c) && negb (Ascii.eqb c "="%char) && negb (Ascii.eqb c "#"%char) &&
  negb (Ascii.eqb c dquote) && negb (Ascii.eqb c squote).

Definition plain (s : string) : bool := forallb plain_char (list_ascii_of_string s).

End Env.

(** * Start-up *)

(** The first two steps of [start()]: the registry is loaded, then polled
    once under a schedule of the event loop. *)
Definition start (cfg : Config) (w : World) (parsed : list (option RawEntry))
    (file : list (string * string)) (startedAt : string)
    (schedule : list (nat * string)) (completedAt : string) : option Server :=
  pollAccounts cfg w startedAt schedule completedAt (mkServer (loadAccounts parsed) "" [] file).

(** * The route [GET /api/state] *)

Module Route.

(** The payload of [GET /api/state]. *)
Record StatePayload := mkStatePayload {
  tokenConfigured : bool;
  canPersistAccounts : bool;
  supportsRealtimeSse : bool;
  pollIntervalMs : Z;
  serverTime : string;
  lastPollCompletedAt_ : string;
  accounts_ : list AccountView
}.

(** The reply of the route: status 200 and the state at [serverTime]. *)
Definition api_state (cfg : Config) (serverTime : string) (srv : Server)
    : nat * StatePayload :=
  (200%nat,
   mkStatePayload (truthy (X_BEARER_TOKEN cfg)) true true (POLL_INTERVAL_MS cfg) serverTime
     (lastPollCompletedAt srv) (map serializeAccount (accounts srv))).

Definition is_state_event (e : Event) : bool :=
  match e with Ev_state _ _ _ _ => true | _ => false end.

(** The last [state] event that was broadcast. *)
Definition last_state (log : list Event) : option Event :=
  last (List.filter is_state_event log).

(** An event carries the interval, the time of the last cycle and the
    accounts of a payload. *)
Definition agrees (e : Event) (p : StatePayload) : Prop :=
  match e with
  | Ev_state _ interval completed views =>
      interval = pollIntervalMs p ∧ completed = lastPollCompletedAt_ p ∧ views = accounts_ p
  | _ => False
  end.

(** The route answers what the last [state] event carried. *)
Definition in_step (cfg : Config) (srv : Server) : Prop :=
  ∃ e, last_state (log srv) = Some e ∧ ∀ t, agrees e (snd (api_state cfg t srv)).

End Route.

(** * Properties *)

(** ** The refresh, step by step *)

Lemma refreshOneAccount_cases cfg w now t a :
  refreshOneAccount cfg w now t a =
  match attempt cfg w (prepared now a) with
  | (a', Returned tweets) =>
      (set_content tweets a',
       if should_notify (initialized a) (latestTweetId a) (head tweets)
       then [Ev_new_post (serializeAccount (set_content tweets a')) t] else [])
  | (a', Thrown message) => (set_error message a', [])
  end.
Proof.
  unfold refreshOneAccount, attempt, prepared.
  destruct (truthy (X_BEARER_TOKEN cfg)); simpl; [|done].
  unfold Block.try_catch, refresh_resolve, refresh_fetch, resolveUserId.
  unfold mbind, mret, Block_bind, Block_ret, Block.bind, Block.get, Block.lift,
    Block.throw, Block.modify, Block.ret, broadcastEvent, on_account; simpl.
  destruct (truthy (userId a)); simpl.
  - destruct (fetchRecentTweets _ _ _) as [tweets|m]; simpl; [|done].
    destruct (should_notify _ _ _); done.
  - destruct (xApiRequest _ _ _) as [d|m]; simpl; [|done].
    destruct (truthy (data_id d)); simpl; [|done].
    destruct (fetchRecentTweets _ _ _) as [tweets|m]; simpl; [|done].
    destruct (should_notify _ _ _); done.
Qed.

Lemma map_serializeTweet_username w a b m l :
  username a = username b →
  map_serializeTweet w a m l = map_serializeTweet w b m l.
Proof.
  intros Hu. induction l as [|[tw|] l IH]; simpl; [done| |done].
  rewrite IH. unfold serializeTweet, toTweetUrl. by rewrite Hu.
Qed.

Lemma fetchRecentTweets_ext cfg w a b :
  username a = username b → userId a = userId b →
  fetchRecentTweets cfg w a = fetchRecentTweets cfg w b.
Proof.
  intros Hu Hi. unfold fetchRecentTweets. rewrite Hi.
  destruct (xApiRequest _ _ _) as [d|]; [|done].
  destruct (data_list d) as [[|x l]|]; try done.
  by apply map_serializeTweet_username.
Qed.

(** Clearing [error] and stamping [lastCheckedAt] has no bearing on the
    attempt. *)
Lemma attempt_prepared cfg w now a :
  attempt cfg w (prepared now a) =
  (prepared now (fst (attempt cfg w a)), snd (attempt cfg w a)).
Proof.
  unfold attempt. destruct (truthy (X_BEARER_TOKEN cfg)); simpl; [|done].
  destruct (truthy (userId a)); simpl.
  - f_equal. by apply fetchRecentTweets_ext.
  - destruct (xApiRequest _ _ _) as [d|]; simpl; [|done].
    destruct (truthy (data_id d)); simpl; [|done].
    f_equal. by apply fetchRecentTweets_ext.
Qed.

Lemma refreshOneAccount_attempt cfg w now t a :
  refreshOneAccount cfg w now t a =
  match attempt cfg w a with
  | (a', Returned tweets) =>
      (set_content tweets (prepared now a'),
       if should_notify (initialized a) (latestTweetId a) (head tweets)
       then [Ev_new_post (serializeAccount (set_content tweets (prepared now a'))) t]
       else [])
  | (a', Thrown message) => (set_error message (prepared now a'), [])
  end.
Proof.
  rewrite refreshOneAccount_cases, attempt_prepared.
  by destruct (attempt cfg w a) as [a' [tweets|m]].
Qed.

(** The resolution changes [userId] and nothing else. *)
Lemma attempt_account cfg w a :
  fst (attempt cfg w a) = a ∨
  (userId a = "" ∧ ∃ id, id ≠ "" ∧ fst (attempt cfg w a) = set_userId id a).
Proof.
  unfold attempt. destruct (truthy (X_BEARER_TOKEN cfg)); simpl; [|by left].
  destruct (truthy (userId a)) eqn:Hid; simpl; [by left|].
  destruct (xApiRequest _ _ _) as [d|]; simpl; [|by left].
  destruct (truthy (data_id d)) eqn:Hd; simpl; [|by left].
  right. split; [by destruct (userId a)|].
  exists (data_id d). split; [by destruct (data_id d)|done].
Qed.

Lemma truthy_true s : truthy s = true ↔ s ≠ "".
Proof. by destruct s. Qed.

Lemma should_notify_true was prev newest :
  should_notify was prev newest = true ↔
  was = true ∧ prev ≠ "" ∧ ∃ n, newest = Some n ∧ prev ≠ id n.
Proof.
  unfold should_notify. rewrite !andb_true_iff, truthy_true.
  destruct newest as [n|]; simpl.
  - rewrite negb_true_iff, String.eqb_neq. naive_solver.
  - naive_solver.
Qed.

(** ** The [initialized] flag *)

(** C2, as stated, fails: the first refresh of an account leaves
    [initialized] false when the credential is missing, when the identity
    resolution fails and when the timeline request fails. *)
Lemma first_refresh_failed_not_initialized :
  initialized (fst (refreshOneAccount cfg_no_token w_offline "t0" "t1" account_foo)) = false ∧
  initialized (fst (refreshOneAccount cfg_token w_not_found "t0" "t1" account_foo)) = false ∧
  initialized (fst (refreshOneAccount cfg_token w_lookup_only "t0" "t1" account_foo)) = false ∧
  ¬ (∀ cfg w now t name username key,
       initialized (fst (refreshOneAccount cfg w now t (newAccount name username key))) = true).
Proof.
  split; [vm_compute; reflexivity|].
  split; [vm_compute; reflexivity|].
  split; [vm_compute; reflexivity|].
  intros H. specialize (H cfg_no_token w_offline "t0" "t1" "A" "foo" "foo").
  vm_compute in H. discriminate.
Qed.

(** C2, amended.  After a refresh, [initialized] is true when the refresh
    succeeded (the credential is configured, the identity is resolved and the
    timeline request and the normalization went through) and is what it was
    before when the refresh failed.  So after the first refresh of an account
    [initialized] tells whether that refresh succeeded. *)
Theorem initialized_after_refresh cfg w now t a :
  initialized (fst (refreshOneAccount cfg w now t a)) = succeeded cfg w a || initialized a ∧
  (∀ name username key,
     initialized (fst (refreshOneAccount cfg w now t (newAccount name username key)))
     = succeeded cfg w (newAccount name username key)).
Proof.
  assert (H : ∀ a, initialized (fst (refreshOneAccount cfg w now t a))
                   = succeeded cfg w a || initialized a).
  { clear a. intros a. unfold succeeded. rewrite refreshOneAccount_attempt.
    destruct (attempt_account cfg w a) as [Ha | (_ & i & _ & Ha)];
      destruct (attempt cfg w a) as [a' [tweets|m]]; simpl in *; by subst. }
  split; [apply H|]. intros n u k. rewrite H. simpl. by rewrite orb_false_r.
Qed.

(** ** Failed refreshes *)

Lemma xApiRequest_thrown cfg w endpoint m :
  runtime_messages_nonempty w →
  xApiRequest cfg w endpoint = Thrown m → m ≠ "".
Proof.
  intros [_ Hrej]. unfold xApiRequest.
  destruct (fetch w _) as [m'|r] eqn:Hf.
  - intros [= <-]. eauto.
  - destruct (ok r); simpl; [done|]. by intros [= <-].
Qed.

Lemma map_serializeTweet_thrown w a mk l m :
  map_serializeTweet w a mk l = Thrown m → m = typeError_message w.
Proof.
  induction l as [|[tw|] l IH]; simpl; [done| |congruence].
  destruct (map_serializeTweet w a mk l); [done|]. intros [= <-]. by apply IH.
Qed.

Lemma fetchRecentTweets_thrown cfg w a m :
  runtime_messages_nonempty w →
  fetchRecentTweets cfg w a = Thrown m → m ≠ "".
Proof.
  intros Hw. unfold fetchRecentTweets.
  destruct (xApiRequest _ _ _) as [d|m'] eqn:Hx.
  - destruct (data_list d) as [[|x l]|]; try done.
    intros ->%map_serializeTweet_thrown. apply Hw.
  - intros [= <-]. by eapply xApiRequest_thrown.
Qed.

Lemma attempt_thrown cfg w a m :
  runtime_messages_nonempty w →
  snd (attempt cfg w a) = Thrown m → m ≠ "".
Proof.
  intros Hw. unfold attempt.
  destruct (truthy (X_BEARER_TOKEN cfg)); simpl; [|by intros [= <-]].
  destruct (truthy (userId a)); simpl; [by apply fetchRecentTweets_thrown|].
  destruct (xApiRequest _ _ _) as [d|m'] eqn:Hx; simpl.
  - destruct (truthy (data_id d)); simpl; [by apply fetchRecentTweets_thrown|].
    by intros [= <-].
  - intros [= <-]. by eapply xApiRequest_thrown.
Qed.

(** C3, as stated, fails: when the identity resolution succeeds and the
    timeline request then fails, the refresh has failed and [userId] has
    changed along with [error] and [lastCheckedAt]. *)
Lemma failed_refresh_changes_userId :
  let a' := fst (refreshOneAccount cfg_token w_lookup_only "t0" "t1" account_foo) in
  succeeded cfg_token w_lookup_only account_foo = false ∧
  error a' = "X API error (429): Too Many Requests" ∧
  userId account_foo = "" ∧ userId a' = "42" ∧
  ¬ only_error_and_lastCheckedAt_differ account_foo a'.
Proof.
  cbv zeta. split; [vm_compute; reflexivity|].
  split; [vm_compute; reflexivity|].
  split; [reflexivity|].
  split; [vm_compute; reflexivity|].
  intros (_ & _ & _ & H & _). vm_compute in H. discriminate.
Qed.

(** C3, amended.  When a refresh fails at any step (missing credential,
    identity resolution, timeline request, normalization), the message of the
    failure is stored in [error], and it is not empty as long as the errors of
    the runtime have a message; the content fields are what they were before,
    and so are [name], [username], [usernameKey] and [initialized];
    [lastCheckedAt] is the time of the attempt; nothing is broadcast.  Besides
    [error] and [lastCheckedAt] only [userId] can change: it goes from empty
    to the resolved identifier when the resolution succeeded before a later
    step failed. *)
Theorem failed_refresh_frame cfg w now t a message :
  runtime_messages_nonempty w →
  snd (attempt cfg w a) = Thrown message →
  let r := refreshOneAccount cfg w now t a in
  error (fst r) = message ∧ error (fst r) ≠ "" ∧
  same_content a (fst r) ∧
  name (fst r) = name a ∧ username (fst r) = username a ∧
  usernameKey (fst r) = usernameKey a ∧ initialized (fst r) = initialized a ∧
  lastCheckedAt (fst r) = now ∧
  (userId (fst r) = userId a ∨ userId a = "" ∧ userId (fst r) ≠ "") ∧
  snd r = [].
Proof.
  intros Hw Hfail. cbv zeta.
  pose proof (attempt_thrown _ _ _ _ Hw Hfail) as Hne.
  rewrite refreshOneAccount_attempt.
  destruct (attempt_account cfg w a) as [Ha | (Hid & i & Hi & Ha)];
    destruct (attempt cfg w a) as [a' [tweets|m]]; simpl in *; try done;
    injection Hfail as ->; subst a'; unfold same_content; simpl.
  - repeat split; try done. by left.
  - repeat split; try done. right. by split.
Qed.

(** The lookup of [foo] succeeds and its timeline is refused. *)
Lemma failed_refresh_frame_witness :
  runtime_messages_nonempty w_lookup_only ∧
  snd (attempt cfg_token w_lookup_only account_foo)
    = Thrown "X API error (429): Too Many Requests" ∧
  error (fst (refreshOneAccount cfg_token w_lookup_only "t0" "t1" account_foo)) ≠ "" ∧
  same_content account_foo
    (fst (refreshOneAccount cfg_token w_lookup_only "t0" "t1" account_foo)).
Proof.
  assert (Hw : runtime_messages_nonempty w_lookup_only).
  { split; [done|]. intros e m. simpl. by destruct (String.eqb _ _). }
  assert (Hf : snd (attempt cfg_token w_lookup_only account_foo)
               = Thrown "X API error (429): Too Many Requests")
    by (vm_compute; reflexivity).
  split; [exact Hw|]. split; [exact Hf|].
  pose proof (failed_refresh_frame cfg_token w_lookup_only "t0" "t1" account_foo _ Hw Hf)
    as (_ & Hne & Hc & _).
  split; [exact Hne | exact Hc].
Defined.

(** ** The list of recent posts *)

Lemma or_else_empty s : s ||s "" = s.
Proof. by destruct s. Qed.

Lemma map_serializeTweet_returned w a mk l tweets :
  map_serializeTweet w a mk l = Returned tweets →
  length tweets = length l ∧ map createdAt tweets = timestamps l ∧
  map id tweets = omap (fmap t_id) l.
Proof.
  revert tweets. induction l as [|[tw|] l IH]; simpl; intros tweets.
  - by intros [= <-].
  - destruct (map_serializeTweet w a mk l) as [tweets'|]; [|done].
    intros [= <-]. destruct (IH _ eq_refl) as (Hl & Hc & Hi). simpl.
    rewrite or_else_empty. unfold timestamps in *. simpl. by rewrite Hl, Hc, Hi.
  - done.
Qed.

Lemma xApiRequest_returned cfg w endpoint d :
  xApiRequest cfg w endpoint = Returned d →
  ∃ r, fetch w (X_API_BASE_URL cfg ++ endpoint) = Responded r ∧ ok r = true ∧ json r = d.
Proof.
  unfold xApiRequest. destruct (fetch w _) as [|r]; [done|].
  destruct (ok r) eqn:Hok; simpl; [|done]. intros [= <-]. eauto.
Qed.

Lemma fetchRecentTweets_answer cfg w a tweets :
  fetchRecentTweets cfg w a = Returned tweets →
  ∃ r, fetch w (X_API_BASE_URL cfg ++ timeline_endpoint (userId a)) = Responded r ∧
       ok r = true ∧
       map_serializeTweet w a (build_mediaByKey (default [] (json r ≫= includes_media)))
         (default [] (data_list (json r))) = Returned tweets.
Proof.
  unfold fetchRecentTweets.
  destruct (xApiRequest _ _ _) as [d|] eqn:Hx; [|done].
  apply xApiRequest_returned in Hx as (r & Hf & Hok & <-). intros Hmap.
  exists r. split; [done|]. split; [done|].
  by destruct (data_list (json r)) as [[|x l]|].
Qed.

(** A successful attempt ends with the timeline request of the account it
    returns. *)
Lemma attempt_succeeded cfg w a tweets :
  snd (attempt cfg w a) = Returned tweets →
  fetchRecentTweets cfg w (fst (attempt cfg w a)) = Returned tweets.
Proof.
  unfold attempt. destruct (truthy (X_BEARER_TOKEN cfg)); simpl; [|done].
  destruct (truthy (userId a)); simpl; [done|].
  destruct (xApiRequest _ _ _) as [d|]; simpl; [|done].
  by destruct (truthy (data_id d)).
Qed.

Lemma refreshOneAccount_of_attempt cfg w now t a :
  userId (fst (refreshOneAccount cfg w now t a)) = userId (fst (attempt cfg w a)) ∧
  username (fst (refreshOneAccount cfg w now t a)) = username (fst (attempt cfg w a)).
Proof.
  rewrite refreshOneAccount_attempt. by destruct (attempt cfg w a) as [a' [tweets|m]].
Qed.

(** The attempt reads [username] and [userId] and nothing else of the
    account. *)
Lemma attempt_ext cfg w a b :
  username a = username b → userId a = userId b →
  snd (attempt cfg w a) = snd (attempt cfg w b).
Proof.
  intros Hu Hi. unfold attempt.
  destruct (truthy (X_BEARER_TOKEN cfg)); simpl; [|done].
  rewrite Hi, Hu. destruct (truthy (userId b)); simpl.
  - by apply fetchRecentTweets_ext.
  - destruct (xApiRequest _ _ _) as [d|]; simpl; [|done].
    destruct (truthy (data_id d)); simpl; [|done].
    by apply fetchRecentTweets_ext.
Qed.

Lemma recentTweets_after_refresh cfg w now t a :
  recentTweets (fst (refreshOneAccount cfg w now t a)) =
  match snd (attempt cfg w a) with
  | Returned tweets => tweets
  | Thrown _ => recentTweets a
  end.
Proof.
  rewrite refreshOneAccount_attempt.
  destruct (attempt_account cfg w a) as [Ha | (_ & i & _ & Ha)];
    destruct (attempt cfg w a) as [a' [tweets|m]]; simpl in *; by subst.
Qed.

(** C9.  After a refresh that succeeded, [recentTweets] is the answer of the
    provider to the timeline request, which asks for [max_results=5] without
    retweets and replies, normalized post by post: it has the length and the
    order of the answer, and the code neither cuts nor sorts it, so that it
    holds at most five posts, newest first, exactly when the answer does.
    The list is replaced wholesale: the new list is the same whatever the
    list and the other content fields were before.  A failed refresh leaves
    the list as it was, and an account starts with the empty list. *)
Theorem recentTweets_invariant cfg w now t a :
  let a' := fst (refreshOneAccount cfg w now t a) in
  (succeeded cfg w a = true →
   ∃ r, fetch w (X_API_BASE_URL cfg ++ "/users/" ++ userId a' ++
                 "/tweets?max_results=5&exclude=retweets,replies&tweet.fields=created_at,attachments,entities&expansions=attachments.media_keys&media.fields=media_key,type,url,preview_image_url,variants")%string
        = Responded r ∧ ok r = true ∧
        let answer := default [] (data_list (json r)) in
        map_serializeTweet w a' (build_mediaByKey (default [] (json r ≫= includes_media)))
          answer = Returned (recentTweets a') ∧
        length (recentTweets a') = length answer ∧
        map id (recentTweets a') = omap (fmap t_id) answer ∧
        map createdAt (recentTweets a') = timestamps answer ∧
        (recent_ok a' ↔ (length answer ≤ 5)%nat ∧ newest_first (timestamps answer))) ∧
  (∀ b, username b = username a → userId b = userId a → succeeded cfg w a = true →
        recentTweets (fst (refreshOneAccount cfg w now t b)) = recentTweets a') ∧
  (succeeded cfg w a = false → recentTweets a' = recentTweets a) ∧
  (∀ name username key, recent_ok (newAccount name username key)).
Proof.
  cbv zeta. unfold succeeded. split; [|split; [|split]].
  - destruct (snd (attempt cfg w a)) as [tweets|] eqn:Hat; [intros _|done].
    pose proof (attempt_succeeded cfg w a tweets Hat) as Hf.
    apply fetchRecentTweets_answer in Hf as (r & Hfetch & Hok & Hmap).
    destruct (refreshOneAccount_of_attempt cfg w now t a) as [Hid Hu].
    assert (Hrecent : recentTweets (fst (refreshOneAccount cfg w now t a)) = tweets)
      by (by rewrite recentTweets_after_refresh, Hat).
    exists r. rewrite Hid, Hrecent. split; [exact Hfetch|]. split; [done|].
    rewrite (map_serializeTweet_username w _ (fst (attempt cfg w a)) _ _ Hu).
    split; [done|].
    apply map_serializeTweet_returned in Hmap as (Hl & Hc & Hi).
    split; [done|]. split; [done|]. split; [done|].
    unfold recent_ok. by rewrite Hrecent, Hl, Hc.
  - intros b Hu Hi Hs. rewrite !recentTweets_after_refresh.
    rewrite (attempt_ext cfg w b a Hu Hi).
    by destruct (snd (attempt cfg w a)).
  - intros Hs. rewrite recentTweets_after_refresh.
    by destruct (snd (attempt cfg w a)).
  - intros n u k. simpl. split; [simpl; lia | constructor].
Qed.

(** The first refresh of [foo] with a timeline of two posts. *)
Lemma recentTweets_invariant_witness :
  succeeded cfg_token w_two_posts account_foo = true ∧
  recent_ok (fst (refreshOneAccount cfg_token w_two_posts "t0" "t1" account_foo)) ∧
  map id (recentTweets (fst (refreshOneAccount cfg_token w_two_posts "t0" "t1" account_foo)))
  = ["101"; "100"].
Proof.
  split; [reflexivity|]. split; [|vm_compute; reflexivity].
  pose proof (recentTweets_invariant cfg_token w_two_posts "t0" "t1" account_foo) as H.
  cbv zeta in H. destruct H as (H & _).
  destruct (H eq_refl) as (r & Hfetch & _ & _ & _ & _ & _ & Hiff).
  vm_compute in Hfetch. injection Hfetch as <-.
  apply Hiff. split; [simpl; lia|]. unfold timestamps; simpl. repeat constructor.
Defined.

(** The provider answers with six posts, and with two posts the older one
    first: the list is kept as it is answered, six posts long in the first
    case and older post first in the second. *)
Lemma six_posts_kept :
  succeeded cfg_token w_six_posts account_foo_known = true ∧
  length (recentTweets
            (fst (refreshOneAccount cfg_token w_six_posts "t0" "t1" account_foo_known)))
  = 6%nat ∧
  ¬ recent_ok (fst (refreshOneAccount cfg_token w_six_posts "t0" "t1" account_foo_known)) ∧
  succeeded cfg_token w_oldest_first account_foo_known = true ∧
  map id (recentTweets
            (fst (refreshOneAccount cfg_token w_oldest_first "t0" "t1" account_foo_known)))
  = ["100"; "101"] ∧
  ¬ recent_ok (fst (refreshOneAccount cfg_token w_oldest_first "t0" "t1" account_foo_known)).
Proof.
  split; [reflexivity|]. split; [reflexivity|]. split.
  { intros [Hlen _]. vm_compute in Hlen. lia. }
  split; [reflexivity|]. split; [reflexivity|].
  intros [_ Hsorted]. unfold newest_first in Hsorted.
  change (map createdAt _) with ["2024-05-01T10:00:00.000Z"; "2024-05-02T10:00:00.000Z"]
    in Hsorted.
  inversion Hsorted as [|x l _ Hall]; subst. inversion Hall as [|y l' Hle _]; subst.
  vm_compute in Hle. done.
Qed.

(** ** Tasks *)

Ltac unfold_block :=
  unfold refresh_resolve, refresh_fetch, resolveUserId, broadcastEvent, on_account,
    mbind, mret, Block_bind, Block_ret, Block.bind, Block.get, Block.lift,
    Block.throw, Block.modify, Block.ret, Block.try_catch in *.

Lemma refresh_resolve_sent cfg w a sent :
  snd (fst (refresh_resolve cfg w (a, sent))) = sent.
Proof.
  unfold_block; simpl. destruct (truthy (userId a)); simpl; [done|].
  destruct (xApiRequest _ _ _) as [d|]; simpl; [|done].
  by destruct (truthy (data_id d)).
Qed.

(** The clock reading of a resumption shows in the events only. *)
Lemma resume_time cfg w t t' task :
  fst (resume cfg w t task) = fst (resume cfg w t' task) ∧
  omap post_view (snd (resume cfg w t task)) = omap post_view (snd (resume cfg w t' task)) ∧
  Forall is_post (snd (resume cfg w t task)).
Proof.
  destruct task as [a [| |]]; simpl.
  - destruct (refresh_resolve cfg w (a, [])) as [[a' sent] [u|m]] eqn:Hr;
      pose proof (refresh_resolve_sent cfg w a []) as Hs; rewrite Hr in Hs;
      simpl in Hs; subst sent; simpl; by repeat split.
  - unfold_block; simpl.
    destruct (fetchRecentTweets cfg w a) as [tweets|m]; simpl; [|by repeat split].
    destruct (should_notify _ _ _); simpl; [|by repeat split].
    repeat split; try done. constructor; [|done]. by eexists _, _.
  - by repeat split.
Qed.

Lemma resume_rank cfg w t task :
  (rank (fst (resume cfg w t task)) ≤ rank task - 1)%nat.
Proof.
  destruct task as [a [| |]]; simpl; unfold rank.
  - by destruct (refresh_resolve cfg w (a, [])) as [[a' sent] [u|m]]; simpl; lia.
  - by destruct (refresh_fetch cfg w t (a, [])) as [[a' sent] [u|m]]; simpl; lia.
  - simpl. lia.
Qed.

Lemma resume_settled cfg w t task :
  is_settled task = true → resume cfg w t task = (task, []).
Proof. by destruct task as [a [| |]]. Qed.


(** Resuming a task leaves its end unchanged, the events broadcast by the
    resumption being taken off the announcements to come. *)
Lemma finish_resume cfg w t task :
  fst (finish cfg w (fst (resume cfg w t task))) = fst (finish cfg w task) ∧
  omap post_view (snd (resume cfg w t task)) ++ snd (finish cfg w (fst (resume cfg w t task)))
  = snd (finish cfg w task).
Proof.
  destruct task as [a [| |]].
  - unfold finish. simpl.
    destruct (refresh_resolve cfg w (a, [])) as [[a' sent] [u|m]] eqn:Hr;
      pose proof (refresh_resolve_sent cfg w a []) as Hs; rewrite Hr in Hs;
      simpl in Hs; subst sent; simpl.
    + destruct (refresh_fetch cfg w "" (a', [])) as [[a'' sent] [u'|m]]; simpl;
        rewrite ?app_nil_r; done.
    + done.
  - destruct (resume_time cfg w t "" (a, Fetching)) as (Hf & Hv & _).
    unfold finish. rewrite Hv, Hf.
    destruct (resume cfg w "" (a, Fetching)) as [task1 ev1] eqn:H1. simpl.
    assert (Hs : is_settled task1 = true).
    { revert H1. simpl.
      by destruct (refresh_fetch cfg w "" (a, [])) as [[a' sent] [u|m]]; intros [= <- _]. }
    rewrite !(resume_settled _ _ _ _ Hs). simpl. by rewrite !app_nil_r.
  - done.
Qed.

Lemma finish_settled cfg w task :
  is_settled task = true → finish cfg w task = (fst task, []).
Proof. by destruct task as [a [| |]]. Qed.

(** A task run to its end is the refresh. *)
Lemma finish_spawn cfg w now a :
  finish cfg w (spawn cfg now a) = (refreshed cfg w now a, notified cfg w now a).
Proof.
  unfold finish, refreshed, notified, refreshOneAccount, spawn.
  destruct (truthy (X_BEARER_TOKEN cfg)); simpl; [|done].
  set (a0 := set_lastCheckedAt now (set_error "" a)).
  assert (Hid : userId a0 = userId a) by done.
  assert (Hin : initialized a0 = initialized a) by done.
  assert (Hl : latestTweetId a0 = latestTweetId a) by done.
  rewrite <- Hid. clearbody a0.
  destruct (truthy (userId a0)) eqn:Hu; unfold resume; unfold_block; simpl; rewrite ?Hu; simpl.
  - destruct (fetchRecentTweets cfg w a0) as [tweets|m]; simpl; [|done].
    destruct (should_notify _ _ _); simpl; done.
  - destruct (xApiRequest _ _ _) as [d|m]; simpl; [|done].
    destruct (truthy (data_id d)); simpl; [|done].
    destruct (fetchRecentTweets _ _ _) as [tweets|m]; simpl; [|done].
    destruct (should_notify _ _ _); simpl; done.
Qed.

(** ** The event loop *)

Section EventLoop.
Variables (cfg : Config) (w : World).

#[local] Abbreviation ends := (ends_of cfg w).
#[local] Abbreviation to_come := (to_come_of cfg w).

Lemma run_turn_spec tasks sent turn :
  ∃ events,
    snd (run_turn cfg w (tasks, sent) turn) = sent ++ events ∧
    Forall is_post events ∧
    length (fst (run_turn cfg w (tasks, sent) turn)) = length tasks ∧
    ends (fst (run_turn cfg w (tasks, sent) turn)) = ends tasks ∧
    omap post_view events ++ to_come (fst (run_turn cfg w (tasks, sent) turn))
      ≡ₚ to_come tasks ∧
    (∀ j, rank_at (fst (run_turn cfg w (tasks, sent) turn)) j
          ≤ rank_at tasks j - (if decide (fst turn = j) then 1 else 0))%nat ∧
    (∀ j, fst turn ≠ j → fst (run_turn cfg w (tasks, sent) turn) !! j = tasks !! j).
Proof.
  destruct turn as [i t]. unfold run_turn. simpl.
  destruct (tasks !! i) as [task|] eqn:Hi.
  - destruct (resume cfg w t task) as [task' events] eqn:Hr. simpl.
    exists events.
    pose proof (resume_time cfg w t t task) as (_ & _ & Hposts).
    pose proof (finish_resume cfg w t task) as [Hend Hcome].
    pose proof (resume_rank cfg w t task) as Hrank.
    rewrite Hr in Hposts, Hend, Hcome, Hrank. cbn [fst snd] in *.
    assert (Hlt : (i < length tasks)%nat) by (by eapply lookup_lt_Some).
    assert (Htasks : tasks = take i tasks ++ task :: drop (S i) tasks)
      by (by rewrite take_drop_middle).
    assert (Hins : <[i:=task']> tasks = take i tasks ++ task' :: drop (S i) tasks)
      by (by apply insert_take_drop).
    split; [done|]. split; [done|]. split; [by rewrite length_insert|].
    split; [|split; [|split]].
    + unfold ends_of. rewrite Hins. rewrite Htasks at 3.
      rewrite !map_app. simpl. by rewrite Hend.
    + unfold to_come_of. rewrite Hins. rewrite Htasks at 3.
      rewrite !flat_map_app. simpl. rewrite <- Hcome.
      rewrite Permutation_app_swap_app. by rewrite <- !app_assoc.
    + intros j. unfold rank_at. case_decide as Hj.
      * subst j. rewrite list_lookup_insert_eq by done. rewrite Hi.
        cbn [from_option]. lia.
      * rewrite list_lookup_insert_ne by done. lia.
    + intros j Hj. by rewrite list_lookup_insert_ne.
  - exists []. simpl. rewrite app_nil_r.
    repeat split; try done. intros j.
    case_decide as Hj; [|lia]. subst j. unfold rank_at. rewrite Hi. simpl. lia.
Qed.

Lemma run_schedule_spec schedule tasks sent :
  ∃ events,
    snd (fold_left (run_turn cfg w) schedule (tasks, sent)) = sent ++ events ∧
    Forall is_post events ∧
    length (fst (fold_left (run_turn cfg w) schedule (tasks, sent))) = length tasks ∧
    ends (fst (fold_left (run_turn cfg w) schedule (tasks, sent))) = ends tasks ∧
    omap post_view events ++ to_come (fst (fold_left (run_turn cfg w) schedule (tasks, sent)))
      ≡ₚ to_come tasks ∧
    (∀ j, rank_at (fst (fold_left (run_turn cfg w) schedule (tasks, sent))) j
          ≤ rank_at tasks j - resumptions j schedule)%nat ∧
    (∀ j, resumptions j schedule = 0%nat →
          fst (fold_left (run_turn cfg w) schedule (tasks, sent)) !! j = tasks !! j).
Proof.
  revert tasks sent. induction schedule as [|turn schedule IH]; intros tasks sent.
  - exists []. simpl. rewrite app_nil_r. repeat split; try done.
    intros j. unfold resumptions. simpl. lia.
  - cbn [fold_left].
    destruct (run_turn_spec tasks sent turn) as (ev1 & Hs1 & Hp1 & Hl1 & He1 & Hc1 & Hr1 & Hk1).
    destruct (run_turn cfg w (tasks, sent) turn) as [tasks1 sent1].
    cbn [fst snd] in *. subst sent1.
    destruct (IH tasks1 (sent ++ ev1)) as (ev2 & Hs2 & Hp2 & Hl2 & He2 & Hc2 & Hr2 & Hk2).
    exists (ev1 ++ ev2).
    split; [by rewrite Hs2, app_assoc|]. split; [by apply Forall_app|].
    split; [congruence|]. split; [congruence|]. split; [|split].
    + rewrite omap_app, <- app_assoc, Hc2. done.
    + intros j. specialize (Hr1 j). specialize (Hr2 j).
      unfold resumptions in *. simpl. rewrite filter_cons.
      case_decide; simpl; lia.
    + intros j. unfold resumptions in *. rewrite filter_cons.
      case_decide as Hj; simpl; [done|]. intros H0. rewrite Hk2 by done. by apply Hk1.
Qed.


Lemma ends_settled tasks :
  forallb is_settled tasks = true → ends tasks = map fst tasks ∧ to_come tasks = [].
Proof.
  unfold ends_of, to_come_of. induction tasks as [|task tasks IH]; simpl; [done|].
  intros [Hs Hr]%andb_true_iff. destruct (IH Hr) as [-> ->].
  by rewrite (finish_settled _ _ _ Hs).
Qed.

Lemma ends_spawn now l :
  ends (map (spawn cfg now) l) = map (refreshed cfg w now) l ∧
  to_come (map (spawn cfg now) l) = flat_map (notified cfg w now) l.
Proof.
  unfold ends_of, to_come_of. induction l as [|a l [IH1 IH2]]; simpl; [done|].
  by rewrite IH1, IH2, finish_spawn.
Qed.

End EventLoop.

(** ** The poll cycle *)


(** A completed cycle: the registry, the recorded time and what was
    broadcast. *)
Lemma pollAccounts_completed cfg w startedAt completedAt srv schedule srv' :
  pollAccounts cfg w startedAt schedule completedAt srv = Some srv' →
  accounts srv' = map (refreshed cfg w startedAt) (accounts srv) ∧
  lastPollCompletedAt srv' = completedAt ∧
  ACCOUNTS_FILE srv' = ACCOUNTS_FILE srv ∧
  ∃ posts,
    log srv' = log srv ++ posts ++
               [Ev_state completedAt (POLL_INTERVAL_MS cfg) completedAt
                         (map serializeAccount (accounts srv'))] ∧
    Forall is_post posts ∧
    omap post_view posts ≡ₚ flat_map (notified cfg w startedAt) (accounts srv).
Proof.
  unfold pollAccounts.
  destruct (run_schedule_spec cfg w schedule (map (spawn cfg startedAt) (accounts srv))
              (log srv)) as (events & Hsent & Hposts & Hlen & Hends & Hcome & _ & _).
  destruct (fold_left _ _ _) as [tasks sent]. cbn [fst snd] in *.
  destruct (forallb is_settled tasks) eqn:Hall; [|done].
  intros [= <-]. cbn [accounts lastPollCompletedAt log ACCOUNTS_FILE].
  destruct (ends_settled cfg w tasks Hall) as [He Hc].
  destruct (ends_spawn cfg w startedAt (accounts srv)) as [He0 Hc0].
  rewrite He, He0 in Hends. rewrite Hc, Hc0, app_nil_r in Hcome.
  split; [done|]. split; [done|]. split; [done|].
  exists events. subst sent. by rewrite <- app_assoc.
Qed.

(** A refresh announces one account at most. *)
Lemma notified_length cfg w now a : (length (notified cfg w now a) ≤ 1)%nat.
Proof.
  unfold notified. rewrite refreshOneAccount_attempt.
  destruct (attempt cfg w a) as [a' [tweets|m]]; simpl; [|lia].
  destruct (should_notify _ _ _); simpl; lia.
Qed.

(** C1. After a refresh, a [new_post] event has been broadcast exactly when
    the refresh replaced [recentTweets], the account was [initialized] before
    it, its previous [latestTweetId] was not empty, the new list has a newest
    post, and the identifier of that post differs from the previous one; the
    event carries the serialized account as it is after the refresh.
    Otherwise nothing is broadcast.  So a refresh broadcasts at most one
    event, and none for an account that was not initialized, which is the case
    of an account on its first refresh.  In a cycle, which refreshes every
    account of the registry once, the [new_post] events broadcast are, up to
    their order, those of the refreshes: one per account at most. *)
Theorem new_post_iff cfg w now t a :
  let r := refreshOneAccount cfg w now t a in
  (snd r = [Ev_new_post (serializeAccount (fst r)) t] ∨ snd r = []) ∧
  (snd r ≠ [] ↔
     succeeded cfg w a = true ∧ initialized a = true ∧ latestTweetId a ≠ "" ∧
     ∃ newest, head (recentTweets (fst r)) = Some newest ∧
               latestTweetId a ≠ id newest) ∧
  (length (snd r) ≤ 1)%nat ∧
  (initialized a = false → snd r = []) ∧
  (∀ name username key,
     snd (refreshOneAccount cfg w now t (newAccount name username key)) = []) ∧
  (∀ srv schedule completedAt srv',
     pollAccounts cfg w now schedule completedAt srv = Some srv' →
     ∃ posts,
       log srv' = log srv ++ posts ++
                  [Ev_state completedAt (POLL_INTERVAL_MS cfg) completedAt
                            (map serializeAccount (accounts srv'))] ∧
       Forall is_post posts ∧
       omap post_view posts ≡ₚ flat_map (notified cfg w now) (accounts srv) ∧
       Forall (fun a => (length (notified cfg w now a) ≤ 1)%nat) (accounts srv)).
Proof.
  assert (Hmain : ∀ a, let r := refreshOneAccount cfg w now t a in
    (snd r = [Ev_new_post (serializeAccount (fst r)) t] ∨ snd r = []) ∧
    (snd r ≠ [] ↔
       succeeded cfg w a = true ∧ initialized a = true ∧ latestTweetId a ≠ "" ∧
       ∃ newest, head (recentTweets (fst r)) = Some newest ∧
                 latestTweetId a ≠ id newest)).
  { clear a. intros a. cbv zeta. unfold succeeded. rewrite refreshOneAccount_attempt.
    destruct (attempt cfg w a) as [a' [tweets|m]]; simpl.
    - destruct (should_notify _ _ _) eqn:Hn; simpl.
      + apply should_notify_true in Hn. split; [by left|]. split; [naive_solver|done].
      + split; [by right|]. split; [done|].
        intros (_ & Hi & Hp & n & Hh & Hne).
        assert (should_notify (initialized a) (latestTweetId a) (head tweets) = true)
          by (apply should_notify_true; eauto).
        congruence.
    - split; [by right|]. split; [done|]. by intros [? _]. }
  cbv zeta. destruct (Hmain a) as [Hshape Hiff].
  split; [done|]. split; [done|]. split.
  { destruct Hshape as [-> | ->]; simpl; lia. }
  split.
  - intros Hinit. destruct (decide (snd (refreshOneAccount cfg w now t a) = [])) as [|Hne];
      [done|]. apply Hiff in Hne. destruct Hne as (_ & Hi & _). congruence.
  - split.
    + intros n u k. destruct (Hmain (newAccount n u k)) as [_ Hiff'].
      destruct (decide (snd (refreshOneAccount cfg w now t (newAccount n u k)) = []))
        as [|Hne]; [done|]. apply Hiff' in Hne. by destruct Hne as (_ & Hi & _).
    + intros srv schedule completedAt srv' Hdone.
      destruct (pollAccounts_completed _ _ _ _ _ _ _ Hdone)
        as (_ & _ & _ & posts & Hlog & Hposts & Hperm).
      exists posts. split; [done|]. split; [done|]. split; [done|].
      apply Forall_forall. intros b _. apply notified_length.
Qed.

(** The account [foo] with the post [100] as its latest gets the post [101]:
    one event; the new account [foo] gets its first posts: no event. *)
Lemma new_post_iff_witness :
  snd (refreshOneAccount cfg_token w_two_posts "t0" "t1" account_foo_known)
  = [Ev_new_post
       (serializeAccount
          (fst (refreshOneAccount cfg_token w_two_posts "t0" "t1" account_foo_known)))
       "t1"] ∧
  (succeeded cfg_token w_two_posts account_foo_known = true ∧
   initialized account_foo_known = true ∧ latestTweetId account_foo_known ≠ "") ∧
  snd (refreshOneAccount cfg_token w_two_posts "t0" "t1" account_foo) = [].
Proof.
  pose proof (new_post_iff cfg_token w_two_posts "t0" "t1" account_foo_known)
    as (Hshape & Hiff & _).
  pose proof (new_post_iff cfg_token w_two_posts "t0" "t1" account_foo)
    as (_ & _ & _ & Hfirst & _).
  assert (Hne : snd (refreshOneAccount cfg_token w_two_posts "t0" "t1" account_foo_known)
                ≠ []) by (vm_compute; discriminate).
  split; [by destruct Hshape|].
  split; [|exact (Hfirst eq_refl)].
  apply Hiff in Hne as (Hs & Hi & Hp & _). by repeat split.
Defined.



(** ** Registry load *)

Lemma loadAccounts_step_spec seen accounts item :
  loadAccounts_step (seen, accounts) item =
  match well_formed item with
  | Some e => if decide (entry_key e ∈ seen) then (seen, accounts)
              else ({[ entry_key e ]} ∪ seen, accounts ++ [entry_account e])
  | None => (seen, accounts)
  end.
Proof.
  unfold loadAccounts_step, well_formed.
  destruct item as [[[| |n|] [| |u|]]|]; try done.
  cbn [raw_name raw_username].
  destruct (strip_at (trim u)) as [|c r].
  - cbn [truthy negb]. by rewrite decide_True.
  - cbn [truthy negb]. rewrite (decide_False (P := String c r = "")) by done.
    unfold entry_account, entry_key. cbn [fst snd]. by case_decide.
Qed.

Lemma loadAccounts_fold parsed seen kept_keys accounts :
  (∀ k, k ∈ kept_keys ↔ k ∈ seen) →
  snd (fold_left loadAccounts_step parsed (seen, accounts)) =
  accounts ++ map entry_account (keep_first kept_keys (omap well_formed parsed)).
Proof.
  revert seen kept_keys accounts.
  induction parsed as [|item parsed IH]; intros seen ks accounts Hks.
  - simpl. by rewrite app_nil_r.
  - cbn [fold_left]. rewrite loadAccounts_step_spec.
    change (omap well_formed (item :: parsed))
      with (match well_formed item with
            | Some e => e :: omap well_formed parsed
            | None => omap well_formed parsed
            end).
    destruct (well_formed item) as [e|]; [|by apply IH]. cbn [keep_first].
    destruct (decide (entry_key e ∈ seen)) as [Hin|Hin].
    + rewrite decide_True by (by apply Hks). by apply IH.
    + rewrite decide_False by (by rewrite Hks).
      rewrite (IH _ (entry_key e :: ks)); [by rewrite <- app_assoc|].
      intros k. rewrite elem_of_cons, elem_of_union, elem_of_singleton, Hks. done.
Qed.

(** [api/state.mjs] loads the same entries and keeps their names and
    usernames. *)
Lemma StateApi_loadAccounts parsed :
  StateApi.loadAccounts parsed = map (fun a => (name a, username a)) (loadAccounts parsed).
Proof.
  unfold StateApi.loadAccounts, loadAccounts.
  enough (H : ∀ seen accounts,
            fold_left StateApi.loadAccounts_step parsed
              (seen, map (fun a => (name a, username a)) accounts)
            = (fst (fold_left loadAccounts_step parsed (seen, accounts)),
               map (fun a => (name a, username a))
                   (snd (fold_left loadAccounts_step parsed (seen, accounts)))))
    by (by rewrite (H ∅ [])).
  induction parsed as [|item parsed IH]; intros seen accounts; [done|].
  cbn [fold_left].
  assert (Hstep : StateApi.loadAccounts_step
                    (seen, map (fun a => (name a, username a)) accounts) item
                  = (fst (loadAccounts_step (seen, accounts) item),
                     map (fun a => (name a, username a))
                         (snd (loadAccounts_step (seen, accounts) item)))).
  { unfold StateApi.loadAccounts_step, loadAccounts_step.
    destruct item as [[[| |n|] [| |u|]]|]; try done. cbn [raw_name raw_username].
    destruct (negb _); [done|]. case_decide; [done|].
    cbn [fst snd]. by rewrite map_app. }
  rewrite Hstep. destruct (loadAccounts_step (seen, accounts) item) as [seen' accounts'].
  apply IH.
Qed.

Lemma keep_first_keys kept_keys entries :
  NoDup (map entry_key (keep_first kept_keys entries)) ∧
  (∀ e, e ∈ keep_first kept_keys entries → e ∈ entries ∧ entry_key e ∉ kept_keys) ∧
  (∀ e, e ∈ entries →
        entry_key e ∈ kept_keys ∨ entry_key e ∈ map entry_key (keep_first kept_keys entries)).
Proof.
  revert kept_keys. induction entries as [|e entries IH]; intros ks; simpl.
  - split; [constructor|]. split; intros e He; by apply elem_of_nil in He.
  - case_decide as Hin.
    + destruct (IH ks) as (Hnd & Hsub & Hall). split; [done|]. split.
      * intros e' He'. destruct (Hsub e' He'). split; [by right|done].
      * intros e' [->|He']%elem_of_cons; [by left|by apply Hall].
    + destruct (IH (entry_key e :: ks)) as (Hnd & Hsub & Hall). split; [|split].
      * simpl. constructor; [|done].
        intros (e' & Hk & He')%list_elem_of_fmap.
        destruct (Hsub e' He') as [_ Hn]. apply Hn. rewrite <- Hk. by left.
      * intros e' [->|He']%elem_of_cons; [split; [by left|done]|].
        destruct (Hsub e' He') as [? Hn]. split; [by right|].
        intros ?. apply Hn. by right.
      * intros e' [->|He']%elem_of_cons; [right; by left|].
        destruct (Hall e' He') as [[->|?]%elem_of_cons|?].
        -- right. by left.
        -- by left.
        -- right. by right.
Qed.

(** The kept entries come in the order of the list, and an entry is kept
    when no entry before it has its key. *)
Lemma keep_first_first kept_keys entries :
  keep_first kept_keys entries `sublist_of` entries ∧
  (∀ before e after,
     entries = before ++ e :: after →
     entry_key e ∉ kept_keys → entry_key e ∉ map entry_key before →
     e ∈ keep_first kept_keys entries).
Proof.
  revert kept_keys. induction entries as [|e entries IH]; intros ks; simpl.
  - split; [done|]. intros [|] ???; done.
  - case_decide as Hin.
    + destruct (IH ks) as [Hsub Hfirst]. split; [by constructor|].
      intros [|b before] e' after; simpl.
      * by intros [= <- _].
      * intros [= <- ->] Hk Hb. apply (Hfirst before e' after); [done..|].
        intros ?. apply Hb. by right.
    + destruct (IH (entry_key e :: ks)) as [Hsub Hfirst]. split; [by constructor|].
      intros [|b before] e' after; simpl.
      * intros [= <- _] _ _. by left.
      * intros [= <- ->] Hk Hb. right. apply (Hfirst before e' after); [done| |].
        -- intros [Heq|?]%elem_of_cons; [|done]. apply Hb. rewrite Heq. by left.
        -- intros ?. apply Hb. by right.
Qed.

(** C5.  The registry load keeps, in the order of the list, exactly the
    entries whose [name] and [username] are strings, whose username trimmed
    and with one leading at-sign removed is not empty, and whose lowercase
    username is not the one of an entry kept before; each kept entry gives one
    account in its initial state.  It is a total function: malformed entries
    and duplicates are passed over and nothing is raised.  The lowercase
    usernames of the loaded accounts are pairwise distinct, every well-formed
    entry has its lowercase username among them, and the account of a
    lowercase username is the one of its first well-formed entry.  The list
    of [{name: A, username: foo}] and [{name: B, username: FOO}] loads as one
    account, with username [foo]. *)
Theorem loadAccounts_first_wins parsed :
  loadAccounts parsed = map entry_account (load_spec parsed) ∧
  load_spec parsed `sublist_of` omap well_formed parsed ∧
  NoDup (map (fun a => toLowerCase (username a)) (loadAccounts parsed)) ∧
  (∀ e, e ∈ omap well_formed parsed →
        entry_key e ∈ map usernameKey (loadAccounts parsed)) ∧
  (∀ before e after,
     omap well_formed parsed = before ++ e :: after →
     entry_key e ∉ map entry_key before →
     entry_account e ∈ loadAccounts parsed) ∧
  map (fun a => (name a, username a)) (loadAccounts raw_A_foo_B_FOO) = [("A", "foo")] ∧
  StateApi.loadAccounts parsed = map (fun a => (name a, username a)) (loadAccounts parsed).
Proof.
  assert (Hload : loadAccounts parsed = map entry_account (load_spec parsed)).
  { unfold loadAccounts, load_spec.
    rewrite (loadAccounts_fold parsed ∅ [] []); [done|]. intros k. set_solver. }
  destruct (keep_first_keys [] (omap well_formed parsed)) as (Hnd & _ & Hall).
  destruct (keep_first_first [] (omap well_formed parsed)) as [Hsub Hfirst].
  split; [done|]. split; [done|].
  split; [by rewrite Hload, <- !list_fmap_compose|].
  split; [|split; [|split]].
  - intros e He. rewrite Hload, <- list_fmap_compose.
    destruct (Hall e He) as [Hk|Hk]; [by apply elem_of_nil in Hk|done].
  - intros before e after Hsplit Hb. rewrite Hload. apply list_elem_of_fmap_2.
    apply (Hfirst before e after); [done| |done]. apply not_elem_of_nil.
  - by vm_compute.
  - apply StateApi_loadAccounts.
Qed.

(** Of the two entries of the handle [foo], the first is the one loaded. *)
Lemma loadAccounts_first_wins_witness :
  omap well_formed raw_A_foo_B_FOO = [("A", "foo"); ("B", "FOO")] ∧
  entry_account ("A", "foo") ∈ loadAccounts raw_A_foo_B_FOO ∧
  length (loadAccounts raw_A_foo_B_FOO) = 1%nat.
Proof.
  assert (Hw : omap well_formed raw_A_foo_B_FOO = [] ++ ("A", "foo") :: [("B", "FOO")])
    by (vm_compute; reflexivity).
  split; [exact Hw|]. split; [|vm_compute; reflexivity].
  pose proof (loadAccounts_first_wins raw_A_foo_B_FOO) as (_ & _ & _ & _ & Hfirst & _).
  apply (Hfirst [] ("A", "foo") [("B", "FOO")] Hw). apply not_elem_of_nil.
Defined.

(** ** Adding an account *)

Lemma refreshOneAccount_identity cfg w now t a :
  name (fst (refreshOneAccount cfg w now t a)) = name a ∧
  username (fst (refreshOneAccount cfg w now t a)) = username a ∧
  usernameKey (fst (refreshOneAccount cfg w now t a)) = usernameKey a.
Proof.
  rewrite refreshOneAccount_attempt.
  destruct (attempt_account cfg w a) as [Ha | (_ & i & _ & Ha)];
    destruct (attempt cfg w a) as [a' [tweets|m]]; simpl in *; by subst.
Qed.

Lemma loadAccounts_registry_ok parsed : registry_ok (loadAccounts parsed).
Proof.
  unfold loadAccounts.
  enough (H : ∀ seen accounts, registry_ok accounts →
              registry_ok (snd (fold_left loadAccounts_step parsed (seen, accounts))))
    by (apply H; constructor).
  induction parsed as [|item parsed IH]; intros seen accounts Hok; [done|].
  cbn [fold_left]. rewrite loadAccounts_step_spec.
  destruct (well_formed item) as [e|]; [|by apply IH].
  case_decide; [by apply IH|]. apply IH, Forall_app. split; [done|].
  by constructor.
Qed.

Lemma already_registered_true key accounts :
  already_registered key accounts = true ↔ ∃ a, a ∈ accounts ∧ usernameKey a = key.
Proof.
  unfold already_registered. rewrite existsb_exists. split.
  - intros (a & Hin & Heq). exists a. split; [by apply list_elem_of_In|].
    by apply String.eqb_eq.
  - intros (a & Hin & Heq). exists a. split; [by apply list_elem_of_In|].
    by apply String.eqb_eq.
Qed.





(** C10.  The add-account operation sees the submitted username only
    through its trimmed form without one leading at-sign: two usernames with
    the same such form get the same reply and lead to the same state, so the
    syntax rule and the duplicate check bear on that form.  The username
    [@Stray_Kids], which the syntax rule refuses as it stands, is accepted
    and stored as [Stray_Kids]; after [foo] has been added [@foo] is refused
    as a duplicate, and the other way round. *)
Theorem handleAddAccount_normalizes cfg w now detectedAt serverTime body_name u u' srv :
  strip_at (trim u) = strip_at (trim u') →
  handleAddAccount cfg w now detectedAt serverTime (Body body_name (JString u)) srv =
  handleAddAccount cfg w now detectedAt serverTime (Body body_name (JString u')) srv ∧
  usernameRegex_test "@Stray_Kids" = false ∧
  fst (snd (handleAddAccount cfg_no_token w_offline "t0" "t1" "t2"
              (Body (JString "Stray Kids") (JString "@Stray_Kids")) srv_empty)) = 201%nat ∧
  map username (accounts (fst (handleAddAccount cfg_no_token w_offline "t0" "t1" "t2"
                                 (Body (JString "Stray Kids") (JString "@Stray_Kids"))
                                 srv_empty))) = ["Stray_Kids"] ∧
  ACCOUNTS_FILE (fst (handleAddAccount cfg_no_token w_offline "t0" "t1" "t2"
                        (Body (JString "Stray Kids") (JString "@Stray_Kids")) srv_empty))
  = [("Stray Kids", "Stray_Kids")] ∧
  handleAddAccount cfg_no_token w_offline "t3" "t4" "t5"
    (Body (JString "B") (JString "@foo")) (after_adding "foo")
  = (after_adding "foo", (409%nat, ErrorReply duplicate_message)) ∧
  handleAddAccount cfg_no_token w_offline "t3" "t4" "t5"
    (Body (JString "B") (JString "foo")) (after_adding "@foo")
  = (after_adding "@foo", (409%nat, ErrorReply duplicate_message)).
Proof.
  intros Hsame. split.
  - unfold handleAddAccount, String_or_empty. by rewrite Hsame.
  - repeat split; by vm_compute.
Qed.

(** A handle with spaces and an at-sign, and the same handle without. *)
Lemma handleAddAccount_normalizes_witness :
  strip_at (trim " @foo ") = strip_at (trim "foo") ∧
  handleAddAccount cfg_no_token w_offline "t0" "t1" "t2"
    (Body (JString "A") (JString " @foo ")) srv_two =
  handleAddAccount cfg_no_token w_offline "t0" "t1" "t2"
    (Body (JString "A") (JString "foo")) srv_two.
Proof.
  assert (H : strip_at (trim " @foo ") = strip_at (trim "foo")) by (vm_compute; reflexivity).
  split; [exact H|].
  exact (proj1 (handleAddAccount_normalizes cfg_no_token w_offline "t0" "t1" "t2"
                  (JString "A") " @foo " "foo" srv_two H)).
Defined.

(** ** Video variants *)

Section SortFacts.
Context {A : Type} (key : A → Z).
#[local] Abbreviation cmp := (by_key_desc key).

Lemma sort_insert_perm x l : sort_insert cmp x l ≡ₚ x :: l.
Proof.
  induction l as [|y l IH]; simpl; [done|].
  destruct (cmp x y <=? 0)%Z; [done|]. by rewrite IH, Permutation_swap.
Qed.

Lemma sort_insert_descending x l :
  descending key l → descending key (sort_insert cmp x l).
Proof.
  unfold descending. induction 1 as [|y l Hl IH Hy]; simpl.
  - repeat constructor.
  - destruct (Z.leb_spec (cmp x y) 0) as [Hle|Hle]; unfold by_key_desc in Hle.
    + constructor; [by constructor|]. constructor; [lia|].
      eapply Forall_impl; [exact Hy|]. simpl. intros; lia.
    + constructor; [done|].
      rewrite (sort_insert_perm x l). constructor; [lia|done].
Qed.

Lemma Array_sort_perm l : Array_sort cmp l ≡ₚ l.
Proof.
  induction l as [|x l IH]; simpl; [done|].
  by rewrite sort_insert_perm, IH.
Qed.

Lemma Array_sort_descending l : descending key (Array_sort cmp l).
Proof.
  induction l as [|x l IH]; simpl; [constructor|].
  by apply sort_insert_descending.
Qed.

(** The first element of the sorted array is one of the greatest key. *)
Lemma Array_sort_head l best :
  head (Array_sort cmp l) = Some best →
  best ∈ l ∧ ∀ x, x ∈ l → (key x ≤ key best)%Z.
Proof.
  intros Hhead. pose proof (Array_sort_perm l) as Hperm.
  pose proof (Array_sort_descending l) as Hsorted.
  destruct (Array_sort cmp l) as [|b rest]; [done|]. injection Hhead as ->.
  split; [rewrite <- Hperm; by left|].
  intros x Hx. rewrite <- Hperm in Hx.
  apply StronglySorted_inv in Hsorted as [_ Hall].
  apply elem_of_cons in Hx as [->|Hx]; [lia|].
  rewrite Forall_forall in Hall. by apply Hall.
Qed.
End SortFacts.

(** The test of [variants.length] of [server.mjs] makes no difference. *)
Lemma StateApi_pickBestVideoVariant variants :
  StateApi.pickBestVideoVariant variants = pickBestVideoVariant variants.
Proof. by destruct variants as [[|x l]|]. Qed.

Lemma is_mp4_Some item v :
  is_mp4 item = Some v ↔
  item = Some v ∧ content_type v = "video/mp4" ∧ v_url v ≠ "".
Proof.
  unfold is_mp4. destruct item as [v'|]; [|naive_solver].
  destruct (String.eqb_spec (content_type v') "video/mp4") as [Hc|Hc]; simpl.
  - destruct (v_url v') eqn:Hu; simpl; [naive_solver|].
    split; [intros [= <-]; by rewrite Hu|]. by intros ([= <-] & _ & _).
  - split; [done|]. by intros ([= <-] & ? & _).
Qed.

(** C7.  For a list of variants, the candidates are exactly the entries
    whose [content_type] is [video/mp4] and whose [url] is present, in the
    order of the list; they are sorted by descending bitrate (an absent
    bitrate counting as 0), the sorted array being a rearrangement of the
    candidates; the result is the [url] of its first entry, which is a
    candidate of the greatest bitrate, and the empty string when there is no
    candidate or no list.  For the two MPEG-4 variants of bitrates 500 and
    2000 with urls [a] and [b] and the HLS variant of bitrate 9999 with url
    [c], the result is [b]. *)
Theorem pickBestVideoVariant_spec variants :
  let candidates := omap is_mp4 variants in
  let sorted := Array_sort by_bitrate_desc candidates in
  (∀ v, v ∈ candidates ↔
        Some v ∈ variants ∧ content_type v = "video/mp4" ∧ v_url v ≠ "") ∧
  candidates `sublist_of` omap Datatypes.id variants ∧
  sorted ≡ₚ candidates ∧ descending bitrate_or_0 sorted ∧
  pickBestVideoVariant (Some variants) = from_option v_url "" (head sorted) ∧
  (candidates = [] → pickBestVideoVariant (Some variants) = "") ∧
  (candidates ≠ [] →
   ∃ best, pickBestVideoVariant (Some variants) = v_url best ∧ best ∈ candidates ∧
           ∀ v, v ∈ candidates → (bitrate_or_0 v ≤ bitrate_or_0 best)%Z) ∧
  pickBestVideoVariant None = "" ∧
  pickBestVideoVariant (Some variants_500_2000_hls) = "b" ∧
  StateApi.pickBestVideoVariant (Some variants) = pickBestVideoVariant (Some variants).
Proof.
  cbv zeta.
  assert (Hpick : pickBestVideoVariant (Some variants) =
                  from_option v_url "" (head (Array_sort by_bitrate_desc (omap is_mp4 variants)))).
  { unfold pickBestVideoVariant. destruct variants as [|x l]; [done|].
    change (length (x :: l) =? 0)%nat with false. cbv iota.
    destruct (omap is_mp4 (x :: l)) as [|v r]; [done|].
    change (length (v :: r) =? 0)%nat with false. cbv iota.
    destruct (Array_sort _ _) as [|best rest]; [done|]. apply or_else_empty. }
  split; [|split; [|split; [|split; [|split; [|split; [|split; [|split; [|split]]]]]]]].
  - intros v. rewrite list_elem_of_omap. split.
    + intros (item & Hin & (-> & Hc & Hu)%is_mp4_Some). done.
    + intros (Hin & Hc & Hu). exists (Some v). split; [done|]. by apply is_mp4_Some.
  - clear Hpick. induction variants as [|[v|] l IH]; [done| |exact IH].
    change (omap is_mp4 (Some v :: l))
      with (match is_mp4 (Some v) with
            | Some v' => v' :: omap is_mp4 l
            | None => omap is_mp4 l
            end).
    change (omap Datatypes.id (Some v :: l)) with (v :: omap Datatypes.id l).
    destruct (is_mp4 (Some v)) as [v'|] eqn:Hv; [|by constructor].
    apply is_mp4_Some in Hv as ([= <-] & _). by constructor.
  - apply (Array_sort_perm bitrate_or_0).
  - apply (Array_sort_descending bitrate_or_0).
  - done.
  - intros Hnil. rewrite Hpick, Hnil. done.
  - intros Hne. rewrite Hpick.
    destruct (head (Array_sort by_bitrate_desc (omap is_mp4 variants))) as [best|] eqn:Hh.
    + exists best. split; [done|]. by apply (Array_sort_head bitrate_or_0).
    + exfalso. apply Hne. apply head_None in Hh.
      pose proof (Array_sort_perm bitrate_or_0 (omap is_mp4 variants)) as Hp.
      change (Array_sort _ (omap is_mp4 variants))
        with (Array_sort by_bitrate_desc (omap is_mp4 variants)) in Hp.
      rewrite Hh in Hp. by apply Permutation_nil in Hp.
  - done.
  - by vm_compute.
  - apply StateApi_pickBestVideoVariant.
Qed.

(** Of the three variants the two MPEG-4 ones are candidates, and the one of
    bitrate 2000 is chosen. *)
Lemma pickBestVideoVariant_spec_witness :
  omap is_mp4 variants_500_2000_hls ≠ [] ∧
  ∃ best, pickBestVideoVariant (Some variants_500_2000_hls) = v_url best ∧
          best ∈ omap is_mp4 variants_500_2000_hls ∧
          ∀ v, v ∈ omap is_mp4 variants_500_2000_hls →
               (bitrate_or_0 v ≤ bitrate_or_0 best)%Z.
Proof.
  assert (Hne : omap is_mp4 variants_500_2000_hls ≠ []) by (vm_compute; discriminate).
  split; [exact Hne|].
  pose proof (pickBestVideoVariant_spec variants_500_2000_hls)
    as (_ & _ & _ & _ & _ & _ & Hbest & _).
  exact (Hbest Hne).
Defined.

(** ** Media of a post *)

Lemma lower_idem c : lower (lower c) = lower c.
Proof. by destruct c as [[] [] [] [] [] [] [] []]. Qed.

Lemma toLowerCase_idem s : toLowerCase (toLowerCase s) = toLowerCase s.
Proof. induction s as [|c s IH]; simpl; [done|]. by rewrite lower_idem, IH. Qed.

Lemma drop_prefix_ci_Some p s rest :
  drop_prefix_ci p s = Some rest ↔
  ∃ p', s = (p' ++ rest)%string ∧ toLowerCase p' = toLowerCase p.
Proof.
  revert s. induction p as [|a p IH]; intros s; simpl.
  - split.
    + intros [= ->]. by exists "".
    + intros ([|] & -> & Hp); [done|discriminate].
  - destruct s as [|b s].
    + split; [done|]. intros ([|] & Hs & Hp); discriminate.
    + destruct (Ascii.eqb_spec (lower a) (lower b)) as [Hab|Hab].
      * rewrite IH. split.
        -- intros (p' & -> & Hp). exists (String b p'). simpl. by rewrite Hp, Hab.
        -- intros ([|b' p'] & Hs & Hp); [discriminate|].
           simpl in Hs, Hp. injection Hs as <- ->. injection Hp as _ Hp. by exists p'.
      * split; [done|]. intros ([|b' p'] & Hs & Hp); [discriminate|].
        simpl in Hs, Hp. injection Hs as <- ->. injection Hp as Hp _. by destruct Hab.
Qed.

Lemma query_or_end_true s :
  query_or_end s = true ↔ s = "" ∨ ∃ q, s = String "?"%char q.
Proof.
  destruct s as [|c s]; simpl; [naive_solver|].
  destruct (Ascii.eqb_spec c "?"%char) as [->|Hc]; [naive_solver|].
  split; [|by intros [|[q [= ? _]]]].
  by destruct c as [[] [] [] [] [] [] [] []].
Qed.

Lemma image_extensions_lower ext : ext ∈ image_extensions → toLowerCase ext = ext.
Proof.
  unfold image_extensions. rewrite !elem_of_cons, elem_of_nil.
  intros [->|[->|[->|[->|[->|[]]]]]]; reflexivity.
Qed.

Lemma imageRegex_here_true s :
  imageRegex_here s = true ↔
  ∃ ext rest, s = String "."%char (ext ++ rest)%string ∧
              toLowerCase ext ∈ image_extensions ∧ query_or_end rest = true.
Proof.
  destruct s as [|c r]; [by split; [|intros (? & ? & ? & _)]|].
  destruct (Ascii.eqb_spec c "."%char) as [->|Hc].
  - change (imageRegex_here (String "."%char r))
      with (existsb (fun ext => match drop_prefix_ci ext r with
                                | Some rest => query_or_end rest
                                | None => false
                                end) image_extensions).
    rewrite existsb_exists. split.
    + intros (ext' & Hin%list_elem_of_In & Hd).
      destruct (drop_prefix_ci ext' r) as [rest|] eqn:Hp; [|done].
      apply drop_prefix_ci_Some in Hp as (ext & -> & Hl).
      exists ext, rest. split; [done|]. split; [|done].
      by rewrite Hl, (image_extensions_lower _ Hin).
    + intros (ext & rest & [= ->] & Hin & Hq).
      exists (toLowerCase ext). split; [by apply list_elem_of_In|].
      assert (Hd : drop_prefix_ci (toLowerCase ext) (ext ++ rest) = Some rest).
      { apply drop_prefix_ci_Some. exists ext. by rewrite toLowerCase_idem. }
      by rewrite Hd.
  - split; [|by intros (ext & rest & [= ? _] & _)].
    by destruct c as [[] [] [] [] [] [] [] []].
Qed.

(** A string passes the test when it holds a dot followed by one of the
    extensions, in any case, followed by a question mark or by the end. *)
Lemma imageRegex_test_true s :
  imageRegex_test s = true ↔
  ∃ before ext rest,
    s = (before ++ String "."%char (ext ++ rest))%string ∧
    toLowerCase ext ∈ image_extensions ∧
    (rest = "" ∨ ∃ q, rest = String "?"%char q).
Proof.
  induction s as [|c s IH].
  - split; [done|]. intros ([|] & ext & rest & Hs & _); discriminate.
  - cbn [imageRegex_test]. rewrite orb_true_iff, imageRegex_here_true, IH. split.
    + intros [(ext & rest & -> & Hin & Hq) | (before & ext & rest & -> & Hin & Hq)].
      * exists "", ext, rest. by rewrite <- query_or_end_true.
      * by exists (String c before), ext, rest.
    + intros ([|c' before] & ext & rest & Hs & Hin & Hq); simpl in Hs.
      * left. exists ext, rest. by rewrite query_or_end_true.
      * right. injection Hs as _ ->. by exists before, ext, rest.
Qed.

Lemma extractImageLinksFromEntities_filter tweet :
  extractImageLinksFromEntities tweet =
  filter (fun link => imageRegex_test link = true)
         (map entity_link (default [] (urls tweet))).
Proof.
  unfold extractImageLinksFromEntities. destruct (urls tweet) as [l|]; [|done].
  change (default [] (Some l)) with l.
  induction l as [|urlItem l IH]; [done|].
  change (map entity_link (urlItem :: l)) with (entity_link urlItem :: map entity_link l).
  rewrite filter_cons. rewrite <- IH. clear IH.
  change (omap ?f (urlItem :: l))
    with (match f urlItem with Some y => y :: omap f l | None => omap f l end).
  cbv beta.
  assert (Hlink : match urlItem with
                  | Some u => expanded_url u ||s u_url u ||s ""
                  | None => ""
                  end = entity_link urlItem)
    by (destruct urlItem; [apply or_else_empty|done]).
  rewrite Hlink. destruct (entity_link urlItem) as [|c link] eqn:He.
  - by rewrite decide_False.
  - cbn [truthy andb]. destruct (imageRegex_test (String c link)) eqn:Ht.
    + by rewrite decide_True.
    + by rewrite decide_False.
Qed.

Lemma serializeTweetMedia_type media m :
  serializeTweetMedia media = Some m → ∃ raw, media = Some raw ∧ type m = m_type raw.
Proof.
  unfold serializeTweetMedia. destruct media as [raw|]; [|done].
  destruct (negb _); [done|]. intros [= <-]. by exists raw.
Qed.

Lemma StateApi_serializeTweetMedia media :
  StateApi.serializeTweetMedia media = serializeTweetMedia media.
Proof.
  unfold StateApi.serializeTweetMedia, serializeTweetMedia.
  destruct media as [raw|]; [|done]. by rewrite StateApi_pickBestVideoVariant.
Qed.

Lemma StateApi_serializeTweet account tweet mediaByKey :
  StateApi.serializeTweet (username account) tweet mediaByKey
  = serializeTweet account tweet mediaByKey.
Proof.
  unfold StateApi.serializeTweet, serializeTweet, serializeTweet_media.
  assert (Hm : ∀ keys : list string,
            omap (fun key => StateApi.serializeTweetMedia (mediaByKey !! key)) keys
            = omap (fun key => serializeTweetMedia (mediaByKey !! key)) keys).
  { intros keys. induction keys as [|key keys IH]; [done|].
    change (omap ?f (key :: keys))
      with (match f key with Some y => y :: omap f keys | None => omap f keys end).
    cbv beta. by rewrite IH, StateApi_serializeTweetMedia. }
  destruct (media_keys tweet) as [keys|]; [by rewrite Hm|done].
Qed.

(** C8.  A post gets its media from one of two sources, never from both.
    The structured entries are the attachments, in the order of
    [media_keys], that serialize to a usable entry.  When there is at least
    one, the media of the post are exactly these, and none is an
    [external_image] as long as the provider does not use that type for an
    attachment.  When there is none, the media are one [external_image] per
    link of the entities that passes the image test, in the order of the
    entities, with the link as [displayUrl] and as [openUrl]; a link passes
    the test when it holds a dot, one of the extensions [png], [jpg],
    [jpeg], [gif], [webp] in any case, and then a question mark or its
    end. *)
Theorem serializeTweet_one_strategy account tweet mediaByKey :
  (∀ key raw, mediaByKey !! key = Some raw → m_type raw ≠ "external_image") →
  let structured :=
    omap (fun key => serializeTweetMedia (mediaByKey !! key))
         (default [] (media_keys tweet)) in
  let links :=
    filter (fun link => imageRegex_test link = true)
           (map entity_link (default [] (urls tweet))) in
  (structured ≠ [] →
   media (serializeTweet account tweet mediaByKey) = structured ∧
   Forall (fun m => type m ≠ "external_image")
          (media (serializeTweet account tweet mediaByKey))) ∧
  (structured = [] →
   media (serializeTweet account tweet mediaByKey) =
   map (fun link => mkMedia "external_image" link link) links) ∧
  (∀ link, link ∈ links ↔
     link ∈ map entity_link (default [] (urls tweet)) ∧
     ∃ before ext rest,
       link = (before ++ String "."%char (ext ++ rest))%string ∧
       toLowerCase ext ∈ image_extensions ∧
       (rest = "" ∨ ∃ q, rest = String "?"%char q)) ∧
  StateApi.serializeTweet (username account) tweet mediaByKey
  = serializeTweet account tweet mediaByKey.
Proof.
  intros Htypes. cbv zeta.
  assert (Hmedia : media (serializeTweet account tweet mediaByKey) =
            let structured := omap (fun key => serializeTweetMedia (mediaByKey !! key))
                                   (default [] (media_keys tweet)) in
            if (length structured =? 0)%nat
            then structured ++ map external_image (extractImageLinksFromEntities tweet)
            else structured).
  { unfold serializeTweet, serializeTweet_media. simpl. by destruct (media_keys tweet). }
  cbv zeta in Hmedia. rewrite Hmedia. clear Hmedia.
  set (structured := omap _ (default [] (media_keys tweet))).
  split; [|split; [|split]].
  - intros Hne. destruct structured as [|m rest] eqn:Hs; [done|]. simpl.
    split; [done|]. rewrite <- Hs. apply Forall_forall. intros m'.
    unfold structured. rewrite list_elem_of_omap.
    intros (key & _ & (raw & Hraw & ->)%serializeTweetMedia_type). eauto.
  - intros ->. simpl. by rewrite extractImageLinksFromEntities_filter.
  - intros link. rewrite list_elem_of_filter, imageRegex_test_true. tauto.
  - apply StateApi_serializeTweet.
Qed.

(** A post with a photo, and a post with an image link only. *)
Lemma serializeTweet_one_strategy_witness :
  (∀ key raw, media_k1 !! key = Some raw → m_type raw ≠ "external_image") ∧
  media (serializeTweet account_foo tweet_photo media_k1)
  = [mkMedia "photo" "https://img.example/1.jpg" "https://img.example/1.jpg"] ∧
  media (serializeTweet account_foo tweet_link media_k1)
  = [mkMedia "external_image" "https://img.example/pic.jpg?x=1"
       "https://img.example/pic.jpg?x=1"].
Proof.
  assert (Ht : ∀ key raw, media_k1 !! key = Some raw → m_type raw ≠ "external_image").
  { intros key raw. unfold media_k1, build_mediaByKey.
    cbn [fold_left truthy media_key]. rewrite lookup_insert.
    case_decide; [by intros [= <-]|]. by rewrite lookup_empty. }
  split; [exact Ht|].
  pose proof (serializeTweet_one_strategy account_foo tweet_photo media_k1 Ht) as (H1 & _).
  pose proof (serializeTweet_one_strategy account_foo tweet_link media_k1 Ht) as (_ & H2 & _).
  split.
  - destruct H1 as [-> _]; [by vm_compute|]. by vm_compute.
  - rewrite H2; [|by vm_compute]. by vm_compute.
Defined.

(** * Further properties *)

(** ** The fields of a refreshed account *)

Lemma refreshOneAccount_fst cfg w now t a :
  (∃ tweets, snd (attempt cfg w a) = Returned tweets ∧
             fst (refreshOneAccount cfg w now t a)
             = set_content tweets (prepared now (fst (attempt cfg w a)))) ∨
  (∃ m, snd (attempt cfg w a) = Thrown m ∧
        fst (refreshOneAccount cfg w now t a)
        = set_error m (prepared now (fst (attempt cfg w a)))).
Proof.
  rewrite refreshOneAccount_attempt.
  destruct (attempt cfg w a) as [a' [tweets|m]]; simpl; eauto.
Qed.

(** X1.  The fields [latestTweetId], [latestTweetText],
    [latestTweetCreatedAt] and [latestTweetUrl] of an account are those of
    its first recent post, and empty when it has none: this holds of a new
    account and every refresh keeps it, the successful one by setting the
    four fields from the new list and the failed one by touching none of
    them. *)
Theorem latest_consistent_refresh cfg w now t a :
  latest_consistent a →
  latest_consistent (fst (refreshOneAccount cfg w now t a)) ∧
  (succeeded cfg w a = true →
   head (recentTweets (fst (refreshOneAccount cfg w now t a))) = None →
   latestTweetId (fst (refreshOneAccount cfg w now t a)) = "" ∧
   latestTweetUrl (fst (refreshOneAccount cfg w now t a)) = "") ∧
  (∀ name username key, latest_consistent (newAccount name username key)).
Proof.
  intros Ha. unfold succeeded.
  destruct (refreshOneAccount_fst cfg w now t a) as [(tweets & Hat & ->) | (m & Hat & ->)];
    rewrite Hat;
    destruct (attempt_account cfg w a) as [-> | (_ & i & _ & ->)];
    unfold latest_consistent in *; simpl; rewrite ?or_else_empty;
    (split; [done|]); (split; [|done]); try done;
    by intros _ ->.
Qed.

Lemma latest_consistent_refresh_witness :
  latest_consistent account_foo ∧
  latest_consistent (fst (refreshOneAccount cfg_token w_two_posts "t0" "t1" account_foo)) ∧
  latestTweetId (fst (refreshOneAccount cfg_token w_two_posts "t0" "t1" account_foo))
  = "101".
Proof.
  assert (H : latest_consistent account_foo) by (by repeat split).
  split; [exact H|]. split; [|vm_compute; reflexivity].
  exact (proj1 (latest_consistent_refresh cfg_token w_two_posts "t0" "t1" _ H)).
Defined.

Lemma map_serializeTweet_world w w' a mk l :
  typeError_message w' = typeError_message w →
  map_serializeTweet w' a mk l = map_serializeTweet w a mk l.
Proof.
  intros Ht. induction l as [|[tw|] l IH]; simpl; [done| |by rewrite Ht].
  by rewrite IH.
Qed.

Lemma fetchRecentTweets_world cfg w w' a :
  fetch w' (X_API_BASE_URL cfg ++ timeline_endpoint (userId a))
  = fetch w (X_API_BASE_URL cfg ++ timeline_endpoint (userId a)) →
  typeError_message w' = typeError_message w →
  fetchRecentTweets cfg w' a = fetchRecentTweets cfg w a.
Proof.
  intros Hf Ht. unfold fetchRecentTweets, xApiRequest. rewrite Hf.
  destruct (fetch w _) as [m|r]; [done|].
  destruct (negb (ok r)); [done|].
  destruct (data_list (json r)) as [[|x l]|]; try done.
  by apply map_serializeTweet_world.
Qed.

(** X2.  The identifier of an account is resolved once: a refresh changes
    [userId] only from empty to a resolved, non-empty identifier, and the
    refresh of an account that has one keeps it and makes no lookup, its
    result depending on the provider through the timeline request alone. *)
Theorem userId_resolved_once cfg w now t a :
  (userId (fst (refreshOneAccount cfg w now t a)) = userId a ∨
   userId a = "" ∧ userId (fst (refreshOneAccount cfg w now t a)) ≠ "") ∧
  (userId a ≠ "" →
   userId (fst (refreshOneAccount cfg w now t a)) = userId a ∧
   ∀ w', fetch w' (X_API_BASE_URL cfg ++ timeline_endpoint (userId a))
         = fetch w (X_API_BASE_URL cfg ++ timeline_endpoint (userId a)) →
         typeError_message w' = typeError_message w →
         refreshOneAccount cfg w' now t a = refreshOneAccount cfg w now t a).
Proof.
  assert (Hany : userId (fst (refreshOneAccount cfg w now t a)) = userId a ∨
                 userId a = "" ∧ userId (fst (refreshOneAccount cfg w now t a)) ≠ "").
  { destruct (refreshOneAccount_fst cfg w now t a) as [(x & _ & ->) | (x & _ & ->)];
      destruct (attempt_account cfg w a) as [-> | (He & i & Hi & ->)]; simpl; eauto. }
  split; [done|]. intros Hid. split; [by destruct Hany as [|[? _]]|].
  intros w' Hf Ht. rewrite !refreshOneAccount_attempt.
  assert (Hatt : attempt cfg w' a = attempt cfg w a).
  { unfold attempt. destruct (negb (truthy (X_BEARER_TOKEN cfg))); [done|].
    apply truthy_true in Hid. rewrite Hid. simpl.
    by rewrite (fetchRecentTweets_world cfg w w' a Hf Ht). }
  by rewrite Hatt.
Qed.

Lemma userId_resolved_once_witness :
  userId account_foo_known ≠ "" ∧
  userId (fst (refreshOneAccount cfg_token w_offline "t0" "t1" account_foo_known)) = "42".
Proof.
  assert (H : userId account_foo_known ≠ "") by done.
  split; [exact H|].
  exact (proj1 (proj2 (userId_resolved_once cfg_token w_offline "t0" "t1" account_foo_known) H)).
Defined.

(** X3.  After a refresh [lastCheckedAt] is the time of the call.  With
    runtime errors that have a message, [error] is empty exactly when the
    refresh succeeded; a successful refresh leaves the account initialized,
    and a failed one stores the message of the failure. *)
Theorem error_empty_iff_succeeded cfg w now t a :
  runtime_messages_nonempty w →
  lastCheckedAt (fst (refreshOneAccount cfg w now t a)) = now ∧
  (error (fst (refreshOneAccount cfg w now t a)) = "" ↔ succeeded cfg w a = true) ∧
  (succeeded cfg w a = true → initialized (fst (refreshOneAccount cfg w now t a)) = true) ∧
  (∀ m, snd (attempt cfg w a) = Thrown m →
        error (fst (refreshOneAccount cfg w now t a)) = m).
Proof.
  intros Hw. unfold succeeded.
  destruct (refreshOneAccount_fst cfg w now t a) as [(tweets & Hat & ->) | (m & Hat & ->)];
    rewrite Hat;
    pose proof (attempt_thrown cfg w a) as Hne;
    destruct (attempt_account cfg w a) as [Ha | (_ & i & _ & Ha)]; rewrite Ha; simpl.
  - by repeat split.
  - by repeat split.
  - specialize (Hne m Hw Hat). repeat split; try done. by intros m0 [= <-].
  - specialize (Hne m Hw Hat). repeat split; try done. by intros m0 [= <-].
Qed.

Lemma error_empty_iff_succeeded_witness :
  runtime_messages_nonempty w_offline ∧
  error (fst (refreshOneAccount cfg_token w_offline "t0" "t1" account_foo)) ≠ "" ∧
  succeeded cfg_token w_offline account_foo = false.
Proof.
  assert (Hw : runtime_messages_nonempty w_offline).
  { split; [done|]. by intros e m [= <-]. }
  split; [exact Hw|].
  pose proof (error_empty_iff_succeeded cfg_token w_offline "t0" "t1" account_foo Hw)
    as (_ & Hiff & _).
  assert (Hs : succeeded cfg_token w_offline account_foo = false) by (vm_compute; reflexivity).
  split; [|exact Hs]. intros He. apply Hiff in He. congruence.
Defined.

(** ** A provider that has nothing new *)

(** The second attempt of a refresh meets the answers of the first. *)
Lemma attempt_again cfg w now t a :
  attempt cfg w (fst (refreshOneAccount cfg w now t a))
  = (fst (refreshOneAccount cfg w now t a), snd (attempt cfg w a)).
Proof.
  rewrite refreshOneAccount_attempt. unfold attempt.
  destruct (truthy (X_BEARER_TOKEN cfg)) eqn:Htok; simpl; [|done].
  destruct (truthy (userId a)) eqn:Hu; simpl.
  - destruct (fetchRecentTweets cfg w a) as [tweets|m] eqn:HF; simpl;
      rewrite ?Hu; simpl; f_equal;
      (etransitivity; [|exact HF]); by apply fetchRecentTweets_ext.
  - destruct (xApiRequest _ _ _) as [d|m] eqn:Hx; simpl.
    + destruct (truthy (data_id d)) eqn:Hd; simpl.
      * destruct (fetchRecentTweets cfg w (set_userId (data_id d) a)) as [tweets|m] eqn:HF;
          simpl; rewrite ?Hd; simpl; f_equal;
          (etransitivity; [|exact HF]); by apply fetchRecentTweets_ext.
      * by rewrite ?Hu, ?Hx, ?Hd.
    + by rewrite ?Hu, ?Hx.
Qed.

Lemma should_notify_same was newest :
  should_notify was (from_option id "" newest ||s "") newest = false.
Proof.
  unfold should_notify. rewrite or_else_empty. destruct newest as [n|]; simpl.
  - rewrite String.eqb_refl. simpl. by rewrite !andb_false_r.
  - by rewrite andb_false_r.
Qed.

(** A refresh that meets the answers of the refresh before it announces
    nothing and leaves the account as it is, but for [lastCheckedAt]. *)
Lemma refresh_again cfg w now t now' t' a :
  let a1 := fst (refreshOneAccount cfg w now t a) in
  snd (refreshOneAccount cfg w now' t' a1) = [] ∧
  same_state a1 (fst (refreshOneAccount cfg w now' t' a1)).
Proof.
  cbv zeta. rewrite (refreshOneAccount_attempt cfg w now' t'), attempt_again.
  destruct (refreshOneAccount_fst cfg w now t a) as [(tweets & Hat & ->) | (m & Hat & ->)];
    rewrite Hat; unfold same_state, same_content, identity; simpl.
  - rewrite should_notify_same. by repeat split.
  - by repeat split.
Qed.

Lemma posts_nil posts :
  Forall is_post posts → omap post_view posts ≡ₚ [] → posts = [].
Proof.
  intros Hp Hnil. symmetry in Hnil. apply Permutation_nil in Hnil.
  destruct Hp as [|e posts [v [t ->]] _]; [done|]. discriminate.
Qed.

(** X4.  When the provider answers a cycle as it answered the cycle before,
    the second cycle broadcasts the snapshot and no [new_post] event, and
    leaves every account as it was but for its [lastCheckedAt]: content,
    [error], [userId], [initialized], name and username are the same. *)
Theorem second_cycle_silent cfg w t1 sched1 c1 t2 sched2 c2 srv srv1 srv2 :
  pollAccounts cfg w t1 sched1 c1 srv = Some srv1 →
  pollAccounts cfg w t2 sched2 c2 srv1 = Some srv2 →
  log srv2 = log srv1 ++ [Ev_state c2 (POLL_INTERVAL_MS cfg) c2
                                   (map serializeAccount (accounts srv2))] ∧
  Forall2 same_state (accounts srv1) (accounts srv2).
Proof.
  intros (Hacc1 & _)%pollAccounts_completed
         (Hacc2 & _ & _ & posts & Hlog & Hposts & Hperm)%pollAccounts_completed.
  assert (Hsilent : ∀ l, flat_map (notified cfg w t2) (map (refreshed cfg w t1) l) = []).
  { induction l as [|a l IH]; [done|]. simpl. rewrite IH, app_nil_r.
    unfold notified, refreshed.
    by rewrite (proj1 (refresh_again cfg w t1 t1 t2 t2 a)). }
  rewrite Hacc1, Hsilent in Hperm. apply posts_nil in Hperm; [|done]. subst posts.
  split; [done|]. rewrite Hacc2, Hacc1. clear.
  induction (accounts srv) as [|a l IH]; simpl; constructor; [|done].
  apply (refresh_again cfg w t1 t1 t2 t2 a).
Qed.

Lemma second_cycle_silent_witness :
  ∃ srv1 srv2,
    pollAccounts cfg_token w_two_posts "t0" [(1, "t1"); (0, "t2")]%nat "t3" srv_two = Some srv1 ∧
    pollAccounts cfg_token w_two_posts "t4" [(0, "t5"); (1, "t6")]%nat "t7" srv1 = Some srv2 ∧
    length (log srv1) = 2%nat ∧ length (log srv2) = 3%nat ∧
    Forall2 same_state (accounts srv1) (accounts srv2).
Proof.
  destruct (pollAccounts cfg_token w_two_posts "t0" [(1, "t1"); (0, "t2")]%nat "t3" srv_two)
    as [srv1|] eqn:H1; [|vm_compute in H1; discriminate].
  destruct (pollAccounts cfg_token w_two_posts "t4" [(0, "t5"); (1, "t6")]%nat "t7" srv1)
    as [srv2|] eqn:H2;
    [|vm_compute in H1; injection H1 as <-; vm_compute in H2; discriminate].
  exists srv1, srv2. split; [reflexivity|]. split; [exact H2|].
  pose proof (second_cycle_silent _ _ _ _ _ _ _ _ _ _ _ H1 H2) as [Hlog Hsame].
  split; [vm_compute in H1; injection H1 as <-; reflexivity|].
  split; [|exact Hsame].
  rewrite Hlog, length_app. vm_compute in H1. injection H1 as <-. reflexivity.
Defined.

(** ** The registry *)

(** The keys of the loaded accounts are pairwise distinct. *)
Lemma loaded_keys_nodup parsed :
  NoDup (map entry_key (load_spec parsed)) ∧
  map usernameKey (loadAccounts parsed) = map entry_key (load_spec parsed).
Proof.
  split; [apply keep_first_keys|].
  unfold loadAccounts, load_spec.
  rewrite (loadAccounts_fold parsed ∅ [] []); [|intros k; set_solver].
  simpl. by rewrite map_map.
Qed.

Lemma handleAddAccount_accounts cfg w now detectedAt serverTime req srv :
  accounts (fst (handleAddAccount cfg w now detectedAt serverTime req srv)) = accounts srv ∨
  ∃ new, accounts (fst (handleAddAccount cfg w now detectedAt serverTime req srv))
         = accounts srv ++ [new] ∧
         usernameKey new = toLowerCase (username new) ∧
         usernameKey new ∉ map usernameKey (accounts srv).
Proof.
  unfold handleAddAccount. destruct req as [m|body_name body_username]; [by left|].
  destruct (_ || _); [by left|]. destruct (negb _); [by left|].
  destruct (already_registered _ _) eqn:Hreg; [by left|]. right.
  assert (Hnew : toLowerCase (strip_at (trim (String_or_empty body_username)))
                 ∉ map usernameKey (accounts srv)).
  { intros (a & Hk & Hin)%list_elem_of_fmap.
    assert (already_registered (toLowerCase (strip_at (trim (String_or_empty body_username))))
              (accounts srv) = true) by (apply already_registered_true; eauto).
    congruence. }
  destruct (writeFile_error w).
  - eexists. split; [done|]. by split.
  - pose proof (refreshOneAccount_identity cfg w now detectedAt
                  (newAccount (trim (String_or_empty body_name))
                     (strip_at (trim (String_or_empty body_username)))
                     (toLowerCase (strip_at (trim (String_or_empty body_username))))))
      as (_ & Hu & Hk).
    destruct (refreshOneAccount _ _ _ _ _) as [new events]. simpl in *.
    exists new. split; [done|]. rewrite Hk, Hu. by split.
Qed.

Lemma refreshed_identity cfg w now a : identity (refreshed cfg w now a) = identity a.
Proof.
  unfold identity, refreshed.
  by destruct (refreshOneAccount_identity cfg w now now a) as (-> & -> & ->).
Qed.

(** X5.  The registry holds one account per lowercase username, with that
    lowercase username as its key: the load builds such a registry, the
    add-account operation keeps it one whatever the request and whatever
    becomes of the write of the file, and a cycle keeps it one, with the same
    names and usernames in the same order. *)
Theorem registry_wf_preserved cfg w now detectedAt serverTime req srv :
  registry_wf (accounts srv) →
  registry_wf (accounts (fst (handleAddAccount cfg w now detectedAt serverTime req srv))) ∧
  (∀ schedule completedAt srv',
     pollAccounts cfg w now schedule completedAt srv = Some srv' →
     registry_wf (accounts srv') ∧
     map identity (accounts srv') = map identity (accounts srv)) ∧
  (∀ parsed, registry_wf (loadAccounts parsed)).
Proof.
  intros [Hok Hnd]. split; [|split].
  - destruct (handleAddAccount_accounts cfg w now detectedAt serverTime req srv)
      as [-> | (new & -> & Hk & Hnew)]; [done|].
    split.
    + apply Forall_app. split; [done|]. by constructor.
    + rewrite map_app. apply NoDup_app. split; [done|]. split.
      * intros k Hin [->|[]%elem_of_nil]%elem_of_cons. done.
      * simpl. apply NoDup_singleton.
  - intros schedule completedAt srv' (Hacc & _)%pollAccounts_completed.
    assert (Hid : map identity (accounts srv') = map identity (accounts srv)).
    { rewrite Hacc, map_map. apply map_ext. intros a. apply refreshed_identity. }
    split; [|done]. split.
    + rewrite Hacc. apply Forall_forall. intros a' (a & -> & Hin)%list_elem_of_fmap.
      unfold registry_ok in Hok. rewrite Forall_forall in Hok. specialize (Hok a Hin).
      pose proof (refreshed_identity cfg w now a) as [= _ Hu Hk]. congruence.
    + assert (Hkeys : map usernameKey (accounts srv') = map usernameKey (accounts srv)).
      { transitivity (map snd (map identity (accounts srv')));
          [by rewrite map_map|]. rewrite Hid. by rewrite map_map. }
      by rewrite Hkeys.
  - intros parsed. split; [apply loadAccounts_registry_ok|].
    destruct (loaded_keys_nodup parsed) as [Hnd' Hkeys]. by rewrite Hkeys.
Qed.

Lemma registry_wf_preserved_witness :
  registry_wf (accounts srv_two) ∧
  registry_wf (accounts (fst (handleAddAccount cfg_no_token w_offline "t0" "t1" "t2"
                                (Body (JString "C") (JString "baz")) srv_two))).
Proof.
  assert (H : registry_wf (accounts srv_two)).
  { split; [repeat constructor|]. simpl. apply NoDup_cons. split; [|apply NoDup_singleton].
    by intros [= ]%list_elem_of_singleton. }
  split; [exact H|].
  exact (proj1 (registry_wf_preserved cfg_no_token w_offline "t0" "t1" "t2"
                  (Body (JString "C") (JString "baz")) srv_two H)).
Defined.

(** ** The media table *)

Lemma build_mediaByKey_fold includeMedia (table : gmap string RawMedia) key :
  fold_left (fun mediaByKey media =>
               match media with
               | Some m => if truthy (media_key m) then <[media_key m := m]> mediaByKey
                           else mediaByKey
               | None => mediaByKey
               end) includeMedia table !! key
  = if decide (key = "") then table !! key
    else match last (media_with_key key includeMedia) with
         | Some m => Some m
         | None => table !! key
         end.
Proof.
  revert table. induction includeMedia as [|[m|] l IH]; intros table.
  - simpl. by case_decide.
  - cbn [fold_left]. rewrite IH. unfold media_with_key.
    change (omap Datatypes.id (Some m :: l)) with (m :: omap Datatypes.id l).
    rewrite filter_cons. case_decide as Hk; [subst key|].
    + destruct (media_key m) as [|c k] eqn:Hm; simpl; [done|]. by rewrite lookup_insert_ne.
    + destruct (decide (media_key m = key)) as [He|He].
      * rewrite last_cons. destruct (last (filter _ _)); [done|].
        rewrite He. destruct key as [|c k]; [done|]. simpl. by rewrite lookup_insert_eq.
      * destruct (last (filter _ _)); [done|].
        destruct (truthy (media_key m)); [|done]. by rewrite lookup_insert_ne.
  - cbn [fold_left]. by rewrite IH.
Qed.

(** X6.  The media table built from [includes.media] maps a key to the last
    element that carries it; elements without a key (and [null] elements) are
    left out, so the empty key is never bound; a key carried by no element is
    not bound. *)
Theorem build_mediaByKey_lookup includeMedia key :
  build_mediaByKey includeMedia !! "" = None ∧
  (key ≠ "" → build_mediaByKey includeMedia !! key = last (media_with_key key includeMedia)) ∧
  (∀ m, build_mediaByKey includeMedia !! key = Some m →
        Some m ∈ includeMedia ∧ media_key m = key ∧ key ≠ "").
Proof.
  unfold build_mediaByKey.
  assert (Hlast : ∀ m, last (media_with_key key includeMedia) = Some m →
                       Some m ∈ includeMedia ∧ media_key m = key).
  { intros m Hl. apply last_Some_elem_of in Hl. unfold media_with_key in Hl.
    apply list_elem_of_filter in Hl as [Hk Hin]. split; [|done].
    apply list_elem_of_omap in Hin as ([m'|] & Hin & [= ->]). done. }
  split; [|split].
  - rewrite build_mediaByKey_fold. by rewrite decide_True.
  - intros Hk. rewrite build_mediaByKey_fold, decide_False by done.
    destruct (last _); [done|]. apply lookup_empty.
  - intros m. rewrite build_mediaByKey_fold. case_decide as Hk; [by rewrite lookup_empty|].
    destruct (last _) as [m'|] eqn:Hl; [|by rewrite lookup_empty].
    intros [= <-]. by destruct (Hlast m' eq_refl).
Qed.

Lemma build_mediaByKey_lookup_witness :
  build_mediaByKey [Some (mkRawMedia "k" "photo" "u1" "" None);
                    Some (mkRawMedia "" "photo" "u2" "" None);
                    Some (mkRawMedia "k" "video" "" "p3" None)] !! "k"
  = Some (mkRawMedia "k" "video" "" "p3" None).
Proof.
  rewrite (proj1 (proj2 (build_mediaByKey_lookup _ "k"))); [reflexivity|done].
Defined.

(** ** Serialized attachments *)

Lemma truthy_false s : truthy s = false ↔ s = "".
Proof. by destruct s. Qed.

Lemma or_else_nonempty a b : a ||s b ≠ "" ↔ a ≠ "" ∨ b ≠ "".
Proof. destruct a, b; simpl; unfold or_else; simpl; naive_solver. Qed.

(** X7.  An attachment is dropped exactly when it is missing, or is a photo
    without [url], or is no photo and has neither [preview_image_url] nor
    [url].  A serialized attachment has a [displayUrl] and an [openUrl] that
    are not empty; its [displayUrl] is the [url] of a photo and, for another
    type, the [preview_image_url] when there is one and the [url] otherwise;
    its [openUrl] is the [url] when there is one, else the best video variant
    when there is one, else the [displayUrl]. *)
Theorem serializeTweetMedia_urls media :
  (serializeTweetMedia media = None ↔
   media = None ∨
   ∃ raw, media = Some raw ∧
          (m_type raw = "photo" ∧ m_url raw = "" ∨
           m_type raw ≠ "photo" ∧ preview_image_url raw = "" ∧ m_url raw = "")) ∧
  (∀ m, serializeTweetMedia media = Some m →
        displayUrl m ≠ "" ∧ openUrl m ≠ "" ∧
        ∃ raw, media = Some raw ∧ type m = m_type raw ∧
               (m_type raw = "photo" → displayUrl m = m_url raw) ∧
               (m_type raw ≠ "photo" →
                displayUrl m = preview_image_url raw ||s m_url raw) ∧
               (m_url raw ≠ "" → openUrl m = m_url raw) ∧
               (m_url raw = "" →
                openUrl m = pickBestVideoVariant (variants raw) ||s displayUrl m)).
Proof.
  unfold serializeTweetMedia. destruct media as [raw|]; [|split; [naive_solver|done]].
  destruct (String.eqb_spec (m_type raw) "photo") as [Hp|Hp].
  - destruct (m_url raw) as [|c u] eqn:Hu; simpl.
    + split; [|done]. split; [|done]. intros _. right. exists raw. naive_solver.
    + split.
      * split; [done|]. intros [[=]|(raw' & [= <-] & [[_ Hu']|[? _]])]; [|done].
        rewrite Hu in Hu'. done.
      * intros m [= <-]. simpl. split; [done|]. split; [done|].
        exists raw. rewrite Hu. by repeat split.
  - destruct (preview_image_url raw ||s m_url raw) as [|c d] eqn:Hd; simpl.
    + split; [|done]. split; [|done]. intros _. right. exists raw. split; [done|].
      right. split; [done|]. destruct (preview_image_url raw); [|done]. by destruct (m_url raw).
    + split.
      * split; [done|]. intros [[=]|(raw' & [= <-] & [[? _]|(_ & Hpi & Hu)])]; [done|].
        rewrite Hpi, Hu in Hd. done.
      * intros m [= <-]. cbn [displayUrl openUrl type]. split; [done|]. split.
        { apply or_else_nonempty. by right. }
        exists raw. split; [done|]. split; [done|]. split; [done|]. split; [by rewrite Hd|].
        split.
        -- intros Hu. by destruct (m_url raw).
        -- intros ->. done.
Qed.

(** ** The best variant among equals *)

Lemma Array_sort_head_first {A} (key : A → Z) before best after :
  Forall (fun x => (key x < key best)%Z) before →
  Forall (fun x => (key x ≤ key best)%Z) after →
  head (Array_sort (by_key_desc key) (before ++ best :: after)) = Some best.
Proof.
  intros Hb Ha. induction Hb as [|x before Hx Hb IH]; simpl.
  - destruct (Array_sort (by_key_desc key) after) as [|y r] eqn:Hs; [done|]. simpl.
    assert (Hy : (key y ≤ key best)%Z).
    { rewrite Forall_forall in Ha. apply Ha.
      rewrite <- (Array_sort_perm key after), Hs. by left. }
    unfold by_key_desc at 1. destruct (Z.leb_spec (key y - key best) 0); [done|lia].
  - simpl in IH. destruct (Array_sort (by_key_desc key) (before ++ best :: after))
      as [|y r]; [done|]. injection IH as ->. simpl.
    unfold by_key_desc at 1. destruct (Z.leb_spec (key best - key x) 0); [lia|done].
Qed.

Lemma pickBestVideoVariant_head variants :
  pickBestVideoVariant (Some variants)
  = from_option v_url "" (head (Array_sort by_bitrate_desc (omap is_mp4 variants))).
Proof.
  unfold pickBestVideoVariant. destruct variants as [|x l]; [done|].
  change (length (x :: l) =? 0)%nat with false. cbv iota.
  destruct (omap is_mp4 (x :: l)) as [|v r]; [done|].
  change (length (v :: r) =? 0)%nat with false. cbv iota.
  destruct (Array_sort _ _) as [|best rest]; [done|]. apply or_else_empty.
Qed.

(** X8.  Of the candidates, the variant chosen is the first one of the
    greatest bitrate: a candidate that has only candidates of a smaller
    bitrate before it and none of a greater bitrate after it gives the
    result, whatever else the list holds. *)
Theorem pickBestVideoVariant_first_of_greatest variants before best after :
  omap is_mp4 variants = before ++ best :: after →
  Forall (fun v => (bitrate_or_0 v < bitrate_or_0 best)%Z) before →
  Forall (fun v => (bitrate_or_0 v ≤ bitrate_or_0 best)%Z) after →
  pickBestVideoVariant (Some variants) = v_url best ∧ v_url best ≠ "".
Proof.
  intros Hc Hb Ha. rewrite pickBestVideoVariant_head, Hc.
  change by_bitrate_desc with (by_key_desc bitrate_or_0).
  rewrite (Array_sort_head_first bitrate_or_0 before best after Hb Ha).
  split; [done|].
  assert (Hin : best ∈ omap is_mp4 variants) by (rewrite Hc; set_solver).
  apply list_elem_of_omap in Hin as (item & _ & Hi). by apply is_mp4_Some in Hi as (_ & _ & ?).
Qed.

Lemma pickBestVideoVariant_first_of_greatest_witness :
  pickBestVideoVariant
    (Some [Some (mkVariant "video/mp4" None "low");
           Some (mkVariant "video/mp4" (Some 800%Z) "first");
           None;
           Some (mkVariant "video/mp4" (Some 800%Z) "second")]) = "first".
Proof.
  refine (proj1 (pickBestVideoVariant_first_of_greatest _
                   [mkVariant "video/mp4" None "low"]
                   (mkVariant "video/mp4" (Some 800%Z) "first")
                   [mkVariant "video/mp4" (Some 800%Z) "second"] _ _ _)).
  - reflexivity.
  - repeat constructor.
  - repeat constructor. by vm_compute.
Defined.

(** ** The posts of a timeline *)

Lemma map_serializeTweet_spec w a mk l :
  (None ∈ l → map_serializeTweet w a mk l = Thrown (typeError_message w)) ∧
  (∀ tweets, map_serializeTweet w a mk l = Returned tweets →
             l = map Some (omap Datatypes.id l) ∧
             tweets = map (fun tweet => serializeTweet a tweet mk) (omap Datatypes.id l)).
Proof.
  induction l as [|[tw|] l [IHn IHr]]; simpl.
  - split; [by intros ?%elem_of_nil|]. by intros tweets [= <-].
  - split.
    + intros [[=]|Hin]%elem_of_cons. by rewrite (IHn Hin).
    + intros tweets. destruct (map_serializeTweet w a mk l) as [tweets'|]; [|done].
      intros [= <-]. destruct (IHr _ eq_refl) as [Hl ->].
      change (omap Datatypes.id (Some tw :: l)) with (tw :: omap Datatypes.id l).
      split; [|done]. change (map Some (tw :: ?x)) with (Some tw :: map Some x).
      by f_equal.
  - split; done.
Qed.

Lemma map_serializeTweet_total w a mk l :
  None ∉ l → ∃ tweets, map_serializeTweet w a mk l = Returned tweets.
Proof.
  induction l as [|[tw|] l IH]; simpl; intros Hnone.
  - by eexists.
  - destruct IH as [tweets ->]; [set_solver|]. by eexists.
  - set_solver.
Qed.

(** X9.  The posts returned for a timeline are the posts of the answer, one
    for one and in the same order, each with the identifier of its post and
    with the permalink [https://x.com/<username>/status/<id>]; an answer
    without a list gives no post.  One [null] element in the list makes the
    whole call fail with the [TypeError] of the runtime, whatever the other
    posts are. *)
Theorem fetchRecentTweets_posts cfg w a r :
  fetch w (X_API_BASE_URL cfg ++ timeline_endpoint (userId a)) = Responded r →
  ok r = true →
  let answer := default [] (data_list (json r)) in
  (None ∈ answer → fetchRecentTweets cfg w a = Thrown (typeError_message w)) ∧
  (None ∉ answer →
   ∃ tweets, fetchRecentTweets cfg w a = Returned tweets ∧
             length tweets = length answer ∧
             map id tweets = omap (fmap t_id) answer ∧
             Forall (fun tw => url tw =
                       ("https://x.com/" ++ username a ++ "/status/" ++ id tw)%string)
                    tweets).
Proof.
  intros Hf Hok. cbv zeta. unfold fetchRecentTweets, xApiRequest. rewrite Hf, Hok. simpl.
  destruct (data_list (json r)) as [[|x l]|]; simpl.
  - split; [by intros ?%elem_of_nil|]. intros _. exists []. by repeat split.
  - set (mk := build_mediaByKey _).
    destruct (map_serializeTweet_spec w a mk (x :: l)) as [Hnull Hret]. split; [done|].
    intros Hnone. destruct (map_serializeTweet w a mk (x :: l)) as [tweets|m] eqn:Hm.
    + exists tweets. split; [done|].
      destruct (map_serializeTweet_returned _ _ _ _ _ Hm) as (Hlen & _ & Hids).
      split; [done|]. split; [done|].
      destruct (Hret _ eq_refl) as [_ ->]. apply Forall_forall.
      by intros tw (tweet & -> & _)%list_elem_of_fmap.
    + destruct (map_serializeTweet_total w a mk (x :: l) Hnone) as [tweets Ht]. congruence.
  - split; [by intros ?%elem_of_nil|]. intros _. exists []. by repeat split.
Qed.

(** The timeline of [42] in [w_two_posts], asked for by [foo]. *)
Lemma fetchRecentTweets_posts_witness :
  ∃ tweets,
    fetchRecentTweets cfg_token w_two_posts (set_userId "42" account_foo) = Returned tweets ∧
    map id tweets = ["101"; "100"] ∧
    map url tweets = ["https://x.com/foo/status/101"; "https://x.com/foo/status/100"].
Proof.
  destruct (fetchRecentTweets_posts cfg_token w_two_posts (set_userId "42" account_foo)
              (mkResponse true 200 "OK"
                 (Some (mkPayload "" "" (DataList [Some tweet_101; Some tweet_100]) None)))
              eq_refl eq_refl) as [_ Hposts].
  destruct Hposts as (tweets & Hfetch & _ & Hids & _).
  { simpl. set_solver. }
  exists tweets. split; [exact Hfetch|]. split; [exact Hids|].
  vm_compute in Hfetch. injection Hfetch as <-. reflexivity.
Defined.

(** ** A write of the accounts file that fails *)



(** ** Strings *)

Lemma app_cons_s a (s1 s2 : string) : (String a s1 ++ s2)%string = String a (s1 ++ s2)%string.
Proof. reflexivity. Qed.

Lemma app_nil_r_s (s : string) : (s ++ "")%string = s.
Proof. induction s as [|a s IH]; [done|]. by rewrite app_cons_s, IH. Qed.

Lemma app_assoc_s (s1 s2 s3 : string) :
  ((s1 ++ s2) ++ s3)%string = (s1 ++ (s2 ++ s3))%string.
Proof. induction s1 as [|a s1 IH]; [done|]. by rewrite !app_cons_s, IH. Qed.

Lemma rev_app_spec s1 s2 : String.rev_app s1 s2 = (String.rev s1 ++ s2)%string.
Proof.
  revert s2. induction s1 as [|a s1 IH]; intros s2; [done|].
  unfold String.rev. simpl. rewrite (IH (String a s2)), (IH (String a "")).
  by rewrite app_assoc_s.
Qed.

Lemma rev_cons_s a s : String.rev (String a s) = (String.rev s ++ String a "")%string.
Proof. unfold String.rev at 1. simpl. apply rev_app_spec. Qed.

Lemma rev_app_distr_s s1 s2 :
  String.rev (s1 ++ s2) = (String.rev s2 ++ String.rev s1)%string.
Proof.
  induction s1 as [|a s1 IH]; [by rewrite app_nil_r_s|].
  by rewrite app_cons_s, !rev_cons_s, IH, app_assoc_s.
Qed.

Lemma rev_involutive_s s : String.rev (String.rev s) = s.
Proof.
  induction s as [|a s IH]; [done|]. by rewrite rev_cons_s, rev_app_distr_s, IH.
Qed.

Lemma trimStart_clean s : starts_clean (trimStart s).
Proof.
  induction s as [|c s IH]; simpl; [done|]. by destruct (is_white c) eqn:Hc.
Qed.

Lemma clean_trimStart s : starts_clean s → trimStart s = s.
Proof. destruct s as [|c s]; simpl; [done|]. by intros ->. Qed.

Lemma trimStart_suffix s : ∃ p, s = (p ++ trimStart s)%string.
Proof.
  induction s as [|c s [p IH]]; [by exists ""|]. simpl.
  destruct (is_white c); [|by exists ""].
  exists (String c p). by rewrite app_cons_s, <- IH.
Qed.

Lemma starts_clean_app s1 s2 : starts_clean (s1 ++ s2) → starts_clean s1.
Proof. by destruct s1. Qed.

(** [trim] leaves a trimmed string as it is. *)
Lemma trim_idem s : trim (trim s) = trim s.
Proof.
  unfold trim, trimEnd.
  set (u := trimStart s). set (z := trimStart (String.rev u)).
  assert (Hz : starts_clean z) by apply trimStart_clean.
  assert (Hrz : starts_clean (String.rev z)).
  { destruct (trimStart_suffix (String.rev u)) as [p Hp]. fold z in Hp.
    assert (Hu : u = (String.rev z ++ String.rev p)%string)
      by (by rewrite <- rev_app_distr_s, <- Hp, rev_involutive_s).
    apply (starts_clean_app _ (String.rev p)). rewrite <- Hu. apply trimStart_clean. }
  rewrite (clean_trimStart _ Hrz), rev_involutive_s. by rewrite (clean_trimStart _ Hz).
Qed.

Lemma handle_char_not_white c : is_handle_char c = true → is_white c = false.
Proof. by destruct c as [[] [] [] [] [] [] [] []]. Qed.

Lemma all_handle_app s1 s2 : all_handle (s1 ++ s2) = all_handle s1 && all_handle s2.
Proof.
  unfold all_handle. induction s1 as [|a s1 IH]; [done|].
  rewrite app_cons_s. simpl. by rewrite IH, andb_assoc.
Qed.

Lemma all_handle_rev s : all_handle (String.rev s) = all_handle s.
Proof.
  induction s as [|a s IH]; [done|].
  rewrite rev_cons_s, all_handle_app, IH. unfold all_handle. simpl.
  by rewrite andb_true_r, andb_comm.
Qed.

Lemma all_handle_clean s : all_handle s = true → starts_clean s.
Proof.
  destruct s as [|c s]; [done|]. unfold all_handle. simpl.
  intros [Hc _]%andb_true_iff. by apply handle_char_not_white.
Qed.

(** A handle that passes the syntax rule is its own normal form. *)
Lemma handle_normal u : usernameRegex_test u = true → strip_at (trim u) = u ∧ u ≠ "".
Proof.
  unfold usernameRegex_test. intros [[Hlen _]%andb_true_iff Hall]%andb_true_iff.
  fold (all_handle u) in Hall.
  assert (Htrim : trim u = u).
  { unfold trim, trimEnd. rewrite (clean_trimStart u) by (by apply all_handle_clean).
    rewrite clean_trimStart by (apply all_handle_clean; by rewrite all_handle_rev).
    apply rev_involutive_s. }
  rewrite Htrim. destruct u as [|c u]; [done|]. split; [|done].
  unfold all_handle in Hall. simpl in Hall. apply andb_true_iff in Hall as [Hc _].
  by destruct c as [[] [] [] [] [] [] [] []].
Qed.

(** ** Saving and loading the registry *)

Lemma keep_first_nodup kept_keys entries :
  NoDup (map entry_key entries) →
  (∀ e, e ∈ entries → entry_key e ∉ kept_keys) →
  keep_first kept_keys entries = entries.
Proof.
  revert kept_keys. induction entries as [|e entries IH]; intros ks Hnd Hfresh; [done|].
  simpl in *. apply NoDup_cons in Hnd as [Hne Hnd].
  rewrite decide_False by (apply Hfresh; by left). f_equal. apply IH; [done|].
  intros e' He' [Heq|Hin]%elem_of_cons.
  - apply Hne. rewrite <- Heq. by apply list_elem_of_fmap_2.
  - apply (Hfresh e'); [by right|done].
Qed.

Lemma well_formed_file_entries accounts :
  Forall storable accounts →
  omap well_formed (file_entries (serializable accounts))
  = map (fun a => (name a, username a)) accounts.
Proof.
  induction 1 as [|a l (Hre & _ & _) _ IH]; [done|].
  unfold serializable, file_entries in *. simpl map.
  change (omap ?f (?x :: ?r))
    with (match f x with Some y => y :: omap f r | None => omap f r end).
  rewrite IH. unfold well_formed. simpl.
  destruct (handle_normal _ Hre) as [-> Hne]. by rewrite decide_False.
Qed.

Lemma loadAccounts_saved accounts :
  registry_wf accounts → Forall storable accounts →
  loadAccounts (file_entries (serializable accounts)) = map reset accounts.
Proof.
  intros [Hok Hnd] Hst. unfold loadAccounts.
  rewrite (loadAccounts_fold _ ∅ [] []); [|intros k; set_solver].
  rewrite well_formed_file_entries by done. simpl.
  assert (Hkeys : map entry_key (map (fun a => (name a, username a)) accounts)
                  = map usernameKey accounts).
  { rewrite map_map. apply Forall_fmap_ext_1. eapply Forall_impl; [exact Hok|].
    intros a Ha. by rewrite Ha. }
  rewrite keep_first_nodup; [| by rewrite Hkeys | intros e _; apply not_elem_of_nil].
  rewrite map_map. apply Forall_fmap_ext_1.
  unfold registry_ok in Hok. rewrite Forall_forall in Hok, Hst |- *.
  intros a Ha. destruct (Hst a Ha) as (_ & Htrim & Hname). specialize (Hok a Ha).
  unfold entry_account, entry_key, reset. simpl. rewrite Htrim, Hok.
  by destruct (name a).
Qed.

(** X11.  Saving and loading are inverse on the registries the add-account
    operation builds: for a registry with one account per lowercase username
    whose handles pass the syntax rule and whose names are trimmed and not
    empty, loading the saved file gives the same names, usernames and keys in
    the same order, each account in its initial state.  The add-account
    operation keeps a registry of this kind, and after a reply 201 the file
    it wrote loads as the registry it left.  The load does not apply the
    syntax rule, and for a handle it accepts and the rule refuses the round
    trip can fail: the entry [@@foo] loads as [@foo], which saved and loaded
    again is [foo]. *)
Theorem save_load_round_trip cfg w now detectedAt serverTime req srv :
  registry_wf (accounts srv) → Forall storable (accounts srv) →
  let r := handleAddAccount cfg w now detectedAt serverTime req srv in
  loadAccounts (file_entries (serializable (accounts srv))) = map reset (accounts srv) ∧
  Forall storable (accounts (fst r)) ∧
  (fst (snd r) = 201%nat →
   loadAccounts (file_entries (ACCOUNTS_FILE (fst r))) = map reset (accounts (fst r))) ∧
  map username (loadAccounts [Some (mkRaw (JString "A") (JString "@@foo"))]) = ["@foo"] ∧
  map username
    (loadAccounts (file_entries (serializable
       (loadAccounts [Some (mkRaw (JString "A") (JString "@@foo"))])))) = ["foo"].
Proof.
  intros Hwf Hst. cbv zeta.
  split; [by apply loadAccounts_saved|].
  assert (Hadd : Forall storable
                   (accounts (fst (handleAddAccount cfg w now detectedAt serverTime req srv))) ∧
                 (fst (snd (handleAddAccount cfg w now detectedAt serverTime req srv)) = 201%nat →
                  ACCOUNTS_FILE (fst (handleAddAccount cfg w now detectedAt serverTime req srv))
                  = serializable
                      (accounts (fst (handleAddAccount cfg w now detectedAt serverTime req srv))))).
  { unfold handleAddAccount. destruct req as [m|body_name body_username]; [by split|].
    set (name' := trim (String_or_empty body_name)).
    set (username' := strip_at (trim (String_or_empty body_username))).
    destruct (truthy name') eqn:Hn; [|by split]. simpl.
    destruct (truthy username') eqn:Hu; [|by split]. simpl.
    destruct (usernameRegex_test username') eqn:Hre; [|by split]. simpl.
    destruct (already_registered _ _); [by split|].
    assert (Hnew : ∀ new, name new = name' → username new = username' → storable new).
    { intros new Hnn Hnu. unfold storable. rewrite Hnn, Hnu. split; [done|].
      split; [apply trim_idem|by apply truthy_true]. }
    destruct (writeFile_error w).
    - split; [|done]. apply Forall_app. split; [done|]. constructor; [|done].
      by apply Hnew.
    - pose proof (refreshOneAccount_identity cfg w now detectedAt
                    (newAccount name' username' (toLowerCase username'))) as (Hrn & Hru & _).
      destruct (refreshOneAccount _ _ _ _ _) as [new events]. simpl in *.
      split.
      + apply Forall_app. split; [done|]. constructor; [|done]. by apply Hnew.
      + intros _. unfold serializable. rewrite !map_app. simpl. by rewrite Hrn, Hru. }
  destruct Hadd as [Hst' Hfile]. split; [done|]. split.
  - intros H201. rewrite (Hfile H201). apply loadAccounts_saved; [|done].
    destruct (handleAddAccount_accounts cfg w now detectedAt serverTime req srv)
      as [-> | (new & -> & Hk & Hfresh)]; [done|].
    destruct Hwf as [Hok Hnd]. split.
    + apply Forall_app. split; [done|]. by constructor.
    + rewrite map_app. apply NoDup_app. split; [done|]. split.
      * intros k Hin [->|[]%elem_of_nil]%elem_of_cons. done.
      * simpl. apply NoDup_singleton.
  - split; by vm_compute.
Qed.

Lemma save_load_round_trip_witness :
  let r := handleAddAccount cfg_no_token w_offline "t0" "t1" "t2"
             (Body (JString " Stray Kids ") (JString "@Stray_Kids")) srv_empty in
  fst (snd r) = 201%nat ∧
  map identity (loadAccounts (file_entries (ACCOUNTS_FILE (fst r))))
  = [("Stray Kids", "Stray_Kids", "stray_kids")].
Proof.
  cbv zeta.
  assert (H201 : fst (snd (handleAddAccount cfg_no_token w_offline "t0" "t1" "t2"
                             (Body (JString " Stray Kids ") (JString "@Stray_Kids"))
                             srv_empty)) = 201%nat) by (vm_compute; reflexivity).
  split; [exact H201|].
  pose proof (save_load_round_trip cfg_no_token w_offline "t0" "t1" "t2"
                (Body (JString " Stray Kids ") (JString "@Stray_Kids")) srv_empty) as H.
  cbv zeta in H. destruct H as (_ & _ & Hload & _).
  { split; constructor. }
  { constructor. }
  rewrite (Hload H201). vm_compute. reflexivity.
Defined.

(** ** The live-update stream *)

Lemma Sse_received_app res clients written frames :
  Sse.received res (Sse.mkHub clients (written ++ frames))
  = Sse.received res (Sse.mkHub clients written)
    ++ map snd (filter (fun wr => fst wr = res) frames).
Proof. unfold Sse.received. simpl. by rewrite filter_app, map_app. Qed.

Lemma Sse_broadcast_frames res e clients :
  NoDup clients →
  map snd (filter (fun wr : nat * Sse.Frame => fst wr = res)
             (map (fun client => (client, Sse.Message e)) clients))
  = if bool_decide (res ∈ clients) then [Sse.Message e] else [].
Proof.
  induction 1 as [|c clients Hc Hnd IH]; [done|].
  simpl map at 2. rewrite filter_cons. simpl fst.
  destruct (decide (c = res)) as [->|Hne].
  - rewrite bool_decide_eq_true_2 by (by left). simpl. f_equal.
    rewrite IH. by rewrite bool_decide_eq_false_2.
  - rewrite IH.
    assert (Hb : bool_decide (res ∈ clients) = bool_decide (res ∈ c :: clients))
      by (apply bool_decide_ext; rewrite elem_of_cons; naive_solver).
    by rewrite Hb.
Qed.

Lemma Sse_add_spec res clients c :
  NoDup clients → NoDup (Sse.add res clients) ∧ (c ∈ Sse.add res clients ↔ c = res ∨ c ∈ clients).
Proof.
  intros Hnd. unfold Sse.add. case_decide as Hin.
  - split; [done|]. naive_solver.
  - split.
    + apply NoDup_app. split; [done|]. split; [|apply NoDup_singleton].
      intros x Hx ->%list_elem_of_singleton. done.
    + rewrite elem_of_app, list_elem_of_singleton. naive_solver.
Qed.

Lemma Sse_delete_spec res clients c :
  NoDup clients →
  NoDup (Sse.delete res clients) ∧ (c ∈ Sse.delete res clients ↔ c ≠ res ∧ c ∈ clients).
Proof.
  intros Hnd. unfold Sse.delete. split; [by apply NoDup_filter|].
  by rewrite list_elem_of_filter.
Qed.

(** X12.  Every response of [GET /events] receives its own stream, whatever
    the other responses do: the preamble and the [connected] event when it
    connects, then each event broadcast while it is in the set of clients,
    once and in the order of the broadcasts, and the end of the stream when
    its connection closes.  So an event broadcast before it connected or
    after it closed is never written to it, and no event is written to it
    twice. *)
Theorem Sse_stream res ops hub :
  NoDup (Sse.clients hub) →
  Sse.received res (Sse.run ops hub)
  = Sse.received res hub ++ Sse.stream res (bool_decide (res ∈ Sse.clients hub)) ops ∧
  NoDup (Sse.clients (Sse.run ops hub)).
Proof.
  revert hub. induction ops as [|op ops IH]; intros [clients written] Hnd; simpl in Hnd.
  - simpl. by rewrite app_nil_r.
  - unfold Sse.run in *. cbn [fold_left]. destruct op as [res' t|res'|e]; cbn [Sse.step].
    + unfold Sse.connect, Sse.write; cbn [Sse.clients Sse.written].
      destruct (Sse_add_spec res' clients res Hnd) as [Hnd' Hin].
      destruct (IH (Sse.mkHub (Sse.add res' clients)
                      ((written ++ [(res', Sse.Preamble)]) ++ [(res', Sse.Connected t)]))
                   Hnd') as [-> Hnd'']. split; [|done].
      rewrite !Sse_received_app. cbn [Sse.clients Sse.stream].
      rewrite !filter_cons, !filter_nil. simpl fst.
      destruct (decide (res' = res)) as [->|Hne]; simpl.
      * rewrite bool_decide_eq_true_2 by (apply Hin; by left).
        by rewrite <- !app_assoc.
      * rewrite !app_nil_r. do 2 f_equal. apply bool_decide_ext. rewrite Hin. naive_solver.
    + unfold Sse.close, Sse.write; cbn [Sse.clients Sse.written].
      destruct (Sse_delete_spec res' clients res Hnd) as [Hnd' Hin].
      destruct (IH (Sse.mkHub (Sse.delete res' clients) (written ++ [(res', Sse.End)]))
                   Hnd') as [-> Hnd'']. split; [|done].
      rewrite !Sse_received_app. cbn [Sse.clients Sse.stream].
      rewrite !filter_cons, !filter_nil. simpl fst.
      destruct (decide (res' = res)) as [->|Hne]; simpl.
      * rewrite bool_decide_eq_false_2 by (rewrite Hin; naive_solver).
        by rewrite <- !app_assoc.
      * rewrite !app_nil_r. do 2 f_equal. apply bool_decide_ext. rewrite Hin. naive_solver.
    + unfold Sse.broadcastEvent; cbn [Sse.clients Sse.written].
      destruct (IH (Sse.mkHub clients
                      (written ++ map (fun client => (client, Sse.Message e)) clients))
                   Hnd) as [-> Hnd'']. split; [|done].
      rewrite Sse_received_app, Sse_broadcast_frames by done.
      cbn [Sse.clients Sse.stream]. by rewrite <- !app_assoc.
Qed.

(** Response 1 connects between two broadcasts and closes before a third;
    response 2 stays connected. *)
Lemma Sse_stream_witness :
  let ops := [Sse.Broadcast (Ev_error "a" "t0"); Sse.Connect 1 "t1";
              Sse.Broadcast (Ev_error "b" "t2"); Sse.Close 1;
              Sse.Broadcast (Ev_error "c" "t3")] in
  Sse.received 1 (Sse.run ops (Sse.mkHub [2] []))
  = [Sse.Preamble; Sse.Connected "t1"; Sse.Message (Ev_error "b" "t2"); Sse.End] ∧
  Sse.received 2 (Sse.run ops (Sse.mkHub [2] []))
  = [Sse.Message (Ev_error "a" "t0"); Sse.Message (Ev_error "b" "t2");
     Sse.Message (Ev_error "c" "t3")].
Proof.
  cbv zeta. assert (Hnd : NoDup (Sse.clients (Sse.mkHub [2] []))) by apply NoDup_singleton.
  split.
  - rewrite (proj1 (Sse_stream 1 _ _ Hnd)). reflexivity.
  - rewrite (proj1 (Sse_stream 2 _ _ Hnd)). reflexivity.
Defined.

(** ** The identifier cache of the stateless endpoint *)

Lemma State_resolveUserId_cases cfg w username cache :
  (∃ id, cache !! toLowerCase username = Some id ∧
         State.resolveUserId cfg w username cache = (cache, Returned id)) ∨
  (cache !! toLowerCase username = None ∧
   ((∃ m, State.resolveUserId cfg w username cache = (cache, Thrown m)) ∨
    (∃ id, id ≠ "" ∧
           State.resolveUserId cfg w username cache
           = (<[toLowerCase username := id]> cache, Returned id)))).
Proof.
  unfold State.resolveUserId. destruct (cache !! toLowerCase username) as [id|] eqn:Hc.
  - left. eauto.
  - right. split; [done|]. destruct (xApiRequest _ _ _) as [d|m]; [|left; eauto].
    destruct (truthy (data_id d)) eqn:Hd; simpl; [|left; eauto].
    right. exists (data_id d). split; [by apply truthy_true|done].
Qed.

(** X13.  The cache of resolved identifiers only grows, and holds resolved,
    non-empty identifiers only.  A resolution that succeeds leaves the
    identifier in the cache under the lowercase username, so that the
    username in any case is resolved from then on to the same identifier
    without a request, whatever the provider would answer; a resolution that
    fails leaves the cache as it was. *)
Theorem State_resolveUserId_cache cfg w username cache :
  State.cache_ok cache →
  let r := State.resolveUserId cfg w username cache in
  cache ⊆ fst r ∧ State.cache_ok (fst r) ∧
  (∀ id, snd r = Returned id →
         id ≠ "" ∧ fst r !! toLowerCase username = Some id ∧
         ∀ w' username', toLowerCase username' = toLowerCase username →
                         State.resolveUserId cfg w' username' (fst r) = (fst r, Returned id)) ∧
  (∀ m, snd r = Thrown m → fst r = cache).
Proof.
  intros Hok. cbv zeta.
  destruct (State_resolveUserId_cases cfg w username cache)
    as [(id & Hc & ->) | (Hc & [(m & ->) | (id & Hid & ->)])]; simpl.
  - split; [done|]. split; [done|]. split; [|done].
    intros id' [= <-]. split; [by eapply Hok|]. split; [done|].
    intros w' username' Hk. unfold State.resolveUserId. by rewrite Hk, Hc.
  - split; [done|]. split; [done|]. split; done.
  - split; [by apply insert_subseteq|]. split; [|split; [|done]].
    + intros k v. rewrite lookup_insert. case_decide; [by intros [= <-]|]. apply Hok.
    + intros id' [= <-]. split; [done|]. split; [by rewrite lookup_insert_eq|].
      intros w' username' Hk. unfold State.resolveUserId.
      by rewrite Hk, lookup_insert_eq.
Qed.

(** The lookup of [foo] succeeds once; [FOO] is then resolved offline. *)
Lemma State_resolveUserId_cache_witness :
  State.cache_ok ∅ ∧
  ∃ cache, State.resolveUserId cfg_token w_lookup_only "foo" ∅ = (cache, Returned "42") ∧
           State.resolveUserId cfg_token w_offline "FOO" cache = (cache, Returned "42").
Proof.
  assert (Hok : State.cache_ok ∅) by (intros k v; by rewrite lookup_empty).
  split; [exact Hok|].
  destruct (State.resolveUserId cfg_token w_lookup_only "foo" ∅) as [cache o] eqn:Hr.
  assert (Ho : o = Returned "42").
  { unfold State.resolveUserId in Hr. rewrite lookup_empty in Hr.
    vm_compute xApiRequest in Hr. simpl in Hr. congruence. }
  subst o. exists cache. split; [reflexivity|].
  pose proof (State_resolveUserId_cache cfg_token w_lookup_only "foo" ∅ Hok) as H.
  cbv zeta in H. rewrite Hr in H. destruct H as (_ & _ & Hhit & _).
  destruct (Hhit "42" eq_refl) as (_ & _ & Hagain).
  apply Hagain. reflexivity.
Defined.

(** ** The state built by the stateless endpoint *)

(** The function mapped over the accounts reads the cache at the key of its
    account and writes it there at most. *)
Lemma State_accountState_local cfg w nowIso account cache :
  (∀ cache', cache' !! toLowerCase (snd account) = cache !! toLowerCase (snd account) →
             snd (State.accountState cfg w nowIso account cache')
             = snd (State.accountState cfg w nowIso account cache)) ∧
  (∀ key, key ≠ toLowerCase (snd account) →
          fst (State.accountState cfg w nowIso account cache) !! key = cache !! key).
Proof.
  unfold State.accountState. destruct (negb (truthy (X_BEARER_TOKEN cfg))); [done|].
  split.
  - intros cache' Hsame.
    destruct (State_resolveUserId_cases cfg w (snd account) cache)
      as [(id & Hc & ->) | (Hc & Hmiss)].
    + destruct (State_resolveUserId_cases cfg w (snd account) cache')
        as [(id' & Hc' & ->) | (Hc' & _)]; [|congruence].
      assert (id' = id) as -> by congruence.
      by destruct (State.fetchRecentTweets _ _ _ _).
    + assert (Hc' : cache' !! toLowerCase (snd account) = None) by congruence.
      unfold State.resolveUserId. rewrite Hc, Hc'.
      destruct (xApiRequest _ _ _) as [d|m]; [|done].
      destruct (negb (truthy (data_id d))); [done|].
      by destruct (State.fetchRecentTweets _ _ _ _).
  - intros key Hkey.
    destruct (State_resolveUserId_cases cfg w (snd account) cache)
      as [(id & Hc & ->) | (Hc & [(m & ->) | (id & Hid & ->)])].
    + by destruct (State.fetchRecentTweets _ _ _ _).
    + done.
    + destruct (State.fetchRecentTweets _ _ _ _); simpl; by rewrite lookup_insert_ne.
Qed.

Lemma State_accountStates_fold cfg w nowIso accounts cache0 cache out :
  NoDup (map (fun a => toLowerCase (snd a)) accounts) →
  (∀ a, a ∈ accounts → cache !! toLowerCase (snd a) = cache0 !! toLowerCase (snd a)) →
  snd (fold_left (fun st account =>
                    let '(userIdCache, out) := st in
                    let '(userIdCache, output) :=
                      State.accountState cfg w nowIso account userIdCache in
                    (userIdCache, out ++ [output]))
                 accounts (cache, out))
  = out ++ map (fun a => snd (State.accountState cfg w nowIso a cache0)) accounts.
Proof.
  revert cache out. induction accounts as [|a l IH]; intros cache out Hnd Hsame.
  - simpl. by rewrite app_nil_r.
  - cbn [fold_left]. simpl in Hnd. apply NoDup_cons in Hnd as [Hne Hnd].
    destruct (State_accountState_local cfg w nowIso a cache0) as [Hread _].
    destruct (State_accountState_local cfg w nowIso a cache) as [_ Hwrite].
    specialize (Hread cache (Hsame a ltac:(by left))).
    destruct (State.accountState cfg w nowIso a cache) as [cache' o]. simpl in *.
    rewrite (IH cache' (out ++ [o]) Hnd).
    + by rewrite <- app_assoc, Hread.
    + intros b Hb. rewrite Hwrite; [apply Hsame; by right|].
      intros Hk. apply Hne. rewrite <- Hk. by apply (list_elem_of_fmap_2 (fun a => toLowerCase (snd a))).
Qed.

Lemma State_loaded_keys parsed :
  NoDup (map (fun a => toLowerCase (snd a)) (StateApi.loadAccounts parsed)) ∧
  Forall (fun a => snd a ≠ "") (StateApi.loadAccounts parsed).
Proof.
  rewrite StateApi_loadAccounts.
  destruct (loaded_keys_nodup parsed) as [Hnd Hkeys].
  pose proof (loadAccounts_registry_ok parsed) as Hok. split.
  - rewrite map_map. simpl. rewrite <- Hkeys in Hnd.
    assert (Heq : map (fun a => toLowerCase (username a)) (loadAccounts parsed)
                  = map usernameKey (loadAccounts parsed)).
    { apply Forall_fmap_ext_1. eapply Forall_impl; [exact Hok|]. intros a Ha. by rewrite Ha. }
    by rewrite Heq.
  - apply Forall_fmap. unfold loadAccounts.
    rewrite (loadAccounts_fold parsed ∅ [] []); [|intros k; set_solver]. simpl.
    apply Forall_fmap, Forall_forall. intros e He. simpl.
    destruct (keep_first_keys [] (omap well_formed parsed)) as (_ & Hsub & _).
    destruct (Hsub e He) as [Hin _].
    apply list_elem_of_omap in Hin as (item & _ & Hw). unfold well_formed in Hw.
    destruct item as [[[| |n|] [| |u|]]|]; try done.
    case_decide; [done|]. by injection Hw as <-.
Qed.

Lemma State_accountState_entry cfg w nowIso account cache :
  let o := snd (State.accountState cfg w nowIso account cache) in
  v_name o = fst account ∧ v_username o = snd account ∧ v_lastCheckedAt o = nowIso ∧
  v_latestTweetId o = from_option id "" (head (v_recentTweets o)) ∧
  v_latestTweetUrl o = from_option url "" (head (v_recentTweets o)) ∧
  (v_error o = "" ∨ v_recentTweets o = []) ∧
  (X_BEARER_TOKEN cfg = "" → v_error o = token_missing_message).
Proof.
  cbv zeta. unfold State.accountState.
  destruct (X_BEARER_TOKEN cfg) as [|c tok] eqn:Htok; simpl.
  { repeat split; try done. by right. }
  destruct (State.resolveUserId cfg w (snd account) cache) as [cache' [userId|m]]; simpl.
  - destruct (State.fetchRecentTweets _ _ _ _) as [tweets|m]; simpl;
      rewrite ?or_else_empty; repeat split; try done; first [by left | by right].
  - repeat split; try done. by right.
Qed.

(** X14.  With an accounts file that holds an array, the state is built
    whatever the provider answers: it has one entry per loaded account, in
    the order of the load and with its name and username; each entry is the
    one its account gets alone on the cache as it was, whatever the other
    accounts do with the cache; it carries the time of the request; its
    [latestTweetId] and [latestTweetUrl] are those of its first post; and it
    has an [error] or posts, never both: an account whose request failed shows
    no post.  Without a credential every entry carries the message of the
    missing credential. *)
Theorem State_buildState_entries cfg w nowIso parsed cache :
  ∃ cache' payload,
    State.buildState cfg w nowIso (State.Entries parsed) cache = (cache', Returned payload) ∧
    State.accounts payload
    = map (fun a => snd (State.accountState cfg w nowIso a cache))
          (StateApi.loadAccounts parsed) ∧
    map (fun o => (v_name o, v_username o)) (State.accounts payload)
    = StateApi.loadAccounts parsed ∧
    Forall (fun o => v_lastCheckedAt o = nowIso ∧
                     v_latestTweetId o = from_option id "" (head (v_recentTweets o)) ∧
                     v_latestTweetUrl o = from_option url "" (head (v_recentTweets o)) ∧
                     (v_error o = "" ∨ v_recentTweets o = []) ∧
                     (X_BEARER_TOKEN cfg = "" → v_error o = token_missing_message))
           (State.accounts payload) ∧
    State.tokenConfigured payload = truthy (X_BEARER_TOKEN cfg) ∧
    State.serverTime payload = nowIso.
Proof.
  unfold State.buildState, State.accountStates. simpl.
  pose proof (State_accountStates_fold cfg w nowIso (StateApi.loadAccounts parsed)
                cache cache [] (proj1 (State_loaded_keys parsed)) (fun _ _ => eq_refl)) as Hfold.
  destruct (fold_left _ _ _) as [cache' states]. simpl in Hfold. subst states.
  exists cache'. eexists. split; [done|]. simpl. split; [done|]. split; [|split; [|done]].
  - rewrite map_map. induction (StateApi.loadAccounts parsed) as [|[n u] l IH]; [done|].
    simpl. rewrite IH. f_equal.
    by destruct (State_accountState_entry cfg w nowIso (n, u) cache) as (-> & -> & _).
  - apply Forall_fmap, Forall_forall. intros a _. simpl.
    destruct (State_accountState_entry cfg w nowIso a cache)
      as (_ & _ & Ht & Hid & Hurl & Herr & Htok). done.
Qed.

(** ** The replies of the stateless endpoint *)

Lemma State_accountState_cache cfg w nowIso a cache :
  State.cache_ok cache →
  cache ⊆ fst (State.accountState cfg w nowIso a cache) ∧
  State.cache_ok (fst (State.accountState cfg w nowIso a cache)).
Proof.
  intros Hok. unfold State.accountState. destruct (negb _); [done|].
  pose proof (State_resolveUserId_cases cfg w (snd a) cache)
    as [(id & Hc & ->) | (Hc & [(m & ->) | (id & Hid & ->)])].
  - by destruct (State.fetchRecentTweets _ _ _ _).
  - done.
  - assert (Hok' : State.cache_ok (<[toLowerCase (snd a) := id]> cache)).
    { intros k v. rewrite lookup_insert. case_decide; [by intros [= <-]|]. apply Hok. }
    destruct (State.fetchRecentTweets _ _ _ _); simpl; (split; [by apply insert_subseteq|done]).
Qed.

Lemma State_accountStates_cache cfg w nowIso accounts cache :
  State.cache_ok cache →
  cache ⊆ fst (State.accountStates cfg w nowIso accounts cache) ∧
  State.cache_ok (fst (State.accountStates cfg w nowIso accounts cache)).
Proof.
  unfold State.accountStates.
  enough (H : ∀ out, State.cache_ok cache →
            cache ⊆ fst (fold_left (fun st account =>
                                      let '(userIdCache, out) := st in
                                      let '(userIdCache, output) :=
                                        State.accountState cfg w nowIso account userIdCache in
                                      (userIdCache, out ++ [output]))
                                   accounts (cache, out)) ∧
            State.cache_ok (fst (fold_left (fun st account =>
                                      let '(userIdCache, out) := st in
                                      let '(userIdCache, output) :=
                                        State.accountState cfg w nowIso account userIdCache in
                                      (userIdCache, out ++ [output]))
                                   accounts (cache, out)))) by apply H.
  revert cache. induction accounts as [|a l IH]; intros cache out Hok; [done|].
  cbn [fold_left].
  destruct (State_accountState_cache cfg w nowIso a cache Hok) as [Hsub Hok'].
  destruct (State.accountState cfg w nowIso a cache) as [cache' o]. simpl in Hsub, Hok'.
  destruct (IH cache' (out ++ [o]) Hok') as [Hsub' Hok''].
  split; [|done]. by trans cache'.
Qed.

(** X15.  The endpoint replies 405 with the header [Allow: GET] to any other
    method, without loading the accounts or making a request; to [GET] it
    replies 200 with the state as soon as the accounts file holds an array,
    whatever the provider answers for the accounts, and 500 with the message
    of the failure when the file cannot be read or parsed or is no array, the
    cache being then what it was.  In every case the cache keeps its entries
    and holds resolved identifiers only. *)
Theorem State_handler_replies cfg w nowIso file method cache :
  State.cache_ok cache →
  let r := State.handler cfg w nowIso file method cache in
  (method ≠ "GET" →
   r = (cache, State.mkReply 405 [("Allow", "GET")] (State.ErrorBody "Method not allowed"))) ∧
  (method = "GET" → ∀ parsed, file = State.Entries parsed →
   State.status_ (snd r) = 200%nat ∧
   ∃ payload, State.body (snd r) = State.StateBody payload ∧
              length (State.accounts payload) = length (StateApi.loadAccounts parsed)) ∧
  (method = "GET" → ∀ m, State.loadAccounts file = Thrown m →
   r = (cache, State.mkReply 500 [("Cache-Control", "no-store, max-age=0")]
                 (State.ErrorBody m))) ∧
  cache ⊆ fst r ∧ State.cache_ok (fst r).
Proof.
  intros Hok. cbv zeta. unfold State.handler.
  destruct (String.eqb_spec method "GET") as [->|Hm]; simpl.
  - split; [done|]. split; [|split].
    + intros _ parsed ->.
      destruct (State_buildState_entries cfg w nowIso parsed cache)
        as (cache' & payload & -> & Hacc & _). simpl. split; [done|].
      exists payload. split; [done|]. by rewrite Hacc, length_map.
    + intros _ m Hload. unfold State.buildState. by rewrite Hload.
    + unfold State.buildState. destruct (State.loadAccounts file) as [accounts|m]; simpl; [|done].
      pose proof (State_accountStates_cache cfg w nowIso accounts cache Hok) as Hc.
      by destruct (State.accountStates cfg w nowIso accounts cache).
  - split; [done|]. split; [done|]. split; [done|]. split; done.
Qed.

(** A request that is no [GET], and a [GET] while the provider is down. *)
Lemma State_handler_replies_witness :
  State.cache_ok ∅ ∧
  State.status_ (snd (State.handler cfg_token w_offline "t0"
                        (State.Entries raw_A_foo_B_FOO) "POST" ∅)) = 405%nat ∧
  State.status_ (snd (State.handler cfg_token w_offline "t0"
                        (State.Entries raw_A_foo_B_FOO) "GET" ∅)) = 200%nat.
Proof.
  assert (Hok : State.cache_ok ∅) by (intros k v; by rewrite lookup_empty).
  split; [exact Hok|].
  pose proof (State_handler_replies cfg_token w_offline "t0"
                (State.Entries raw_A_foo_B_FOO) "POST" ∅ Hok) as H1.
  pose proof (State_handler_replies cfg_token w_offline "t0"
                (State.Entries raw_A_foo_B_FOO) "GET" ∅ Hok) as H2.
  cbv zeta in H1, H2. destruct H1 as (H405 & _). destruct H2 as (_ & H200 & _).
  split.
  - by rewrite H405.
  - exact (proj1 (H200 eq_refl _ eq_refl)).
Defined.

(** ** The environment files *)

Lemma Env_load_line_spec inherited env line :
  Env.load_line inherited env line = env ∨
  ∃ key value, key ≠ "" ∧ Env.has_white key = false ∧ inherited key = false ∧
               env !! key = None ∧
               Env.load_line inherited env line = <[key := value]> env.
Proof.
  unfold Env.load_line. destruct (_ || _); [by left|].
  destruct (Env.cut_at_equals _) as [[before after]|]; [|by left].
  destruct (negb (truthy before)); [by left|].
  destruct (truthy (trim before)) eqn:Hk; simpl; [|by left].
  destruct (bool_decide (is_Some (env !! trim before))) eqn:Hset; simpl; [by left|].
  destruct (inherited (trim before)) eqn:Hin; simpl; [by left|].
  destruct (Env.has_white (trim before)) eqn:Hw; [by left|]. right.
  eexists _, _. split; [by apply truthy_true|]. split; [done|]. split; [done|].
  split; [|done]. apply bool_decide_eq_false in Hset. by apply eq_None_not_Some.
Qed.

Lemma Env_file_subseteq inherited content env :
  env ⊆ Env.loadEnvFileSyncCompatible inherited content env ∧
  (∀ key, Env.loadEnvFileSyncCompatible inherited content env !! key ≠ None →
          env !! key = None →
          key ≠ "" ∧ Env.has_white key = false ∧ inherited key = false).
Proof.
  unfold Env.loadEnvFileSyncCompatible. generalize (Env.split_lines content). intros lines.
  revert env. induction lines as [|line lines IH]; intros env; [done|].
  cbn [fold_left]. destruct (IH (Env.load_line inherited env line)) as [Hsub Hnew].
  destruct (Env_load_line_spec inherited env line)
    as [Heq | (key & value & Hk & Hw & Hin & Hnone & Heq)];
    rewrite Heq in *; [done|].
  split.
  - trans (<[key := value]> env); [by apply insert_subseteq|done].
  - intros k Hk' Henv. destruct (decide (k = key)) as [->|Hne]; [done|].
    apply Hnew; [done|]. by rewrite lookup_insert_ne.
Qed.

Lemma no_white_trim s :
  forallb (fun c => negb (is_white c)) (list_ascii_of_string s) = true → trim s = s.
Proof.
  intros Hs.
  assert (Hclean : ∀ x, forallb (fun c => negb (is_white c)) (list_ascii_of_string x) = true →
                        starts_clean x).
  { intros [|c x]; [done|]. simpl. intros [Hc _]%andb_true_iff. by apply negb_true_iff. }
  assert (Hrev : forallb (fun c => negb (is_white c)) (list_ascii_of_string (String.rev s)) = true).
  { clear Hclean. induction s as [|a s IH]; [done|]. simpl in Hs.
    apply andb_true_iff in Hs as [Ha Hs]. rewrite rev_cons_s.
    assert (Happ : ∀ x y, list_ascii_of_string (x ++ y)
                          = list_ascii_of_string x ++ list_ascii_of_string y).
    { intros x y. induction x as [|b x IHx]; [done|]. rewrite app_cons_s. simpl. by rewrite IHx. }
    rewrite Happ, forallb_app, (IH Hs). simpl. by rewrite Ha. }
  unfold trim, trimEnd. rewrite (clean_trimStart s) by (by apply Hclean).
  rewrite clean_trimStart by (by apply Hclean). apply rev_involutive_s.
Qed.

Lemma Env_plain_no_white s :
  Env.plain s = true →
  forallb (fun c => negb (is_white c)) (list_ascii_of_string s) = true ∧
  Env.has_white s = false.
Proof.
  unfold Env.plain, Env.has_white. induction (list_ascii_of_string s) as [|c l IH]; [done|].
  simpl. intros [Hc Hl]%andb_true_iff. destruct (IH Hl) as [-> ->].
  unfold Env.plain_char in Hc. rewrite !andb_true_iff in Hc.
  destruct Hc as [[[[Hw _] _] _] _]. apply negb_true_iff in Hw. by rewrite Hw.
Qed.

Lemma Env_plain_line key value :
  Env.plain key = true → Env.plain value = true →
  Env.split_lines (key ++ String "="%char value) = [(key ++ String "="%char value)%string] ∧
  Env.cut_at_equals (key ++ String "="%char value) = Some (key, value) ∧
  forallb (fun c => negb (is_white c))
          (list_ascii_of_string (key ++ String "="%char value)) = true.
Proof.
  intros Hk Hv.
  assert (Hvalue : Env.split_lines value = [value] ∧
                   forallb (fun c => negb (is_white c)) (list_ascii_of_string value) = true).
  { split; [|by apply Env_plain_no_white]. clear Hk. unfold Env.plain in Hv.
    induction value as [|c v IH]; [done|]. simpl in *.
    apply andb_true_iff in Hv as [Hc Hv]. rewrite (IH Hv).
    destruct (Ascii.eqb_spec c "010"%char) as [->|]; [done|done]. }
  destruct Hvalue as [Hsplit Hwhite]. unfold Env.plain in Hk.
  induction key as [|c k IH].
  - change ("" ++ String "="%char value)%string with (String "="%char value).
    simpl. rewrite Hsplit. by rewrite Hwhite.
  - simpl in Hk. apply andb_true_iff in Hk as [Hc Hk]. destruct (IH Hk) as (H1 & H2 & H3).
    rewrite app_cons_s. simpl. rewrite H1, H2, H3.
    unfold Env.plain_char in Hc. rewrite !andb_true_iff, !negb_true_iff in Hc.
    destruct Hc as [[[[Hw He] _] _] _]. rewrite He, Hw.
    by destruct (Ascii.eqb_spec c "010"%char) as [->|].
Qed.

(** X16.  Loading the environment files never changes a variable that is
    set: every variable keeps its value, so a variable of the environment
    wins over the files and a variable set by a file wins over the files
    read after it, and a file that cannot be read changes nothing.  A
    variable the files add has a name that is not empty, holds no white
    space and is not a name that [process.env] inherits: a line for such a
    name, [toString] say, is passed over.  A file with the one line
    [NAME=value], of a name and a value without white space, equals sign,
    hash or quote, sets the variable when it was not set and its name is not
    inherited, and changes nothing when the name is inherited. *)
Theorem Env_files_never_override inherited files env :
  env ⊆ Env.loadEnvFiles inherited files env ∧
  (∀ key, Env.loadEnvFiles inherited files env !! key ≠ None → env !! key = None →
          key ≠ "" ∧ Env.has_white key = false ∧ inherited key = false) ∧
  Env.loadEnvFiles inherited (None :: files) env = Env.loadEnvFiles inherited files env ∧
  (∀ key value, Env.plain key = true → key ≠ "" → Env.plain value = true →
                env !! key = None →
                Env.loadEnvFileSyncCompatible inherited (key ++ String "="%char value) env
                = if inherited key then env else <[key := value]> env).
Proof.
  split; [|split; [|split; [done|]]].
  - revert env. induction files as [|[content|] files IH]; intros env;
      [done| |apply (IH env)].
    unfold Env.loadEnvFiles in *. cbn [fold_left].
    trans (Env.loadEnvFileSyncCompatible inherited content env);
      [apply Env_file_subseteq
      |apply (IH (Env.loadEnvFileSyncCompatible inherited content env))].
  - revert env. induction files as [|[content|] files IH]; intros env;
      [done| |apply (IH env)].
    unfold Env.loadEnvFiles in *. cbn [fold_left]. intros key Hset Hnone.
    destruct (Env.loadEnvFileSyncCompatible inherited content env !! key) as [v|] eqn:Hfile.
    + apply (proj2 (Env_file_subseteq inherited content env)); [by rewrite Hfile|done].
    + by apply (IH (Env.loadEnvFileSyncCompatible inherited content env)).
  - intros key value Hk Hne Hv Hnone.
    destruct (Env_plain_line key value Hk Hv) as (Hsplit & Hcut & Hwhite).
    unfold Env.loadEnvFileSyncCompatible. rewrite Hsplit. cbn [fold_left].
    unfold Env.load_line. rewrite (no_white_trim _ Hwhite), Hcut.
    destruct (Env_plain_no_white key Hk) as [Hkw Hkh].
    rewrite (no_white_trim _ Hkw), Hkh, Hnone.
    assert (Hstart : Env.startsWith "#"%char (key ++ String "="%char value) = false
                     ∧ truthy (key ++ String "="%char value) = true ∧ truthy key = true).
    { destruct key as [|c k]; [done|]. rewrite app_cons_s. simpl.
      unfold Env.plain in Hk. simpl in Hk. apply andb_true_iff in Hk as [Hc _].
      unfold Env.plain_char in Hc. rewrite !andb_true_iff, !negb_true_iff in Hc.
      by destruct Hc as [[[[_ _] ->] _] _]. }
    destruct Hstart as (-> & -> & ->). simpl.
    try (rewrite bool_decide_eq_false_2 by (by intros [? ?])). simpl.
    destruct (inherited key); simpl; [done|].
    assert (Hq : Env.startsWith Env.dquote value = false ∧
                 Env.startsWith Env.squote value = false).
    { destruct value as [|c v]; [done|]. simpl.
      unfold Env.plain in Hv. simpl in Hv. apply andb_true_iff in Hv as [Hc _].
      unfold Env.plain_char in Hc. rewrite !andb_true_iff, !negb_true_iff in Hc.
      by destruct Hc as [[[[_ _] _] ->] ->]. }
    destruct Hq as [-> ->]. done.
Qed.

(** [PORT] is set in the environment and in both files, [TOKEN] in
    [.env.example] only, quoted, and [.env.example] has a line for
    [toString]. *)
Lemma Env_files_never_override_witness :
  let env : gmap string string := {[ "PORT" := "9000" ]} in
  let files := [Some "# local
PORT=1
"; Some "PORT = 2
TOKEN='abc'
toString=x"] in
  Env.loadEnvFiles Env.Object_prototype files env !! "PORT" = Some "9000" ∧
  Env.loadEnvFiles Env.Object_prototype files env !! "TOKEN" = Some "abc" ∧
  Env.loadEnvFiles Env.Object_prototype files env !! "toString" = None ∧
  Env.loadEnvFileSyncCompatible Env.Object_prototype "toString=x" ∅ = ∅.
Proof.
  cbv zeta. split; [|split; [vm_compute; reflexivity|split; [vm_compute; reflexivity|]]].
  - eapply lookup_weaken; [|apply (proj1 (Env_files_never_override _ _ _))].
    apply lookup_singleton_eq.
  - pose proof (Env_files_never_override Env.Object_prototype [] ∅) as (_ & _ & _ & Hline).
    exact (Hline "toString" "x" eq_refl ltac:(done) eq_refl (lookup_empty _)).
Defined.

(** ** An answer without posts *)

(** X17.  A timeline request answered with success and without a list of
    posts (no body, no [data], or an empty array) is a successful refresh
    with no post: for an account with an identifier, the posts known before
    are replaced by none and the four [latest...] fields are emptied, without
    an error and without an event.  After a refresh that succeeded with no
    post, the next refresh announces nothing, whatever the provider then
    answers: the post that follows an empty answer is not announced. *)
Theorem empty_answer_forgets cfg w now t a r :
  X_BEARER_TOKEN cfg ≠ "" → userId a ≠ "" →
  fetch w (X_API_BASE_URL cfg ++ timeline_endpoint (userId a)) = Responded r →
  ok r = true → default [] (data_list (json r)) = [] →
  let a1 := fst (refreshOneAccount cfg w now t a) in
  recentTweets a1 = [] ∧ latestTweetId a1 = "" ∧ latestTweetText a1 = "" ∧
  latestTweetCreatedAt a1 = "" ∧ latestTweetUrl a1 = "" ∧
  error a1 = "" ∧ initialized a1 = true ∧
  snd (refreshOneAccount cfg w now t a) = [] ∧
  (∀ w' now' t', snd (refreshOneAccount cfg w' now' t' a1) = []).
Proof.
  intros Htok Hid Hf Hok Hempty. cbv zeta.
  assert (Hfetch : fetchRecentTweets cfg w a = Returned []).
  { unfold fetchRecentTweets, xApiRequest. rewrite Hf, Hok. simpl.
    by destruct (data_list (json r)) as [[|x l]|]. }
  assert (Hatt : attempt cfg w a = (a, Returned [])).
  { unfold attempt. apply truthy_true in Htok, Hid. by rewrite Htok, Hid, Hfetch. }
  rewrite !refreshOneAccount_attempt, Hatt. simpl.
  assert (Hquiet : should_notify (initialized a) (latestTweetId a) None = false)
    by (unfold should_notify; by rewrite andb_false_r).
  rewrite Hquiet. repeat split.
  intros w' now' t'. rewrite refreshOneAccount_attempt.
  destruct (attempt cfg w' _) as [a' [tweets|m]]; simpl; [|done].
  by unfold should_notify.
Qed.

(** The timeline of [foo] is answered with success and no body. *)
Lemma empty_answer_forgets_witness :
  let w := mkWorld (fun _ => Responded (mkResponse true 200 "OK" None)) "TypeError" None in
  initialized account_foo_known = true ∧ latestTweetId account_foo_known = "100" ∧
  latestTweetId (fst (refreshOneAccount cfg_token w "t0" "t1" account_foo_known)) = "" ∧
  snd (refreshOneAccount cfg_token w_two_posts "t2" "t3"
         (fst (refreshOneAccount cfg_token w "t0" "t1" account_foo_known))) = [].
Proof.
  cbv zeta. split; [reflexivity|]. split; [reflexivity|].
  pose proof (empty_answer_forgets cfg_token
                (mkWorld (fun _ => Responded (mkResponse true 200 "OK" None)) "TypeError" None)
                "t0" "t1" account_foo_known (mkResponse true 200 "OK" None)) as H.
  cbv zeta in H. destruct H as (_ & Hid & _ & _ & _ & _ & _ & _ & Hnext); try done.
Defined.

(** ** Start-up *)

Lemma loadAccounts_uninitialized parsed :
  Forall (fun a => initialized a = false) (loadAccounts parsed).
Proof.
  unfold loadAccounts. rewrite (loadAccounts_fold parsed ∅ [] []); [|intros k; set_solver].
  simpl. apply Forall_fmap, Forall_forall. by intros e _.
Qed.

Lemma notified_uninitialized cfg w now a :
  initialized a = false → notified cfg w now a = [].
Proof.
  intros Hi. unfold notified. rewrite refreshOneAccount_attempt.
  destruct (attempt cfg w a) as [a' [tweets|m]]; simpl; [|done].
  unfold should_notify. by rewrite Hi.
Qed.

(** X18.  A cycle over accounts none of which is initialized broadcasts the
    snapshot and nothing else; the registry is loaded with such accounts, so
    the cycle of the start-up announces no post, whatever the accounts file
    holds and whatever the provider answers, and it leaves one account per
    loaded entry. *)
Theorem start_announces_nothing cfg w startedAt schedule completedAt srv srv' :
  Forall (fun a => initialized a = false) (accounts srv) →
  pollAccounts cfg w startedAt schedule completedAt srv = Some srv' →
  log srv' = log srv ++ [Ev_state completedAt (POLL_INTERVAL_MS cfg) completedAt
                                  (map serializeAccount (accounts srv'))] ∧
  (∀ parsed file started,
     start cfg w parsed file startedAt schedule completedAt = Some started →
     log started = [Ev_state completedAt (POLL_INTERVAL_MS cfg) completedAt
                             (map serializeAccount (accounts started))] ∧
     map identity (accounts started) = map identity (loadAccounts parsed) ∧
     lastPollCompletedAt started = completedAt).
Proof.
  assert (Hquiet : ∀ s s', Forall (fun a => initialized a = false) (accounts s) →
            pollAccounts cfg w startedAt schedule completedAt s = Some s' →
            log s' = log s ++ [Ev_state completedAt (POLL_INTERVAL_MS cfg) completedAt
                                        (map serializeAccount (accounts s'))]).
  { intros s s' Hinit Hcycle.
    assert (Hnone : flat_map (notified cfg w startedAt) (accounts s) = []).
    { induction Hinit as [|a l Ha _ IH]; [done|]. cbn [flat_map].
      by rewrite (notified_uninitialized cfg w startedAt a Ha), IH. }
    apply pollAccounts_completed in Hcycle as (_ & _ & _ & posts & Hlog & Hposts & Hperm).
    rewrite Hnone in Hperm. apply posts_nil in Hperm; [|done]. by subst posts. }
  intros Hinit Hpoll. split; [by apply Hquiet|].
  intros parsed file started Hstart. unfold start in Hstart.
  pose proof (Hquiet (mkServer (loadAccounts parsed) "" [] file) started
                (loadAccounts_uninitialized parsed) Hstart) as Hlog.
  apply pollAccounts_completed in Hstart as (Hacc & Htime & _). simpl in *.
  split; [done|]. split; [|done].
  rewrite Hacc, map_map. apply map_ext. intros a. apply refreshed_identity.
Qed.

(** The start-up on the two entries of the handle [foo], with the provider
    answering two posts. *)
Lemma start_announces_nothing_witness :
  ∃ started,
    start cfg_token w_two_posts raw_A_foo_B_FOO [] "t0" [(0, "t1"); (0, "t2")]%nat "t3"
    = Some started ∧
    length (log started) = 1%nat ∧
    map latestTweetId (accounts started) = ["101"].
Proof.
  destruct (start cfg_token w_two_posts raw_A_foo_B_FOO [] "t0" [(0, "t1"); (0, "t2")]%nat "t3")
    as [started|] eqn:Hs; [|vm_compute in Hs; discriminate].
  exists started. split; [reflexivity|].
  assert (Hinit : Forall (fun a => initialized a = false)
                    (accounts (mkServer (loadAccounts raw_A_foo_B_FOO) "" [] [])))
    by apply loadAccounts_uninitialized.
  pose proof (proj1 (start_announces_nothing _ _ _ _ _ _ _ Hinit Hs)) as Hlog.
  split; [by rewrite Hlog|].
  vm_compute in Hs. injection Hs as <-. reflexivity.
Defined.

(** ** The two endpoints on a new account *)

Lemma State_map_serializeTweet w a mk l :
  State.map_serializeTweet w (username a) mk l = map_serializeTweet w a mk l.
Proof.
  induction l as [|[tw|] l IH]; simpl; [done| |done].
  by rewrite IH, StateApi_serializeTweet.
Qed.

Lemma State_fetchRecentTweets cfg w a :
  State.fetchRecentTweets cfg w (username a) (userId a) = fetchRecentTweets cfg w a.
Proof.
  unfold State.fetchRecentTweets, fetchRecentTweets.
  destruct (xApiRequest _ _ _) as [d|m]; [|done].
  destruct (data_list d) as [[|x l]|]; cbn [default]; cbv zeta; [done| |done].
  apply State_map_serializeTweet.
Qed.

(** X19.  For an account whose identifier is not in the cache, the entry of
    the stateless endpoint is the serialized account the server has after the
    first refresh of that account at the same time, whatever the provider
    answers: same posts, same [latest...] fields, same [error]. *)
Theorem State_entry_is_first_refresh cfg w now t name handle cache :
  cache !! toLowerCase handle = None →
  snd (State.accountState cfg w now (name, handle) cache)
  = serializeAccount
      (fst (refreshOneAccount cfg w now t (newAccount name handle (toLowerCase handle)))).
Proof.
  intros Hc. rewrite refreshOneAccount_attempt.
  unfold State.accountState, attempt, State.resolveUserId. simpl.
  destruct (truthy (X_BEARER_TOKEN cfg)); simpl; [|done]. rewrite Hc.
  destruct (xApiRequest _ _ _) as [d|m]; simpl; [|done].
  destruct (truthy (data_id d)) eqn:Hd; simpl; [|done].
  rewrite <- State_fetchRecentTweets. simpl.
  by destruct (State.fetchRecentTweets cfg w handle (data_id d)) as [tweets|m].
Qed.

Lemma State_entry_is_first_refresh_witness :
  snd (State.accountState cfg_token w_two_posts "t0" ("A", "foo") ∅)
  = serializeAccount (fst (refreshOneAccount cfg_token w_two_posts "t0" "t1" account_foo)) ∧
  v_latestTweetId (snd (State.accountState cfg_token w_two_posts "t0" ("A", "foo") ∅)) = "101".
Proof.
  split; [|vm_compute; reflexivity].
  apply (State_entry_is_first_refresh cfg_token w_two_posts "t0" "t1" "A" "foo" ∅).
  apply lookup_empty.
Defined.

(** ** The state that is pushed and the state that is polled *)

Lemma Route_last_state_snoc l e :
  Route.is_state_event e = true → Route.last_state (l ++ [e]) = Some e.
Proof.
  intros He. unfold Route.last_state. rewrite List.filter_app. cbn [List.filter].
  rewrite He. apply last_snoc.
Qed.

(** X20.  After a polling cycle, and after an account was added with status
    201, [GET /api/state] answers the interval, the time of the last cycle
    and the accounts that the last [state] event carried; a request to add
    an account that is answered 400 or 409 keeps it so.  A request answered
    500 that changed the accounts breaks it: the route then shows an account
    that no event has shown. *)
Theorem api_state_in_step cfg w now detectedAt serverTime req srv :
  let r := handleAddAccount cfg w now detectedAt serverTime req srv in
  (∀ startedAt schedule completedAt srv',
     pollAccounts cfg w startedAt schedule completedAt srv = Some srv' →
     Route.in_step cfg srv') ∧
  (fst (snd r) = 201%nat → Route.in_step cfg (fst r)) ∧
  (fst (snd r) ≠ 500%nat → Route.in_step cfg srv → Route.in_step cfg (fst r)) ∧
  (Route.in_step cfg srv → fst (snd r) = 500%nat → accounts (fst r) ≠ accounts srv →
   ¬ Route.in_step cfg (fst r)).
Proof.
  cbv zeta. split; [|split; [|split]].
  - intros startedAt schedule completedAt srv'
           (_ & Htime & _ & posts & Hlog & _)%pollAccounts_completed.
    eexists. split.
    + rewrite Hlog, !app_assoc. by apply Route_last_state_snoc.
    + intros t. simpl. by rewrite Htime.
  - unfold handleAddAccount. destruct req as [m|body_name body_username]; [done|].
    cbv zeta. repeat (case_match; try done). simpl. intros _.
    eexists. split.
    + rewrite !app_assoc. by apply Route_last_state_snoc.
    + intros t'. by simpl.
  - unfold handleAddAccount. destruct req as [m|body_name body_username]; [done|].
    cbv zeta. repeat (case_match; try done). simpl. intros _ _.
    eexists. split.
    + rewrite !app_assoc. by apply Route_last_state_snoc.
    + intros t'. by simpl.
  - intros (e & Hlast & Hagree) H500 Hchanged (e' & Hlast' & Hagree').
    assert (Hsame : log (fst (handleAddAccount cfg w now detectedAt serverTime req srv))
                    = log srv ∧
                    length (accounts (fst (handleAddAccount cfg w now detectedAt serverTime
                                             req srv)))
                    = S (length (accounts srv))).
    { revert H500 Hchanged. unfold handleAddAccount.
      destruct req as [m|body_name body_username]; [done|].
      cbv zeta. repeat (case_match; try done). simpl. intros _ _.
      by rewrite length_app, Nat.add_1_r. }
    destruct Hsame as [Hlog Hlen]. rewrite Hlog, Hlast in Hlast'. injection Hlast' as <-.
    specialize (Hagree ""). specialize (Hagree' "").
    destruct e as [| t interval completed views |]; try done. simpl in Hagree, Hagree'.
    destruct Hagree as (_ & _ & Hv), Hagree' as (_ & _ & Hv').
    rewrite Hv in Hv'. apply (f_equal length) in Hv'. rewrite !length_map in Hv'. lia.
Qed.

(** The handle [foo] is added to the empty registry; then [bar] is added
    while the accounts file cannot be written. *)
Lemma api_state_in_step_witness :
  let w := mkWorld (fun _ => Rejected "fetch failed") "TypeError" (Some "EACCES") in
  Route.in_step cfg_no_token (after_adding "foo") ∧
  ¬ Route.in_step cfg_no_token
      (fst (handleAddAccount cfg_no_token w "t3" "t4" "t5"
              (Body (JString "B") (JString "bar")) (after_adding "foo"))).
Proof.
  cbv zeta.
  assert (Hfoo : Route.in_step cfg_no_token (after_adding "foo")).
  { pose proof (api_state_in_step cfg_no_token w_offline "t0" "t1" "t2"
                  (Body (JString "A") (JString "foo")) srv_empty) as H.
    cbv zeta in H. destruct H as (_ & H & _). apply H. reflexivity. }
  split; [exact Hfoo|].
  pose proof (api_state_in_step cfg_no_token
                (mkWorld (fun _ => Rejected "fetch failed") "TypeError" (Some "EACCES"))
                "t3" "t4" "t5" (Body (JString "B") (JString "bar")) (after_adding "foo"))
    as H.
  cbv zeta in H. destruct H as (_ & _ & _ & H).
  apply H; [exact Hfoo|reflexivity|]. vm_compute. discriminate.
Defined.
